(** * command: a shallow embedding of the multi-command dispatch package

    The development follows the Go sources of the package: [arguments.go]
    (positional arguments and their validation), [command.go] (the
    dispatcher [RunOpts], [Exit], [commandByName], the handler signature
    checks), the panic recovery wrapper ([recoverRun], [getPanic]) and the
    struct visitor ([defaultFieldName], [visitStruct]).  Where the sources
    hold several variants of a function, the one embedded is the latest:
    the dispatcher whose handlers take an [*Args], and the struct visitor
    that derives flag names with [defaultFieldName].

    Go values are modelled as follows.
    - strings are [string] (sequences of bytes), compared with [String.eqb];
    - a slice of pointers [[]*Argument] is a [list (option Argument)], a nil
      pointer being [None]; dereferencing it panics;
    - [error] values are the type [error]; a nil error is [None];
    - a function that may panic returns a [Result];
    - the dispatcher runs in a small monad [M] that records what is written
      to the standard streams and distinguishes continuing, returning from
      [RunOpts] and panicking. *)

From Stdlib Require Import List String Ascii ZArith NArith Bool Arith Lia.
From Stdlib Require Import DecimalString.
Import ListNotations.
Open Scope string_scope.
Open Scope nat_scope.

Set Implicit Arguments.

(** ** Errors and panics *)

(** The error values the package creates or inspects.  The first five are
    the package variables made with [errors.New]; they are compared by
    identity, so a different error with the same text is a [NewError]. *)
Inductive error : Type :=
| ErrNoCommand
| ErrHelp
| ErrUnusedArguments
| errNoPointer
| errNoStruct
| UnknownCommandError (name : string)
| RuntimeError (msg : string)      (* a runtime.Error raised by the Go runtime *)
| NewError (msg : string).         (* fmt.Errorf / errors.New / a foreign error *)

(** [err.Error()] *)
Definition Error (e : error) : string :=
  match e with
  | ErrNoCommand => "no command provided"
  | ErrHelp => "help has been shown"
  | ErrUnusedArguments => "arguments provided but not used"
  | errNoPointer => "not a pointer"
  | errNoStruct => "not a struct"
  | UnknownCommandError name => "unknown command " ++ name
  | RuntimeError msg => "runtime error: " ++ msg
  | NewError msg => msg
  end.

(** A (non-nil) value given to [panic]. *)
Inductive PanicValue : Type :=
| PVError (e : error)
| PVString (s : string).

(** [fmt.Sprintf("%v", r)] for a recovered value. *)
Definition fmt_v (r : PanicValue) : string :=
  match r with
  | PVError e => Error e
  | PVString s => s
  end.

(** The panic of a nil pointer dereference. *)
Definition nilDeref : PanicValue :=
  PVError (RuntimeError "invalid memory address or nil pointer dereference").

(** The outcome of a Go function that either returns or panics. *)
Inductive Result (A : Type) : Type :=
| Ok (a : A)
| Panic (v : PanicValue).
Arguments Ok {A} a.
Arguments Panic {A} v.

Definition rbind {A B} (r : Result A) (k : A -> Result B) : Result B :=
  match r with
  | Ok a => k a
  | Panic v => Panic v
  end.

(** The newline character. *)
Definition nl : string := String (ascii_of_nat 10) "".

(** [fmt.Sprintf("%d", n)] for a non-negative int. *)
Definition fmt_d (n : nat) : string := NilZero.string_of_uint (Nat.to_uint n).

(** [fmt.Sprintf("%d", z)] for an int. *)
Definition fmt_dZ (z : Z) : string := NilZero.string_of_int (Z.to_int z).

(** ** Functions of the Go standard library taken as given

    [strconv.Quote] (the [%q] verb), [strconv.Atoi], the Unicode tables
    behind [unicode.IsUpper] and [unicode.ToLower], and the [flag] package
    are not part of the package under study; the embedding is parametric
    in them. *)
Definition rune : Type := N.

Record FlagDef : Type := mkFlagDef {
  fd_name : string;
  fd_help : string;
  fd_kind : string;         (* which of flags.Var, BoolVar, IntVar, ... registered it *)
  fd_default : string
}.

Record FlagSet : Type := mkFlagSet {
  fs_name : string;
  fs_flags : list FlagDef
}.

Inductive ParseResult (V : Type) : Type :=
| ParseError (e : error)
| Parsed (v : V) (rest : list string).
Arguments ParseError {V} e.
Arguments Parsed {V} v rest.

(** ** Arguments (argument.go, arguments.go) *)

Record Argument : Type := mkArgument {
  arg_Name : string;
  arg_Help : string;
  arg_Optional : bool
}.

(** [NoArgs = []*Argument{nil}] *)
Definition NoArgs : list (option Argument) := [None].

Definition Argument_eqb (a b : Argument) : bool :=
  String.eqb (arg_Name a) (arg_Name b) && String.eqb (arg_Help a) (arg_Help b)
  && Bool.eqb (arg_Optional a) (arg_Optional b).

(** [reflect.DeepEqual] on two [*Argument]: equal pointers, or pointers to
    deeply equal structs; a nil pointer is only equal to a nil pointer. *)
Definition DeepEqual_ptr (a b : option Argument) : bool :=
  match a, b with
  | None, None => true
  | Some x, Some y => Argument_eqb x y
  | _, _ => false
  end.

(** [reflect.DeepEqual] on two [[]*Argument] of the same nil-ness. *)
Fixpoint DeepEqual (l1 l2 : list (option Argument)) : bool :=
  match l1, l2 with
  | [], [] => true
  | a :: l1', b :: l2' => DeepEqual_ptr a b && DeepEqual l1' l2'
  | _, _ => false
  end.

(** ** Types, option structs and handlers as [reflect] sees them *)

(** [reflect.Type], as far as the dispatcher compares and prints types. *)
Inductive GoType : Type :=
| TArgs                        (* command.Args *)
| TErrorIface                  (* error *)
| TNamed (name : string)       (* any other type, by its qualified name *)
| TPtr (elem : GoType).

Fixpoint GoType_eqb (a b : GoType) : bool :=
  match a, b with
  | TArgs, TArgs => true
  | TErrorIface, TErrorIface => true
  | TNamed x, TNamed y => String.eqb x y
  | TPtr x, TPtr y => GoType_eqb x y
  | _, _ => false
  end.

(** [typ.String()] *)
Fixpoint type_String (t : GoType) : string :=
  match t with
  | TArgs => "command.Args"
  | TErrorIface => "error"
  | TNamed n => n
  | TPtr e => "*" ++ type_String e
  end.

(** [reflect.TypeOf(( *Args)(nil))] and [errType]. *)
Definition argsType : GoType := TPtr TArgs.
Definition errType : GoType := TErrorIface.

(** [reflect.Kind] of a struct field, as far as [setupOptionsFlags]
    distinguishes kinds. *)
Inductive Kind : Type :=
| KBool | KFloat64 | KInt | KUint | KInt64 | KUint64 | KString | KOther.

(** One field of an options struct: its [reflect.StructField] and the
    value it currently holds. *)
Record StructField : Type := mkStructField {
  sf_Name : string;            (* field.Name *)
  sf_Tag_name : string;        (* field.Tag.Get("name") *)
  sf_Tag_help : string;        (* field.Tag.Get("help") *)
  sf_Type : GoType;            (* field.Type *)
  sf_Kind : Kind;              (* val.Type().Kind() *)
  sf_exported : bool;          (* Addr().Interface() panics on unexported fields *)
  sf_isFlagValue : bool;       (* the pointer to the field implements flag.Value *)
  sf_value : string            (* the current value, as %v or value.String() prints it *)
}.

(** A non-nil value stored in an [Options] field. *)
Inductive OptionsValue : Type :=
| PtrStruct (tyname : string) (fields : list StructField)   (* a pointer to a struct *)
| PtrOther (elem : GoType)     (* a pointer to something else, or a nil pointer *)
| NonPtr (ty : GoType).        (* not a pointer *)

(** [reflect.ValueOf(v).Type()] *)
Definition OptionsValue_Type (v : OptionsValue) : GoType :=
  match v with
  | PtrStruct n _ => TPtr (TNamed n)
  | PtrOther e => TPtr e
  | NonPtr t => t
  end.

(** What calling a function yields: the returned error (for a function
    without results the value is ignored) or a panic. *)
Inductive CallOutcome : Type :=
| Returns (err : option error)
| Panics (v : PanicValue).

(** A function value held in [Cmd.Func].  The handler receives the [*Args]
    built by the dispatcher for its own command, which is determined by the
    token list, and the options value after flag parsing. *)
Record FuncValue : Type := mkFuncValue {
  fn_name : string;                    (* funcName(fn) *)
  fn_In : list GoType;                 (* fn.Type().In(i) *)
  fn_Out : list GoType;                (* fn.Type().Out(i) *)
  fn_body : list string -> option OptionsValue -> CallOutcome
}.

(** The [interface{}] stored in [Cmd.Func]: a function, or anything else
    (the nil interface has [%T] equal to [<nil>]). *)
Inductive FuncField : Type :=
| NotFunc (tyname : string)
| Fn (f : FuncValue).

(** ** Commands (command.go) *)

Record Cmd : Type := mkCmd {
  cmd_Name : string;
  cmd_Help : string;
  cmd_LongHelp : string;
  cmd_Usage : string;
  cmd_Args : list (option Argument);
  cmd_Func : FuncField;
  cmd_Options : option OptionsValue
}.

(** [type Args struct { args []string; cmd *Cmd }] *)
Record Args : Type := mkArgs {
  args : list string;
  cmd : Cmd
}.

Definition newArgs (values : list string) (c : Cmd) : Args :=
  {| args := values; cmd := c |}.

Class GoLib : Type := {
  (** [strconv.Quote], used by the [%q] verb *)
  Quote : string -> string;
  (** [strconv.Atoi]: the value, or the text of the error *)
  Atoi : string -> Z + string;
  (** [unicode.IsUpper] and [unicode.ToLower] *)
  IsUpper : rune -> bool;
  ToLower : rune -> rune;
  (** [flags.Var] and its typed variants panic on some names (a flag
      defined twice, for one); [None] when the flag is accepted *)
  flag_Var : FlagSet -> FlagDef -> option PanicValue;
  (** [flags.Parse(args)] followed by [flags.Args()]: an error, or the
      values it assigns to flags, in order and as [%v] prints them once
      stored, and the tokens left over *)
  flag_Parse : FlagSet -> list string -> ParseResult (list (string * string))
}.

Section Arguments.
Context {L : GoLib}.

(** [for ii, v := range a.cmd.Args { if v.Name == name { return ii, nil } }] *)
Fixpoint argumentPos_loop (l : list (option Argument)) (ii : nat) (name : string)
  : Result (nat * option error) :=
  match l with
  | [] => Ok (0, Some (NewError ("argument " ++ Quote name ++ " not found")))
  | None :: _ => Panic nilDeref
  | Some v :: l' =>
      if String.eqb (arg_Name v) name then Ok (ii, None)
      else argumentPos_loop l' (S ii) name
  end.

Definition argumentPos (a : Args) (name : string) : Result (nat * option error) :=
  argumentPos_loop (cmd_Args (cmd a)) 0 name.

(** The loop of [validate], with its two local variables. *)
Fixpoint validate_loop (l : list (option Argument)) (hasOptional : bool) (req : nat)
  : Result (option error * nat) :=
  match l with
  | [] => Ok (None, req)
  | None :: _ => Panic nilDeref
  | Some v :: l' =>
      if arg_Optional v then validate_loop l' true req
      else if hasOptional then
        Ok (Some (NewError ("required argument " ++ Quote (arg_Name v)
                            ++ " comes after optional arguments")), req)
      else validate_loop l' hasOptional (S req)
  end.

Definition validate (a : Args) : Result (option error) :=
  if DeepEqual (cmd_Args (cmd a)) NoArgs && (0 <? List.length (args a)) then
    Ok (Some ErrUnusedArguments)
  else
    let prov := List.length (args a) in
    rbind (validate_loop (cmd_Args (cmd a)) false 0) (fun '(err, req) =>
      match err with
      | Some e => Ok (Some e)
      | None =>
          if prov <? req then
            Ok (Some (NewError (fmt_d req ++ " arguments required, but only "
                                ++ fmt_d prov ++ " provided")))
          else Ok None
      end).

(** [a.StringAt(pos)] *)
Definition StringAt (a : Args) (pos : nat) : string :=
  if List.length (args a) <=? pos then "" else nth pos (args a) "".

(** [a.String(name)] *)
Definition String_ (a : Args) (name : string) : Result string :=
  rbind (argumentPos a name) (fun '(p, err) =>
    match err with
    | Some e => Panic (PVError e)
    | None => Ok (StringAt a p)
    end).

(** [a.Int(name)] *)
Definition Int (a : Args) (name : string) : Result Z :=
  rbind (String_ a name) (fun s =>
    match Atoi s with
    | inr err =>
        Panic (PVError (NewError ("error parsing int argument " ++ name ++ ": " ++ err)))
    | inl val => Ok val
    end).

End Arguments.

(** ** Exit status and command lookup (command.go) *)

(** [Exit(err)]: the status handed to [os.Exit]. *)
Definition Exit (err : option error) : Z :=
  match err with
  | Some ErrHelp => 2
  | Some ErrNoCommand => 3
  | Some ErrUnusedArguments => 4
  | None => 0
  | Some _ => 1
  end%Z.

Fixpoint commandByName (commands : list Cmd) (name : string) : option Cmd :=
  match commands with
  | [] => None
  | v :: rest =>
      if String.eqb (cmd_Name v) name then Some v else commandByName rest name
  end.

(** [c.hasArgs()] *)
Definition hasArgs (c : Cmd) : bool :=
  (0 <? List.length (cmd_Args c)) && negb (DeepEqual (cmd_Args c) NoArgs).

(** ** UTF-8 (unicode/utf8), as [defaultFieldName] uses it *)

Definition RuneError : rune := 65533%N.

Definition byte_at (s : string) (i : nat) : N :=
  match String.get i s with
  | Some a => N_of_ascii a
  | None => 0%N
  end.

(** The continuation-byte test [lo <= b <= hi]. *)
Definition in_range (lo hi b : N) : bool := (lo <=? b)%N && (b <=? hi)%N.

(** The size and the accepted range of the second byte announced by a
    leading byte of a multi-byte sequence ([first] and [acceptRanges]). *)
Definition lead_info (s0 : N) : option (nat * N * N) :=
  if in_range 194 223 s0 then Some (2, 128%N, 191%N)
  else if (s0 =? 224)%N then Some (3, 160%N, 191%N)
  else if in_range 225 236 s0 then Some (3, 128%N, 191%N)
  else if (s0 =? 237)%N then Some (3, 128%N, 159%N)
  else if in_range 238 239 s0 then Some (3, 128%N, 191%N)
  else if (s0 =? 240)%N then Some (4, 144%N, 191%N)
  else if in_range 241 243 s0 then Some (4, 128%N, 191%N)
  else if (s0 =? 244)%N then Some (4, 128%N, 143%N)
  else None.

(** [utf8.DecodeRuneInString(s)] *)
Definition DecodeRuneInString (s : string) : rune * nat :=
  let n := String.length s in
  if n <? 1 then (RuneError, 0)
  else
    let s0 := byte_at s 0 in
    if (s0 <? 128)%N then (s0, 1)
    else
      match lead_info s0 with
      | None => (RuneError, 1)
      | Some (sz, lo, hi) =>
          if n <? sz then (RuneError, 1)
          else
            let s1 := byte_at s 1 in
            if negb (in_range lo hi s1) then (RuneError, 1)
            else if sz <=? 2 then
              (N.lor (N.shiftl (N.land s0 31) 6) (N.land s1 63), 2)
            else
              let s2 := byte_at s 2 in
              if negb (in_range 128 191 s2) then (RuneError, 1)
              else if sz <=? 3 then
                (N.lor (N.lor (N.shiftl (N.land s0 15) 12) (N.shiftl (N.land s1 63) 6))
                       (N.land s2 63), 3)
              else
                let s3 := byte_at s 3 in
                if negb (in_range 128 191 s3) then (RuneError, 1)
                else
                  (N.lor (N.lor (N.lor (N.shiftl (N.land s0 7) 18)
                                       (N.shiftl (N.land s1 63) 12))
                                (N.shiftl (N.land s2 63) 6))
                         (N.land s3 63), 4)
      end.

Definition byte_string (bs : list N) : string :=
  string_of_list_ascii (map ascii_of_N bs).

(** The UTF-8 encoding of one rune, as the conversion [string(runes)]
    writes it: surrogates and values past U+10FFFF become U+FFFD. *)
Definition encodeRune (r : rune) : string :=
  if (r <? 128)%N then byte_string [r]
  else if (r <? 2048)%N then
    byte_string [N.lor 192 (N.shiftr r 6); N.lor 128 (N.land r 63)]
  else if (in_range 55296 57343 r || (1114111 <? r)%N)%bool then
    byte_string [239; 191; 189]%N
  else if (r <? 65536)%N then
    byte_string [N.lor 224 (N.shiftr r 12); N.lor 128 (N.land (N.shiftr r 6) 63);
                 N.lor 128 (N.land r 63)]
  else
    byte_string [N.lor 240 (N.shiftr r 18); N.lor 128 (N.land (N.shiftr r 12) 63);
                 N.lor 128 (N.land (N.shiftr r 6) 63); N.lor 128 (N.land r 63)].

(** [string(runes)] *)
Fixpoint string_of_runes (runes : list rune) : string :=
  match runes with
  | [] => ""
  | r :: rest => encodeRune r ++ string_of_runes rest
  end.

(** [name[ii:]], for [ii <= len(name)] *)
Fixpoint slice_from (ii : nat) (name : string) : string :=
  match ii, name with
  | 0, _ => name
  | S ii', String _ rest => slice_from ii' rest
  | S _, EmptyString => EmptyString
  end.

(** ** The struct visitor *)

Section Struct.
Context {L : GoLib}.

Definition hyphen : rune := 45%N.

(** The loop of [defaultFieldName]; every iteration consumes at least one
    byte, so [fuel = len(name)] iterations are enough. *)
Fixpoint defaultFieldName_loop (fuel : nat) (name : string) (ii : nat) (runes : list rune)
  : list rune :=
  match fuel with
  | 0 => runes
  | S fuel' =>
      if ii <? String.length name then
        let '(c, s) := DecodeRuneInString (slice_from ii name) in
        let ii := ii + s in
        let '(runes, c) :=
          if IsUpper c then
            ((if 0 <? List.length runes then (runes ++ [hyphen])%list else runes),
             ToLower c)
          else (runes, c) in
        defaultFieldName_loop fuel' name ii (runes ++ [c])%list
      else runes
  end.

Definition defaultFieldName (name : string) : string :=
  string_of_runes (defaultFieldName_loop (String.length name) name 0 []).

(** The name and the help text [visitStruct] computes for a field before
    it calls the visitor. *)
Definition fieldFlagName (field : StructField) : string :=
  let name := defaultFieldName (sf_Name field) in
  if negb (String.eqb (sf_Tag_name field) "") then sf_Tag_name field else name.

Definition fieldFlagHelp (field : StructField) : string :=
  if negb (String.eqb (sf_Tag_help field) "") then sf_Tag_help field else "".

Section Visit.
Variable S' : Type.
(** The visitor is a closure over some state of its caller; it returns
    the new state with its error, or panics. *)
Variable visitor : string -> string -> StructField -> S' -> Result (S' * option error).

Fixpoint visitStruct_fields (typ : string) (fields : list StructField) (st : S')
  : Result (S' * option error) :=
  match fields with
  | [] => Ok (st, None)
  | field :: rest =>
      if negb (sf_exported field) then
        Panic (PVString
          "reflect.Value.Interface: cannot return value obtained from unexported field or method")
      else
        let name := fieldFlagName field in
        let help := fieldFlagHelp field in
        if String.eqb name "" then
          Ok (st, Some (NewError ("no name provided for field " ++ sf_Name field
                                  ++ " in type " ++ typ)))
        else
          rbind (visitor name help field st) (fun '(st', err) =>
            match err with
            | Some e => Ok (st', Some e)
            | None => visitStruct_fields typ rest st'
            end)
  end.

Definition visitStruct (val : OptionsValue) (st : S') : Result (S' * option error) :=
  match val with
  | NonPtr _ => Ok (st, Some errNoPointer)
  | PtrOther _ => Ok (st, Some errNoStruct)
  | PtrStruct typ fields => visitStruct_fields typ fields st
  end.

End Visit.
End Struct.

(** ** The environment of a run *)

(** A frame of the call stack, as [runtime.Callers], [runtime.FuncForPC]
    and [runtime.Caller] describe it. *)
Record Frame : Type := mkFrame {
  fr_pc : N;
  fr_func : option string;     (* FuncForPC(pc).Name(), None when FuncForPC is nil *)
  fr_file : string;
  fr_line : Z
}.

(** What a run reads from the process.  [os.Args] is taken to be
    non-empty.  A run recovers at most one panic; [env_stack] is the call
    stack at that moment, listed as [runtime.Callers(0, ...)] called from
    [getPanic] would: [runtime.Callers] itself first, then [getPanic],
    then [recoverRun], then the frames of the panic. *)
Record Env : Type := mkEnv {
  env_COMMAND_DUMP_HELP : string;     (* os.Getenv(CommandDumpHelpEnvVar) *)
  env_arg0 : string;                  (* filepath.Base(os.Args[0]) *)
  env_os_Args : list string;          (* os.Args[1:] *)
  env_stack : list Frame
}.

(** [Options] of [RunOpts].  The hooks receive the [*Options] they belong
    to (and the command); what they do is a function of the global options
    value after flag parsing.  [opt_Commands] is the [Commands] method of
    the value in [opt_Options] when its type implements [CommandProvider].
    What a hook may store into the options is not modelled. *)
Record Options : Type := mkOptions {
  opt_Options : option OptionsValue;
  opt_Commands : option (OptionsValue -> Result (list Cmd * option error));
  opt_Func : option (Cmd -> option OptionsValue -> CallOutcome);
  opt_BeforeFunc : option (option OptionsValue -> CallOutcome)
}.

(** ** Help records (help.go) *)

Record Flag : Type := mkFlag {
  flag_Name : string;
  flag_Help : string;
  flag_Type : string;
  flag_Default : string
}.

Record CommandHelp : Type := mkCommandHelp {
  ch_Name : string;
  ch_Help : string;
  ch_LongHelp : string;
  ch_Usage : string;
  ch_Flags : list Flag
}.

Record HelpDoc : Type := mkHelpDoc {
  help_Name : string;
  help_Flags : list Flag;
  help_Commands : list CommandHelp
}.

(** ** Output and control: the monad of the dispatcher *)

Inductive Event : Type :=
| Stderr (text : string)               (* fmt.Fprint*(os.Stderr, ...) *)
| StderrTable (rows : list (string * string))   (* the tabwriter listing *)
| StderrDefaults (fs : FlagSet)        (* fs.PrintDefaults() *)
| StdoutJSON (doc : HelpDoc).          (* json.NewEncoder(os.Stdout).Encode(help) *)

(** How a piece of [RunOpts] ends: it falls through to the next
    statement, executes [return err], or panics. *)
Inductive Step (A : Type) : Type :=
| Next (a : A)
| Return (err : option error)
| Panicked (v : PanicValue).
Arguments Next {A} a.
Arguments Return {A} err.
Arguments Panicked {A} v.

Definition M (A : Type) : Type := list Event * Step A.

Definition ret {A} (a : A) : M A := ([], Next a).
Definition write (e : Event) : M unit := ([e], Next tt).
Definition return_ {A} (err : option error) : M A := ([], Return err).
Definition panic {A} (v : PanicValue) : M A := ([], Panicked v).

Definition bind {A B} (m : M A) (k : A -> M B) : M B :=
  let '(out, s) := m in
  match s with
  | Next a => let '(out', s') := k a in ((out ++ out')%list, s')
  | Return err => (out, Return err)
  | Panicked v => (out, Panicked v)
  end.

Notation "x <- m ;; k" := (bind m (fun x => k))
  (at level 61, m at next level, right associativity).
Notation "' pat <- m ;; k" := (bind m (fun x => match x with pat => k end))
  (at level 61, pat pattern, m at next level, right associativity).
Notation "m ;;; k" := (bind m (fun _ => k))
  (at level 61, right associativity).

(** A call that may panic, inside the dispatcher. *)
Definition lift {A} (r : Result A) : M A :=
  match r with
  | Ok a => ret a
  | Panic v => panic v
  end.

(** What [RunOpts] as a whole does: its output, and the error it returns
    or the panic that leaves it. *)
Definition Outcome : Type := list Event * Result (option error).

Section Dispatch.
Context {L : GoLib}.
Variable env : Env.

(** *** Flags from an options struct *)

Definition register (flags : FlagSet) (d : FlagDef) : Result (FlagSet * option error) :=
  match flag_Var flags d with
  | Some v => Panic v
  | None => Ok ({| fs_name := fs_name flags; fs_flags := (fs_flags flags ++ [d])%list |}, None)
  end.

(** The closure given to [visitStruct] by [setupOptionsFlags].  For a
    field of one of the supported kinds the pointer to the field is
    asserted to be a pointer to the predeclared type of that kind
    ([ptr.( *bool)] and so on), which panics for a named type. *)
Definition setupVisitor (name help : string) (field : StructField) (flags : FlagSet)
  : Result (FlagSet * option error) :=
  let def kind := {| fd_name := name; fd_help := help; fd_kind := kind;
                     fd_default := sf_value field |} in
  let typed (kind ty : string) :=
    if GoType_eqb (sf_Type field) (TNamed ty) then register flags (def kind)
    else Panic (PVError (NewError ("interface conversion: interface {} is *"
                                   ++ type_String (sf_Type field) ++ ", not *" ++ ty))) in
  if sf_isFlagValue field then register flags (def "Var")
  else
    match sf_Kind field with
    | KBool => typed "BoolVar" "bool"
    | KFloat64 => typed "Float64Var" "float64"
    | KInt => typed "IntVar" "int"
    | KUint => typed "UintVar" "uint"
    | KInt64 => typed "Int64Var" "int64"
    | KUint64 => typed "Uint64Var" "uint64"
    | KString => typed "StringVar" "string"
    | KOther =>
        Ok (flags, Some (NewError ("field " ++ sf_Name field ++ " has invalid option type "
                                   ++ type_String (sf_Type field))))
    end.

(** Parsing stores the values of the flags into the fields they are
    bound to; the struct is mutated in place and keeps its type. *)
Definition setField (name value : string) (field : StructField) : StructField :=
  if String.eqb (fieldFlagName field) name then
    {| sf_Name := sf_Name field; sf_Tag_name := sf_Tag_name field;
       sf_Tag_help := sf_Tag_help field; sf_Type := sf_Type field;
       sf_Kind := sf_Kind field; sf_exported := sf_exported field;
       sf_isFlagValue := sf_isFlagValue field; sf_value := value |}
  else field.

Definition setFlags (assigned : list (string * string)) (v : OptionsValue) : OptionsValue :=
  match v with
  | PtrStruct typ fields =>
      PtrStruct typ (fold_left (fun fs '(name, value) => map (setField name value) fs)
                               assigned fields)
  | _ => v
  end.

Definition setupOptionsFlags (name : string) (sval : OptionsValue)
  : Result (option FlagSet * option error) :=
  let arg0 := env_arg0 env in
  let flagsName :=
    if negb (String.eqb name "") then arg0 ++ " " ++ name ++ " subcommand" else arg0 in
  let flags := {| fs_name := flagsName; fs_flags := [] |} in
  rbind (visitStruct setupVisitor sval flags) (fun '(flags, err) =>
    match err with
    | Some errNoPointer =>
        if negb (String.eqb name "") then
          Ok (None, Some (NewError ("invalid command " ++ name ++ " options "
                                    ++ type_String (OptionsValue_Type sval)
                                    ++ ", must be a pointer")))
        else
          Ok (None, Some (NewError ("invalid options " ++ type_String (OptionsValue_Type sval)
                                    ++ ", must be a pointer")))
    | Some errNoStruct =>
        if negb (String.eqb name "") then
          Ok (None, Some (NewError ("command " ++ name
                                    ++ " options field is not a struct, it's *reflect.rtype")))
        else
          Ok (None, Some (NewError "options field is not a struct, it's *reflect.rtype"))
    | _ => Ok (Some flags, err)
    end).

(** *** The JSON dump (help.go) *)

Definition flagsVisitor (name help : string) (field : StructField) (flags : list Flag)
  : Result (list Flag * option error) :=
  if sf_isFlagValue field then
    Ok ((flags ++ [{| flag_Name := name; flag_Help := help; flag_Type := "string";
                      flag_Default := sf_value field |}])%list, None)
  else
    match sf_Kind field with
    | KOther =>
        Ok (flags, Some (NewError ("field " ++ sf_Name field ++ " has invalid option type "
                                   ++ type_String (sf_Type field))))
    | _ =>
        Ok ((flags ++ [{| flag_Name := name; flag_Help := help;
                          flag_Type := type_String (sf_Type field);
                          flag_Default := sf_value field |}])%list, None)
    end.

Definition flagsHelp (opts : OptionsValue) : Result (list Flag * option error) :=
  rbind (visitStruct flagsVisitor opts []) (fun '(flags, err) =>
    match err with
    | Some e => Ok ([], Some e)
    | None => Ok (flags, None)
    end).

Definition commandHelp (c : Cmd) : Result (option CommandHelp * option error) :=
  let h flags := {| ch_Name := cmd_Name c; ch_Help := cmd_Help c;
                    ch_LongHelp := cmd_LongHelp c; ch_Usage := cmd_Usage c;
                    ch_Flags := flags |} in
  match cmd_Options c with
  | Some o =>
      rbind (flagsHelp o) (fun '(flags, err) =>
        match err with
        | Some e => Ok (None, Some e)
        | None => Ok (Some (h flags), None)
        end)
  | None => Ok (Some (h []), None)
  end.

Fixpoint dumpHelp_commands (commands : list Cmd) (acc : list CommandHelp)
  : Result (list CommandHelp * option error) :=
  match commands with
  | [] => Ok (acc, None)
  | v :: rest =>
      rbind (commandHelp v) (fun '(c, err) =>
        match err, c with
        | Some e, _ => Ok (acc, Some e)
        | None, Some c => dumpHelp_commands rest (acc ++ [c])%list
        | None, None => dumpHelp_commands rest acc
        end)
  end.

(** [dumpHelp(os.Stdout, opts, commands)]; writing to the standard output
    is taken to succeed. *)
Definition dumpHelp (opts : option Options) (commands : list Cmd) : M (option error) :=
  '(flags, err) <-
    match opts with
    | Some o =>
        match opt_Options o with
        | Some v => lift (flagsHelp v)
        | None => ret ([], None)
        end
    | None => ret ([], None)
    end ;;
  match err with
  | Some e => ret (Some e)
  | None =>
      '(cmds, err) <- lift (dumpHelp_commands commands []) ;;
      match err with
      | Some e => ret (Some e)
      | None =>
          write (StdoutJSON {| help_Name := env_arg0 env; help_Flags := flags;
                               help_Commands := cmds |}) ;;;
          ret None
      end
  end.

(** *** Help output (command.go) *)

Fixpoint printUsageArgs (l : list (option Argument)) : M unit :=
  match l with
  | [] => ret tt
  | None :: _ => panic nilDeref
  | Some v :: rest =>
      write (Stderr (if arg_Optional v then " [" ++ arg_Name v ++ "]"
                     else " " ++ arg_Name v)) ;;;
      printUsageArgs rest
  end.

Fixpoint printArgsHelp (l : list (option Argument)) : M unit :=
  match l with
  | [] => ret tt
  | None :: _ => panic nilDeref
  | Some v :: rest =>
      write (Stderr ("  " ++ arg_Name v ++ ": " ++ arg_Help v ++ nl)) ;;;
      printArgsHelp rest
  end.

Definition when (b : bool) (m : M unit) : M unit := if b then m else ret tt.

Definition printCommandHelp (c : Cmd) : M unit :=
  write (Stderr (cmd_Name c ++ ": " ++ cmd_Help c ++ nl)) ;;;
  when (negb (String.eqb (cmd_Usage c) "") || hasArgs c)
    (write (Stderr ("usage: " ++ env_arg0 env ++ " " ++ cmd_Name c)) ;;;
     when (negb (String.eqb (cmd_Usage c) "")) (write (Stderr (" " ++ cmd_Usage c))) ;;;
     printUsageArgs (cmd_Args c) ;;;
     write (Stderr nl)) ;;;
  when (negb (String.eqb (cmd_LongHelp c) ""))
    (write (Stderr (nl ++ cmd_LongHelp c ++ nl))) ;;;
  match cmd_Options c with
  | Some opts =>
      write (Stderr (nl ++ "Flags:" ++ nl)) ;;;
      '(fs, err) <- lift (setupOptionsFlags (cmd_Name c) opts) ;;
      match err, fs with
      | None, Some fs => write (StderrDefaults fs)
      | None, None => panic nilDeref
      | Some _, _ => ret tt
      end
  | None => ret tt
  end ;;;
  when (hasArgs c)
    (write (Stderr (nl ++ "Arguments:" ++ nl)) ;;;
     printArgsHelp (cmd_Args c)).

Definition isNil {A} (o : option A) : bool :=
  match o with
  | None => true
  | Some _ => false
  end.

(** [printHelp(os.Stderr, args, commands)]: it returns its error to
    [RunOpts], which returns it in turn. *)
Definition printHelp (args : list string) (commands : list Cmd) : M (option error) :=
  let listing (err : option error) : M (option error) :=
    write (StderrTable (map (fun v => (cmd_Name v, cmd_Help v)) commands
                        ++ [("help", "Print this help")])%list) ;;;
    write (Stderr (nl ++ "To view additional help for each command use help <command_name>"
                   ++ nl)) ;;;
    ret (match err with
         | None => Some ErrHelp
         | Some e => Some e
         end) in
  match args with
  | [] =>
      write (Stderr ("missing command, available ones are:" ++ nl ++ nl)) ;;;
      listing (Some ErrNoCommand)
  | a0 :: rest =>
      let unknown :=
        if negb (String.eqb a0 "help") && isNil (commandByName commands a0)
        then a0 else "" in
      let tail (unknown : string) : M (option error) :=
        if negb (String.eqb unknown "") then
          write (Stderr ("unknown command " ++ unknown ++ ", available ones are:"
                         ++ nl ++ nl)) ;;;
          listing (Some (UnknownCommandError unknown))
        else listing None in
      match rest with
      | a1 :: _ =>
          if String.eqb a0 "help" then
            match commandByName commands a1 with
            | Some c => printCommandHelp c ;;; ret (Some ErrHelp)
            | None => tail a1
            end
          else tail unknown
      | [] => tail unknown
      end
  end.

(** *** Handler signature checks (command.go) *)

Definition validateCmdFuncInput (fn : FuncValue) (optsVal : option OptionsValue)
  : option error :=
  let numIn := List.length (fn_In fn) in
  if (numIn <? 1) || negb (GoType_eqb (nth 0 (fn_In fn) argsType) argsType) then
    Some (NewError ("function " ++ fn_name fn ++ " must accept " ++ type_String argsType
                    ++ " as its first argument"))
  else
    match optsVal with
    | Some v =>
        if (numIn <? 2)
           || negb (GoType_eqb (nth 1 (fn_In fn) (OptionsValue_Type v)) (OptionsValue_Type v))
        then
          Some (NewError ("function " ++ fn_name fn ++ " must accept "
                          ++ type_String (OptionsValue_Type v) ++ " as its second argument"))
        else None
    | None => None
    end.

Definition validateCmdFuncReturn (val : FuncValue) : option error :=
  let numOut := List.length (fn_Out val) in
  if numOut =? 0 then None
  else if 1 <? numOut then
    Some (NewError ("function " ++ fn_name val ++ " must return 0 or 1 arguments, not "
                    ++ fmt_d numOut))
  else if negb (GoType_eqb (nth 0 (fn_Out val) errType) errType) then
    Some (NewError ("function " ++ fn_name val ++ " must return a value of type "
                    ++ type_String errType ++ ", not "
                    ++ type_String (nth 0 (fn_Out val) errType)))
  else None.

(** *** Panic recovery *)

Definition isPanicFrame (name : string) : bool :=
  String.prefix "runtime." name
  && (match index 0 "panic" name with
      | Some _ => true
      | None => false
      end).

(** The inner loop of [getPanic]: [for ii := c - 1; ii >= 0; ii--], where
    [n] is [ii + 1]. *)
Fixpoint getPanic_scan (calls : list Frame) (skip : nat) (n : nat)
  : option (Z * Z * N * bool) :=
  match n with
  | 0 => None
  | S ii =>
      let found :=
        match nth_error calls ii with
        | Some f =>
            match fr_func f with
            | Some name =>
                if isPanicFrame name then
                  let pcSkip := (Z.of_nat skip + Z.of_nat ii - 1)%Z in
                  let stackSkip :=
                    if String.eqb name "runtime.panic" then pcSkip
                    else if String.eqb name "runtime.sigpanic" then (pcSkip - 2)%Z
                    else (pcSkip - 1)%Z in
                  Some (pcSkip, stackSkip, fr_pc f, true)
                else None
            | None => None
            end
        | None => None
        end in
      match found with
      | Some r => Some r
      | None => getPanic_scan calls skip ii
      end
  end.

(** The outer loop of [getPanic]; [runtime.Callers(skip, callers)] fills
    the ten slots of [callers] with the frames from [skip] on. *)
Fixpoint getPanic_loop (fuel : nat) (skip : nat) : Z * Z * N * bool :=
  match fuel with
  | 0 => (0, 0, 0%N, false)%Z
  | S fuel' =>
      let calls := firstn 10 (skipn skip (env_stack env)) in
      let c := List.length calls in
      if c =? 0 then (0, 0, 0%N, false)%Z
      else
        match getPanic_scan calls skip c with
        | Some r => r
        | None => getPanic_loop fuel' (skip + c)
        end
  end.

(** Every round with [c > 0] moves [skip] forward, so the loop ends
    within [len(stack) + 1] rounds. *)
Definition getPanic : Z * Z * N * bool :=
  getPanic_loop (S (List.length (env_stack env))) 0.

(** [runtime.Caller(skip)] called from [recoverRun], which is the third
    frame of [env_stack]. *)
Definition Caller (skip : Z) : N * string * Z * bool :=
  if (skip + 2 <? 0)%Z then (0%N, "", 0%Z, false)
  else
    match nth_error (env_stack env) (Z.to_nat (skip + 2)) with
    | Some f => (fr_pc f, fr_file f, fr_line f, true)
    | None => (0%N, "", 0%Z, false)
    end.

(** [recoverRun(cmd, &err)], run as [RunOpts] is left: [r] is what
    [recover()] returns and [err] the current value of the result of
    [RunOpts].  It yields the new value of that result and what it
    prints. *)
Definition recoverRun (c : Cmd) (r : option PanicValue) (err : option error)
  : option error * list Event :=
  match r with
  | Some r =>
      let '(skip, _, _, ok) := getPanic in
      let '(_, file, line, ok) :=
        if ok then Caller skip else (0%N, "", 0%Z, ok) in
      let err :=
        if ok then
          NewError ("panic running command " ++ cmd_Name c ++ " at " ++ file ++ ":"
                    ++ fmt_dZ line ++ ": " ++ fmt_v r)
        else
          NewError ("panic running command " ++ cmd_Name c ++ ": " ++ fmt_v r) in
      (Some err, [Stderr (Error err ++ nl)])
  | None => (err, [])
  end.

(** *** The dispatcher (command.go) *)

(** [opts.additionalCommands()] *)
Definition additionalCommands (opts : option Options) (gopts : option OptionsValue)
  : M (list Cmd) :=
  match opts with
  | Some o =>
      match gopts, opt_Commands o with
      | Some v, Some provider =>
          '(cmds, err) <- lift (provider v) ;;
          match err with
          | Some e =>
              panic (PVError (NewError ("error obtaining additional commands: " ++ Error e)))
          | None => ret cmds
          end
      | _, _ => ret []
      end
  | None => ret []
  end.

(** [parseGlobalOptions(args, opts)]; besides the two results of the Go
    function it yields the global options value after the assignments of
    the parsed flags, which the Go code mutates in place. *)
Definition parseGlobalOptions (args : list string) (opts : option Options)
  : M (list string * option error * option OptionsValue) :=
  match opts with
  | Some o =>
      match opt_Options o with
      | Some v =>
          '(flags, err) <- lift (setupOptionsFlags "" v) ;;
          match err, flags with
          | Some e, _ => panic (PVError e)
          | None, None => panic nilDeref
          | None, Some flags =>
              match flag_Parse flags args with
              | ParseError e => ret ([], Some e, Some v)
              | Parsed assigned rest => ret (rest, None, Some (setFlags assigned v))
              end
          end
      | None => ret (args, None, None)
      end
  | None => ret (args, None, None)
  end.

(** A hook of [Options] or a handler, called from the dispatcher: the
    error it returns, or its panic. *)
Definition perform (o : CallOutcome) : M (option error) :=
  match o with
  | Returns err => ret err
  | Panics v => panic v
  end.

(** [fn.Call(fnArgs)]: [reflect] panics unless the function takes as many
    parameters as it is given (variadic handlers are not modelled); the
    types of the values given have been checked by [validateCmdFuncInput]. *)
Definition Call (fn : FuncValue) (nargs : nat) (cmdArgs : list string)
  (optsVal : option OptionsValue) : CallOutcome :=
  if List.length (fn_In fn) =? nargs then fn_body fn cmdArgs optsVal
  else Panics (PVString "reflect: Call with too few input arguments").

(** The validation of the arguments in [RunOpts]:
    [if err := cmdArguments.validate(); err != nil { ...; return err }]. *)
Definition RunOpts_validate (name : string) (cmdArguments : Args) : M unit :=
  err <- lift (validate cmdArguments) ;;
  match err with
  | Some e =>
      match e with
      | ErrUnusedArguments =>
          write (Stderr ("command " ++ name ++ " does not accept any arguments" ++ nl))
      | _ => ret tt
      end ;;;
      return_ (Some e)
  | None => ret tt
  end.

(** For a command resolved by name, what [RunOpts] does once
    [recoverRun] has been deferred, up to and including the validation of
    the arguments; it yields the values the handler is called with. *)
Definition RunOpts_prepare (opts : option Options) (gopts : option OptionsValue)
  (name : string) (cmdArgs : list string) (c : Cmd)
  : M (FuncValue * Args * option OptionsValue) :=
  fn <- match cmd_Func c with
        | NotFunc ty =>
            panic (PVError (NewError ("command handler " ++ name
                                      ++ " is not a function, it's " ++ ty)))
        | Fn fn => ret fn
        end ;;
  match validateCmdFuncReturn fn with
  | Some err =>
      panic (PVError (NewError ("invalid handler for command " ++ name ++ ": " ++ Error err)))
  | None => ret tt
  end ;;;
  '(cmdArgs, optsVal) <-
    match cmd_Options c with
    | Some v =>
        '(flags, err) <- lift (setupOptionsFlags name v) ;;
        match err, flags with
        | Some e, _ => panic (PVError e)
        | None, None => panic nilDeref
        | None, Some flags =>
            match flag_Parse flags cmdArgs with
            | ParseError e => return_ (Some e)
            | Parsed assigned rest => ret (rest, Some (setFlags assigned v))
            end
        end
    | None => ret (cmdArgs, None)
    end ;;
  let cmdArguments := newArgs cmdArgs c in
  match validateCmdFuncInput fn optsVal with
  | Some err =>
      panic (PVError (NewError ("invalid handler for command " ++ name ++ ": " ++ Error err)))
  | None => ret tt
  end ;;;
  match opts with
  | Some o =>
      match opt_Func o with
      | Some f =>
          err <- perform (f c gopts) ;;
          match err with
          | Some e => return_ (Some e)
          | None => ret tt
          end
      | None => ret tt
      end
  | None => ret tt
  end ;;;
  RunOpts_validate name cmdArguments ;;;
  ret (fn, cmdArguments, optsVal).

(** [len(fnArgs)]: the [*Args], and the options value when there is one. *)
Definition numFnArgs (optsVal : option OptionsValue) : nat :=
  match optsVal with
  | Some _ => 2
  | None => 1
  end.

(** The call of the handler and what [RunOpts] makes of its result. *)
Definition RunOpts_invoke (name : string) (fn : FuncValue) (cmdArguments : Args)
  (optsVal : option OptionsValue) : M Empty_set :=
  res <- perform (Call fn (numFnArgs optsVal) (args cmdArguments) optsVal) ;;
  if 0 <? List.length (fn_Out fn) then
    match res with
    | Some err =>
        write (Stderr ("error running command " ++ name ++ ": " ++ Error err ++ nl)) ;;;
        return_ (Some err)
    | None => return_ None
    end
  else return_ None.

(** [defer recoverRun(cmd, &err)] around the rest of [RunOpts]: when the
    rest panics, [recover()] yields the panic value, the result [err]
    still holds nil, and [RunOpts] returns what [recoverRun] stores. *)
Definition deferred (c : Cmd) (m : M Empty_set) : M Empty_set :=
  let '(out, s) := m in
  match s with
  | Next a => match a with end
  | Return err =>
      let '(err', out') := recoverRun c None err in
      ((out ++ out')%list, Return err')
  | Panicked v =>
      let '(err', out') := recoverRun c (Some v) None in
      ((out ++ out')%list, Return err')
  end.

Definition finish (m : M Empty_set) : Outcome :=
  let '(out, s) := m in
  match s with
  | Next a => match a with end
  | Return err => (out, Ok err)
  | Panicked v => (out, Panic v)
  end.

(** [RunOpts] up to the point where [recoverRun] is deferred: the JSON
    dump, the global flags, [BeforeFunc], the help and the lookup of the
    command.  It yields the name, the tokens after it, the command and the
    global options value. *)
Definition RunOpts_resolve (args : option (list string)) (opts : option Options)
  (commands : list Cmd) : M (string * list string * Cmd * option OptionsValue) :=
  if negb (String.eqb (env_COMMAND_DUMP_HELP env) "") then
    err <- dumpHelp opts commands ;;
    match err with
    | Some e => panic (PVError e)
    | None => return_ None
    end
  else
    let args := match args with
                | None => env_os_Args env
                | Some a => a
                end in
    '(rem, err, gopts) <- parseGlobalOptions args opts ;;
    match err with
    | Some e => return_ (Some e)
    | None =>
        match opts with
        | Some o =>
            match opt_BeforeFunc o with
            | Some f =>
                err <- perform (f gopts) ;;
                match err with
                | Some e => return_ (Some e)
                | None => ret tt
                end
            | None => ret tt
            end
        | None => ret tt
        end ;;;
        more <- additionalCommands opts gopts ;;
        let commands := (commands ++ more)%list in
        match rem with
        | [] => err <- printHelp rem commands ;; return_ err
        | name :: cmdArgs =>
            if String.eqb name "help" then
              err <- printHelp rem commands ;; return_ err
            else
              match commandByName commands name with
              | None => err <- printHelp args commands ;; return_ err
              | Some c => ret (name, cmdArgs, c, gopts)
              end
        end
    end.

(** [RunOpts(args, opts, commands)]; a nil [args] is [None], a nil [opts]
    is [None]. *)
Definition RunOpts (args : option (list string)) (opts : option Options)
  (commands : list Cmd) : Outcome :=
  finish (
    '(name, cmdArgs, c, gopts) <- RunOpts_resolve args opts commands ;;
    deferred c (
      '(fn, cmdArguments, optsVal) <- RunOpts_prepare opts gopts name cmdArgs c ;;
      RunOpts_invoke name fn cmdArguments optsVal)).

End Dispatch.

(** ** A small standard library for the examples

    ASCII letter case, quoting of strings without special characters,
    decimal integers, and a simple flag parser. *)

Definition asciiIsUpper (c : rune) : bool := in_range 65 90 c.

Definition asciiToLower (c : rune) : rune :=
  if in_range 65 90 c then (c + 32)%N else c.

Definition dquote : string := String (ascii_of_nat 34) "".

Definition plainQuote (s : string) : string := dquote ++ s ++ dquote.

Fixpoint digits (s : string) (acc : Z) : option Z :=
  match s with
  | EmptyString => Some acc
  | String c rest =>
      let n := N_of_ascii c in
      if in_range 48 57 n then digits rest (acc * 10 + Z.of_N n - 48)%Z else None
  end.

Definition decimalAtoi (s : string) : Z + string :=
  let syntax := inr ("strconv.Atoi: parsing " ++ plainQuote s ++ ": invalid syntax") in
  let range := inr ("strconv.Atoi: parsing " ++ plainQuote s ++ ": value out of range") in
  let unsigned (neg : bool) (t : string) :=
    match t with
    | EmptyString => syntax
    | _ =>
        match digits t 0 with
        | None => syntax
        | Some z =>
            let v := if neg then (- z)%Z else z in
            if ((- 2 ^ 63 <=? v) && (v <? 2 ^ 63))%Z then inl v else range
        end
    end in
  match s with
  | String "+" t => unsigned false t
  | String "-" t => unsigned true t
  | _ => unsigned false s
  end.

(** The name of the flag a token stands for: the token without its one
    or two leading hyphens; [None] for a token that is not a flag. *)
Definition flagToken (t : string) : option string :=
  match t with
  | String "-" (String "-" name) => Some name
  | String "-" EmptyString => None
  | String "-" name => Some name
  | _ => None
  end.

(** A parser in the manner of the flag package, without the [-name=value]
    form and without any check of the values: boolean flags stand alone,
    the others take the next token; parsing stops at the first token that
    is not a flag, or after [--]. *)
Fixpoint parseFlags (defs : list FlagDef) (tokens : list string)
  (assigned : list (string * string)) : ParseResult (list (string * string)) :=
  match tokens with
  | [] => Parsed assigned []
  | t :: rest =>
      match flagToken t with
      | None => Parsed assigned tokens
      | Some EmptyString => Parsed assigned rest
      | Some name =>
          match find (fun d => String.eqb (fd_name d) name) defs with
          | None => ParseError (NewError ("flag provided but not defined: -" ++ name))
          | Some d =>
              if String.eqb (fd_kind d) "BoolVar" then
                parseFlags defs rest (assigned ++ [(name, "true")])%list
              else
                match rest with
                | value :: rest' => parseFlags defs rest' (assigned ++ [(name, value)])%list
                | [] => ParseError (NewError ("flag needs an argument: -" ++ name))
                end
          end
      end
  end.

(** A flag may not be defined twice. *)
Definition redefined (flags : FlagSet) (d : FlagDef) : option PanicValue :=
  if existsb (fun d' => String.eqb (fd_name d') (fd_name d)) (fs_flags flags)
  then Some (PVString ("flag redefined: " ++ fd_name d))
  else None.

Definition exampleLib : GoLib := {|
  Quote := plainQuote;
  Atoi := decimalAtoi;
  IsUpper := asciiIsUpper;
  ToLower := asciiToLower;
  flag_Var := redefined;
  flag_Parse := fun flags tokens => parseFlags (fs_flags flags) tokens []
|}.

(** ** Vocabulary of the specification *)

Definition isRequired (a : Argument) : bool := negb (arg_Optional a).

(** The number of required (non-optional) arguments of a sequence. *)
Definition required (l : list Argument) : nat := List.length (filter isRequired l).

(** A required argument stands after an optional one. *)
Definition requiredAfterOptional (l : list Argument) : Prop :=
  exists i j a b, i < j /\ nth_error l i = Some a /\ nth_error l j = Some b
                  /\ arg_Optional a = true /\ arg_Optional b = false.

(** The decision procedure for the absence of [requiredAfterOptional]:
    from the first optional argument on, all are optional. *)
Fixpoint wellFormed (l : list Argument) : bool :=
  match l with
  | [] => true
  | a :: rest => if arg_Optional a then forallb arg_Optional rest else wellFormed rest
  end.

(** The first required argument that stands after an optional one. *)
Fixpoint firstRequiredAfterOptional (l : list Argument) : option Argument :=
  match l with
  | [] => None
  | a :: rest =>
      if arg_Optional a then find isRequired rest else firstRequiredAfterOptional rest
  end.

(** [p] is the position at which [name] is declared in [l]: the first
    argument of that name. *)
Definition declaredAt (l : list Argument) (name : string) (p : nat) : Prop :=
  (exists a, nth_error l p = Some a /\ arg_Name a = name)
  /\ forall q b, q < p -> nth_error l q = Some b -> arg_Name b <> name.

(** [s] occurs in [t]. *)
Definition contains (t s : string) : Prop := exists pre post, t = pre ++ s ++ post.

(** A Unicode scalar value: a code point that is not a surrogate. *)
Definition validRune (r : rune) : bool :=
  ((r <? 55296) || ((57344 <=? r) && (r <=? 1114111)))%N.

Section Vocabulary.
Context {L : GoLib}.

(** The error of [validate] for a required argument after an optional one. *)
Definition errAfterOptional (b : Argument) : error :=
  NewError ("required argument " ++ Quote (arg_Name b) ++ " comes after optional arguments").

(** The error of [validate] for too few tokens. *)
Definition errInsufficient (req prov : nat) : error :=
  NewError (fmt_d req ++ " arguments required, but only " ++ fmt_d prov ++ " provided").


(** The runes of a string, decoded one after the other until the string
    is used up; [fuel] bounds the number of runes. *)
Fixpoint runes_of_fuel (fuel : nat) (s : string) : list rune :=
  match fuel with
  | 0 => []
  | S fuel' =>
      match s with
      | EmptyString => []
      | String _ _ =>
          let '(c, size) := DecodeRuneInString s in
          c :: runes_of_fuel fuel' (slice_from size s)
      end
  end.

Definition runes_of (s : string) : list rune := runes_of_fuel (String.length s) s.

(** An uppercase rune is lowercased and preceded by a hyphen unless it is
    the first rune; any other rune is kept. *)
Definition hyphenateRune (first : bool) (c : rune) : list rune :=
  if IsUpper c then ((if first then [] else [hyphen]) ++ [ToLower c])%list else [c].

Fixpoint hyphenate_at (i : nat) (rs : list rune) : list rune :=
  match rs with
  | [] => []
  | c :: rest => (hyphenateRune (i =? 0) c ++ hyphenate_at (S i) rest)%list
  end.

Definition hyphenate (rs : list rune) : list rune := hyphenate_at 0 rs.

(** The flag name the specification derives from a field identifier. *)
Definition derivedName (name : string) : string :=
  string_of_runes (hyphenate (runes_of name)).

(** The flag name of a field by the specification: its name tag when
    that is not empty, the derived name otherwise. *)
Definition specFlagName (field : StructField) : string :=
  if String.eqb (sf_Tag_name field) "" then derivedName (sf_Name field)
  else sf_Tag_name field.

(** A visitor that records the names it is given. *)
Definition collectNames (name help : string) (field : StructField) (seen : list string)
  : Result (list string * option error) :=
  Ok ((seen ++ [name])%list, None).

(** The frame belongs to one of the panic functions of the runtime. *)
Definition isPanicFunc (f : Frame) : bool :=
  match fr_func f with
  | Some name => isPanicFrame name
  | None => false
  end.

(** The source location the recovery determines for a panic: the file
    and line [runtime.Caller] reports for the frame [getPanic] points at. *)
Definition panicLocation (env : Env) : option (string * Z) :=
  let '(skip, _, _, ok) := getPanic env in
  if ok then
    let '(_, file, line, ok) := Caller env skip in
    if ok then Some (file, line) else None
  else None.

(** The message of the error a recovered panic is turned into. *)
Definition panicMessage (env : Env) (c : Cmd) (r : PanicValue) : string :=
  match panicLocation env with
  | Some (file, line) =>
      "panic running command " ++ cmd_Name c ++ " at " ++ file ++ ":" ++ fmt_dZ line
      ++ ": " ++ fmt_v r
  | None => "panic running command " ++ cmd_Name c ++ ": " ++ fmt_v r
  end.

(** The panic value [RunOpts] raises for a handler whose signature check
    fails with [err]. *)
Definition invalidHandler (name : string) (err : error) : PanicValue :=
  PVError (NewError ("invalid handler for command " ++ name ++ ": " ++ Error err)).

End Vocabulary.

(** ** Inputs for the examples *)

Definition frame (name file : string) (line : Z) : Frame :=
  {| fr_pc := 0; fr_func := Some name; fr_file := file; fr_line := line |}.

(** A run whose panic, if any, is raised by [panicker] at [file:line]. *)
Definition exampleEnv (panicker file : string) (line : Z) : Env :=
  {| env_COMMAND_DUMP_HELP := "";
     env_arg0 := "prog";
     env_os_Args := [];
     env_stack := [frame "runtime.Callers" "runtime/extern.go" 331;
                   frame "command.getPanic" "recover.go" 39;
                   frame "command.recoverRun" "recover.go" 14;
                   frame "runtime.gopanic" "runtime/panic.go" 770;
                   frame panicker file line;
                   frame "main.main" "main.go" 12]%Z |}.

(** The same run when the runtime tells nothing about its frames. *)
Definition blindEnv : Env :=
  {| env_COMMAND_DUMP_HELP := ""; env_arg0 := "prog"; env_os_Args := [];
     env_stack := [] |}.

Definition handler (name : string) (ins outs : list GoType)
  (body : list string -> option OptionsValue -> CallOutcome) : FuncField :=
  Fn {| fn_name := name; fn_In := ins; fn_Out := outs; fn_body := body |}.

Definition command (name : string) (arguments : list (option Argument))
  (fn : FuncField) (options : option OptionsValue) : Cmd :=
  {| cmd_Name := name; cmd_Help := ""; cmd_LongHelp := ""; cmd_Usage := "";
     cmd_Args := arguments; cmd_Func := fn; cmd_Options := options |}.

Definition succeed : list string -> option OptionsValue -> CallOutcome :=
  fun _ _ => Returns None.

Definition goodHandler : FuncField := handler "main.run" [argsType] [errType] succeed.

(** Handlers that break the contract: no [*Args] parameter, a second
    parameter of another type than the options, a result that is not an
    error. *)
Definition noArgsParam : FuncField := handler "main.run" [] [errType] succeed.
Definition wrongOptions : FuncField :=
  handler "main.run" [argsType; TPtr (TNamed "main.Other")] [errType] succeed.
Definition wrongResult : FuncField := handler "main.run" [argsType] [TNamed "int"] succeed.

Definition loudOptions : OptionsValue :=
  PtrStruct "main.Options"
    [{| sf_Name := "Loud"; sf_Tag_name := ""; sf_Tag_help := "speak up";
        sf_Type := TNamed "bool"; sf_Kind := KBool; sf_exported := true;
        sf_isFlagValue := false; sf_value := "false" |}].

Definition argument (name : string) (optional : bool) : Argument :=
  {| arg_Name := name; arg_Help := ""; arg_Optional := optional |}.

(** A handler that panics with a string. *)
Definition boom : FuncField :=
  handler "main.boom" [argsType] [] (fun _ _ => Panics (PVString "boom")).


(** A command whose arguments are not well formed: a required one after
    an optional one. *)
Definition optionalFirst : Cmd :=
  command "greet" [Some (argument "title" true); Some (argument "name" false)]
          goodHandler None.

(** What [validate] says about it. *)
Definition optionalFirstError : error :=
  NewError ("required argument " ++ plainQuote "name" ++ " comes after optional arguments").

(** The command of the end-to-end example: one required argument and a
    boolean option. *)
Definition greetCmd : Cmd :=
  command "greet" [Some (argument "name" false)]
          (handler "main.greet" [argsType; TPtr (TNamed "main.Options")] [errType] succeed)
          (Some loudOptions).

(** A command that takes no arguments. *)
Definition noArguments : Cmd := command "status" NoArgs goodHandler None.

(** A command whose handler panics, and the run in which it does. *)
Definition boomCmd : Cmd := command "boom" [] boom None.
Definition boomEnv : Env := exampleEnv "main.boom" "main.go" 7.

(** A run in which [RunOpts] itself panics at line 257 of command.go,
    where it rejects the parameters of a handler. *)
Definition rejectEnv : Env := exampleEnv "command.RunOpts" "command.go" 257.

(** ** Further definitions *)

(** [Run(commands)] is [RunOpts(nil, nil, commands)]. *)
Definition Run {L : GoLib} (env : Env) (commands : list Cmd) : Outcome :=
  RunOpts env None None commands.

(** The entry of the JSON dump for a command without options. *)
Definition plainCommandHelp (c : Cmd) : CommandHelp :=
  {| ch_Name := cmd_Name c; ch_Help := cmd_Help c; ch_LongHelp := cmd_LongHelp c;
     ch_Usage := cmd_Usage c; ch_Flags := [] |}.

Section BindingVocabulary.
Context {L : GoLib}.

(** The function of the flag package that binds a field of a kind, and
    the predeclared type the field must have. *)
Definition kindBinding (k : Kind) : option (string * string) :=
  match k with
  | KBool => Some ("BoolVar", "bool")
  | KFloat64 => Some ("Float64Var", "float64")
  | KInt => Some ("IntVar", "int")
  | KUint => Some ("UintVar", "uint")
  | KInt64 => Some ("Int64Var", "int64")
  | KUint64 => Some ("Uint64Var", "uint64")
  | KString => Some ("StringVar", "string")
  | KOther => None
  end.

(** A field [setupOptionsFlags] can bind: exported, with a flag name, and
    either a [flag.Value] or of a supported kind and predeclared type. *)
Definition bindable (f : StructField) : bool :=
  sf_exported f
  && negb (String.eqb (fieldFlagName f) "")
  && (sf_isFlagValue f
      || match kindBinding (sf_Kind f) with
         | Some (_, ty) => GoType_eqb (sf_Type f) (TNamed ty)
         | None => false
         end).

(** The flag a bindable field is bound to. *)
Definition flagDefOf (f : StructField) : FlagDef :=
  {| fd_name := fieldFlagName f;
     fd_help := fieldFlagHelp f;
     fd_kind := if sf_isFlagValue f then "Var"
                else match kindBinding (sf_Kind f) with
                     | Some (fn, _) => fn
                     | None => ""
                     end;
     fd_default := sf_value f |}.

(** The name [setupOptionsFlags] gives to the flag set. *)
Definition flagSetName (env : Env) (name : string) : string :=
  if String.eqb name "" then env_arg0 env
  else env_arg0 env ++ " " ++ name ++ " subcommand".

(** The flag package accepts the definition of the flags of [fields],
    one after the other. *)
Definition flagsAccepted (setName : string) (fields : list StructField) : Prop :=
  forall pre f post,
    fields = (pre ++ f :: post)%list ->
    flag_Var {| fs_name := setName; fs_flags := map flagDefOf pre |} (flagDefOf f) = None.

(** Name, help and default of a flag, as bound and as dumped. *)
Definition flagDefTriple (d : FlagDef) : string * string * string :=
  (fd_name d, fd_help d, fd_default d).

Definition flagTriple (f : Flag) : string * string * string :=
  (flag_Name f, flag_Help f, flag_Default f).

End BindingVocabulary.

(** What [getPanic] returns for the panic frame at index [i] of the
    stack, whose function is [name] and whose program counter is [pc]. *)
Definition panicResult (i : nat) (name : string) (pc : N) : Z * Z * N * bool :=
  let pcSkip := (Z.of_nat i - 1)%Z in
  (pcSkip,
   if String.eqb name "runtime.panic" then pcSkip
   else if String.eqb name "runtime.sigpanic" then (pcSkip - 2)%Z
   else (pcSkip - 1)%Z,
   pc, true).

(** The frame at index [i] is the last frame of a panic function of the
    runtime in its block of ten frames, and no earlier block holds one. *)
Definition lastPanicOfFirstBlock (stack : list Frame) (i : nat) : Prop :=
  exists k,
    10 * k <= i < 10 * k + 10
    /\ forall j f, j < 10 * k + 10 -> nth_error stack j = Some f ->
                   isPanicFunc f = true -> 10 * k <= j <= i.

(** The lines [printCommandHelp] prints for a command without options
    whose arguments are [l]. *)
Definition usageToken (v : Argument) : Event :=
  Stderr (if arg_Optional v then " [" ++ arg_Name v ++ "]" else " " ++ arg_Name v).

Definition argumentLine (v : Argument) : Event :=
  Stderr ("  " ++ arg_Name v ++ ": " ++ arg_Help v ++ nl).

Definition commandHelpText (env : Env) (c : Cmd) (l : list Argument) : list Event :=
  let nonEmpty (s : string) := negb (String.eqb s "") in
  let hasArguments := match l with [] => false | _ :: _ => true end in
  ([Stderr (cmd_Name c ++ ": " ++ cmd_Help c ++ nl)]
   ++ (if nonEmpty (cmd_Usage c) || hasArguments then
         [Stderr ("usage: " ++ env_arg0 env ++ " " ++ cmd_Name c)]
         ++ (if nonEmpty (cmd_Usage c) then [Stderr (" " ++ cmd_Usage c)] else [])
         ++ map usageToken l ++ [Stderr nl]
       else [])
   ++ (if nonEmpty (cmd_LongHelp c) then [Stderr (nl ++ cmd_LongHelp c ++ nl)] else [])
   ++ (if hasArguments then Stderr (nl ++ "Arguments:" ++ nl) :: map argumentLine l
       else []))%list.

(** ** The documentation tool (cmd/command-tool/main.go) *)

(** The characters [markdownEscape] escapes. *)
Definition needsEscape (c : rune) : bool :=
  existsb (N.eqb c)
    [92; 96; 42; 95; 123; 125; 91; 93; 40; 41; 35; 43; 45; 46; 33; 60; 62]%N.

Definition backslash : string := String (ascii_of_nat 92) "".

(** [s[lo:hi]], for [lo <= hi <= len(s)] *)
Definition slice (s : string) (lo hi : nat) : string := substring lo (hi - lo) s.

(** The state of the indentation after the rune [c]: the number of
    leading spaces of the line and whether anything else has been seen on
    it. *)
Definition indentation (whitespace : nat) (nonWhitespace : bool) (c : rune)
  : nat * bool :=
  if (c =? 32)%N && negb nonWhitespace then (S whitespace, nonWhitespace)
  else if (c =? 10)%N then (0, false)
  else (whitespace, true).

(** The loop of [markdownEscape]; every iteration consumes at least one
    byte, so [fuel = len(s)] iterations are enough.  It yields [start] and
    the buffer. *)
Fixpoint markdownEscape_loop (fuel : nat) (s : string) (ii start whitespace : nat)
  (nonWhitespace : bool) (buf : string) : nat * string :=
  match fuel with
  | 0 => (start, buf)
  | S fuel' =>
      if ii <? String.length s then
        let '(c, size) := DecodeRuneInString (slice_from ii s) in
        let '(whitespace, nonWhitespace) := indentation whitespace nonWhitespace c in
        let '(start, buf) :=
          if (whitespace <? 4) && needsEscape c
          then (ii + size, buf ++ slice s start ii ++ backslash ++ encodeRune c)
          else (start, buf) in
        markdownEscape_loop fuel' s (ii + size) start whitespace nonWhitespace buf
      else (start, buf)
  end.

Definition markdownEscape (s : string) : string :=
  let '(start, buf) := markdownEscape_loop (String.length s) s 0 0 0 false "" in
  if start =? 0 then s else buf ++ slice s start (String.length s).

(** [strings.Repeat(s, count)] *)
Fixpoint Repeat (s : string) (count : nat) : string :=
  match count with
  | 0 => ""
  | S n => s ++ Repeat s n
  end.

(** [strings.Replace(s, old, new, -1)] for an [old] of one byte *)
Fixpoint Replace (s : string) (old : ascii) (new : string) : string :=
  match s with
  | EmptyString => ""
  | String a rest =>
      (if Ascii.eqb a old then new else String a "") ++ Replace rest old new
  end.

Definition newline : ascii := ascii_of_nat 10.

Definition mardownEscapeMultiline (s : string) (spaces : Z) : string :=
  let escaped := markdownEscape s in
  if (0 <? spaces)%Z then
    let pad := Repeat " " (Z.to_nat spaces) in
    let repl := nl ++ pad in
    pad ++ Replace escaped newline repl
  else escaped.

(** Escaping byte by byte: a byte that needs it is preceded by a
    backslash unless its line starts with four or more spaces. *)
Fixpoint escapeBytes (whitespace : nat) (nonWhitespace : bool) (s : string) : string :=
  match s with
  | EmptyString => ""
  | String a rest =>
      let '(w, nw) := indentation whitespace nonWhitespace (N_of_ascii a) in
      (if (w <? 4) && needsEscape (N_of_ascii a) then backslash ++ String a ""
       else String a "")
      ++ escapeBytes w nw rest
  end.

(** The lines of a text: what stands between its newlines. *)
Fixpoint splitLines (s : string) : list string :=
  match s with
  | EmptyString => [""]
  | String a rest =>
      if Ascii.eqb a newline then "" :: splitLines rest
      else
        match splitLines rest with
        | l :: ls => String a l :: ls
        | [] => [String a ""]
        end
  end.

(** ** The earlier signature checks (command.go, second variant)

    The variant of the dispatcher that takes the tokens as a [[]string]
    checks the parameters of handlers and hooks with [validateFuncInput],
    against lists of optional and of mandatory parameter types. *)

Module Legacy.

(** [strings.Join(elems, sep)] *)
Fixpoint Join (elems : list string) (sep : string) : string :=
  match elems with
  | [] => ""
  | [e] => e
  | e :: rest => e ++ sep ++ Join rest sep
  end.

(** [validateArguments(val, n, args, mandatory)], by recursion on [args]
    as the loop ranges over it. *)
Fixpoint validateArguments (val : FuncValue) (n : nat) (args : list GoType)
  (mandatory : bool) : nat * option error :=
  let numIn := List.length (fn_In val) in
  match args with
  | [] => (n, None)
  | v :: rest =>
      if numIn <=? n then
        if negb mandatory then (n, None)
        else
          (0, Some (NewError ("function " ++ fn_name val
                              ++ " must accept an argument of type " ++ type_String v
                              ++ " as the #" ++ fmt_d (n + 1)
                              ++ " parameter, but in only has " ++ fmt_d numIn
                              ++ " arguments")))
      else
        let in_ := nth n (fn_In val) v in
        if negb (GoType_eqb in_ v) then
          if negb mandatory then validateArguments val n rest mandatory
          else
            (0, Some (NewError ("function " ++ fn_name val
                                ++ " must accept an argument of type " ++ type_String v
                                ++ " as the #" ++ fmt_d (n + 1) ++ " parameter, not "
                                ++ type_String in_)))
        else validateArguments val (S n) rest mandatory
  end.

(** The loop of [validateFuncInput] over [toCheck] and [mandatories]. *)
Fixpoint validateFuncInput_loop (val : FuncValue) (toCheck : list (list GoType * bool))
  (n : nat) : nat * option error :=
  match toCheck with
  | [] => (n, None)
  | (v, mandatory) :: rest =>
      let '(n, err) := validateArguments val n v mandatory in
      match err with
      | Some e => (n, Some e)
      | None => validateFuncInput_loop val rest n
      end
  end.

Definition validateFuncInput (val : FuncValue) (optional mandatory : list GoType)
  (optionalFirst : bool) : option error :=
  let toCheck :=
    if optionalFirst then [(optional, false); (mandatory, true)]
    else [(mandatory, true); (optional, false)] in
  let '(n, err) := validateFuncInput_loop val toCheck 0 in
  match err with
  | Some e => Some e
  | None =>
      let numIn := List.length (fn_In val) in
      if negb (n =? numIn) then
        Some (NewError ("function " ++ fn_name val ++ " has " ++ fmt_d (numIn - n)
                        ++ " unused arguments of types "
                        ++ Join (map type_String (skipn n (fn_In val))) ", "))
      else None
  end.

End Legacy.

(** ** Further inputs for the examples *)

(** A run asked for the JSON dump. *)
Definition dumpEnv : Env :=
  {| env_COMMAND_DUMP_HELP := "1"; env_arg0 := "prog"; env_os_Args := [];
     env_stack := [] |}.

(** A command whose handler returns an error. *)
Definition failCmd : Cmd :=
  command "fail" []
          (handler "main.fail" [argsType] [errType]
                   (fun _ _ => Returns (Some (NewError "no luck"))))
          None.

(** A command with one required argument. *)
Definition helloCmd : Cmd :=
  command "hello" [Some (argument "name" false)] goodHandler None.

(** A command without arguments that documents its usage. *)
Definition statusCmd : Cmd :=
  {| cmd_Name := "status"; cmd_Help := "show the status"; cmd_LongHelp := "";
     cmd_Usage := "[-v]"; cmd_Args := NoArgs; cmd_Func := goodHandler;
     cmd_Options := None |}.

(** A command whose second argument is a nil pointer. *)
Definition holedCmd : Cmd :=
  command "copy" [Some (argument "from" false); None] goodHandler None.

(** The field of [loudOptions], and a field of a kind that cannot be
    bound to a flag. *)
Definition loudField : StructField :=
  {| sf_Name := "Loud"; sf_Tag_name := ""; sf_Tag_help := "speak up";
     sf_Type := TNamed "bool"; sf_Kind := KBool; sf_exported := true;
     sf_isFlagValue := false; sf_value := "false" |}.

Definition tagsField : StructField :=
  {| sf_Name := "Tags"; sf_Tag_name := ""; sf_Tag_help := "";
     sf_Type := TNamed "[]string"; sf_Kind := KOther; sf_exported := true;
     sf_isFlagValue := false; sf_value := "[]" |}.

(** [Options] whose [BeforeFunc] panics, whose [BeforeFunc] returns an
    error, and whose [Func] returns an error. *)
Definition panickingBefore : Options :=
  {| opt_Options := None; opt_Commands := None; opt_Func := None;
     opt_BeforeFunc := Some (fun _ => Panics (PVString "before")) |}.

Definition refusingBefore : Options :=
  {| opt_Options := None; opt_Commands := None; opt_Func := None;
     opt_BeforeFunc := Some (fun _ => Returns (Some (NewError "not ready"))) |}.

Definition refusingFunc : Options :=
  {| opt_Options := None; opt_Commands := None;
     opt_Func := Some (fun _ _ => Returns (Some (NewError "denied")));
     opt_BeforeFunc := None |}.

(** * Properties *)

Unset Implicit Arguments.

(** ** Exit status *)

(** C8: the exit status is 0 for a nil error, 2 for the help-shown
    sentinel, 3 for the no-command sentinel, 4 for the unused-arguments
    sentinel, and 1 for every other error and for no other: unknown-command
    errors and errors made by handlers are among those. *)
Theorem Exit_total_exact :
  Exit None = 0%Z
  /\ Exit (Some ErrHelp) = 2%Z
  /\ Exit (Some ErrNoCommand) = 3%Z
  /\ Exit (Some ErrUnusedArguments) = 4%Z
  /\ (forall e, Exit (Some e) = 1%Z
                <-> (e <> ErrHelp /\ e <> ErrNoCommand /\ e <> ErrUnusedArguments))
  /\ (forall name, Exit (Some (UnknownCommandError name)) = 1%Z)
  /\ (forall msg, Exit (Some (NewError msg)) = 1%Z).
Proof.
  repeat split; try reflexivity; try discriminate.
  - destruct e; simpl in H; discriminate.
  - destruct e; simpl in H; discriminate.
  - destruct e; simpl in H; discriminate.
  - intros (H1 & H2 & H3). destruct e; try reflexivity; congruence.
Qed.

(** ** Command lookup *)

Lemma commandByName_Some (commands : list Cmd) (name : string) (c : Cmd) :
  commandByName commands name = Some c ->
  exists before after,
    commands = (before ++ c :: after)%list /\ cmd_Name c = name
    /\ Forall (fun c' => cmd_Name c' <> name) before.
Proof.
  induction commands as [|v rest IH]; simpl; [discriminate|].
  destruct (String.eqb (cmd_Name v) name) eqn:E.
  - intros [= <-]. apply String.eqb_eq in E.
    exists [], rest. repeat split; auto.
  - intros H. apply String.eqb_neq in E.
    destruct (IH H) as (before & after & -> & Hn & Hb).
    exists (v :: before), after. repeat split; auto.
Qed.

Lemma commandByName_None (commands : list Cmd) (name : string) :
  commandByName commands name = None ->
  Forall (fun c' => cmd_Name c' <> name) commands.
Proof.
  induction commands as [|v rest IH]; simpl; [constructor|].
  destruct (String.eqb (cmd_Name v) name) eqn:E; [discriminate|].
  apply String.eqb_neq in E. auto.
Qed.

Lemma commandByName_app (before after : list Cmd) (c : Cmd) :
  Forall (fun c' => cmd_Name c' <> cmd_Name c) before ->
  commandByName (before ++ c :: after) (cmd_Name c) = Some c.
Proof.
  induction 1 as [|v before Hv _ IH]; simpl.
  - now rewrite String.eqb_refl.
  - apply String.eqb_neq in Hv. now rewrite Hv.
Qed.

(** C9: lookup returns the first command, in list order, whose name is
    the token (byte for byte); with two commands of one name it returns
    the earlier; it reports no match exactly when no command has the
    name. *)
Theorem commandByName_first_match (commands : list Cmd) (name : string) :
  (forall c, commandByName commands name = Some c <->
     exists before after,
       commands = (before ++ c :: after)%list /\ cmd_Name c = name
       /\ Forall (fun c' => cmd_Name c' <> name) before)
  /\ (commandByName commands name = None <->
       Forall (fun c' => cmd_Name c' <> name) commands).
Proof.
  split.
  - intros c. split.
    + apply commandByName_Some.
    + intros (before & after & -> & <- & Hb). now apply commandByName_app.
  - split.
    + apply commandByName_None.
    + induction 1 as [|v rest Hv _ IH]; simpl; [reflexivity|].
      apply String.eqb_neq in Hv. now rewrite Hv.
Qed.

(** ** Validation of the arguments *)

Section ArgumentProofs.
Context {L : GoLib}.

Lemma DeepEqual_map_Some (l : list Argument) : DeepEqual (map Some l) NoArgs = false.
Proof. destruct l as [|a [|b l]]; reflexivity. Qed.

Lemma wellFormed_first (l : list Argument) :
  wellFormed l = true <-> firstRequiredAfterOptional l = None.
Proof.
  induction l as [|a rest IH]; simpl; [tauto|].
  destruct (arg_Optional a); [|exact IH].
  clear IH. induction rest as [|b rest IH]; simpl; [tauto|].
  unfold isRequired at 1. destruct (arg_Optional b); simpl; [exact IH|].
  split; discriminate.
Qed.

Lemma find_required_nth (l : list Argument) (b : Argument) :
  find isRequired l = Some b ->
  exists j, nth_error l j = Some b /\ arg_Optional b = false.
Proof.
  induction l as [|a rest IH]; simpl; [discriminate|].
  destruct (isRequired a) eqn:E.
  - intros [= <-]. exists 0. split; [reflexivity|].
    unfold isRequired in E. now destruct (arg_Optional a).
  - intros H. destruct (IH H) as (j & Hj & Hb). now exists (S j).
Qed.

Lemma forallb_optional_nth (l : list Argument) (j : nat) (b : Argument) :
  forallb arg_Optional l = true -> nth_error l j = Some b -> arg_Optional b = true.
Proof.
  intros H Hj. rewrite forallb_forall in H. apply H. eapply nth_error_In; eauto.
Qed.

(** [wellFormed] decides the property of the specification. *)
Lemma wellFormed_spec (l : list Argument) :
  wellFormed l = true <-> ~ requiredAfterOptional l.
Proof.
  split.
  - induction l as [|a rest IH]; intros H (i & j & x & y & Hij & Hi & Hj & Hx & Hy).
    + destruct i; discriminate.
    + simpl in H. destruct j as [|j]; [lia|]. simpl in Hj.
      destruct (arg_Optional a) eqn:Ea.
      * pose proof (forallb_optional_nth _ _ _ H Hj). congruence.
      * destruct i as [|i]; simpl in Hi; [congruence|].
        apply (IH H). exists i, j, x, y. repeat split; auto; lia.
  - intros H. apply wellFormed_first.
    destruct (firstRequiredAfterOptional l) as [b|] eqn:E; [|reflexivity].
    exfalso. apply H. clear H. revert E.
    induction l as [|a rest IH]; simpl; [discriminate|].
    destruct (arg_Optional a) eqn:Ea.
    + intros E. destruct (find_required_nth _ _ E) as (j & Hj & Hb).
      exists 0, (S j), a, b. repeat split; auto; lia.
    + intros E. destruct (IH E) as (i & j & x & y & Hij & Hi & Hj & Hx & Hy).
      exists (S i), (S j), x, y. repeat split; auto; lia.
Qed.

(** Once an optional argument has been seen, the loop stops at the first
    required one. *)
Lemma validate_loop_optional (l : list Argument) (req : nat) :
  validate_loop (map Some l) true req
  = Ok (option_map errAfterOptional (find isRequired l), req).
Proof.
  induction l as [|a rest IH]; simpl; [reflexivity|].
  unfold isRequired at 1. destruct (arg_Optional a); simpl; [exact IH|reflexivity].
Qed.

Lemma required_cons (a : Argument) (rest : list Argument) :
  required (a :: rest) = (if arg_Optional a then 0 else 1) + required rest.
Proof. unfold required, isRequired. simpl. now destruct (arg_Optional a). Qed.

Lemma find_required_None (l : list Argument) :
  find isRequired l = None -> required l = 0.
Proof.
  induction l as [|b rest IH]; [reflexivity|].
  rewrite required_cons. simpl. unfold isRequired at 1.
  destruct (arg_Optional b); simpl; [exact IH|discriminate].
Qed.

Lemma validate_loop_required (l : list Argument) (req : nat) :
  exists req',
    validate_loop (map Some l) false req
    = Ok (option_map errAfterOptional (firstRequiredAfterOptional l), req')
    /\ (firstRequiredAfterOptional l = None -> req' = req + required l).
Proof.
  revert req. induction l as [|a rest IH]; intros req.
  - exists req. split; [reflexivity|]. unfold required. simpl. lia.
  - rewrite required_cons. simpl.
    destruct (arg_Optional a) eqn:Ea; simpl.
    + exists req. rewrite validate_loop_optional. split; [reflexivity|].
      intros Hnone. rewrite (find_required_None _ Hnone). lia.
    + destruct (IH (S req)) as (req' & -> & Hreq).
      exists req'. split; [reflexivity|].
      intros Hnone. rewrite (Hreq Hnone). lia.
Qed.

(** What [validate] does on a sequence of (non-nil) arguments. *)
Lemma validate_arguments (l : list Argument) (tokens : list string) (c : Cmd) :
  cmd_Args c = map Some l ->
  validate (newArgs tokens c)
  = match firstRequiredAfterOptional l with
    | Some b => Ok (Some (errAfterOptional b))
    | None =>
        if List.length tokens <? required l
        then Ok (Some (errInsufficient (required l) (List.length tokens)))
        else Ok None
    end.
Proof.
  intros Hc. unfold validate. simpl. rewrite Hc, DeepEqual_map_Some. simpl.
  destruct (validate_loop_required l 0) as (req' & -> & Hreq). simpl.
  destruct (firstRequiredAfterOptional l); simpl; [reflexivity|].
  rewrite (Hreq eq_refl). reflexivity.
Qed.

(** C2: for a command whose [Args] is the [NoArgs] marker, validation
    with one or more leftover tokens returns [ErrUnusedArguments]; with no
    leftover token the loop of [validate] reads the [Optional] field of the
    nil pointer held by [NoArgs] and panics, where the claim has it return
    no error. *)
Theorem validate_NoArgs (c : Cmd) (tokens : list string) :
  cmd_Args c = NoArgs ->
  validate (newArgs tokens c)
  = match tokens with
    | [] => Panic nilDeref
    | _ :: _ => Ok (Some ErrUnusedArguments)
    end.
Proof.
  intros Hc. unfold validate. simpl. rewrite Hc.
  destruct tokens; reflexivity.
Qed.

(** C3, as amended: when a required argument stands after an optional one
    in a sequence of arguments, validation fails whatever the tokens are,
    with an ordinary error that names the first such required argument;
    the dispatcher returns this error to its caller and does not panic. *)
Theorem validate_required_after_optional
  (l : list Argument) (tokens : list string) (c : Cmd) (name : string) :
  cmd_Args c = map Some l ->
  requiredAfterOptional l ->
  exists b,
    firstRequiredAfterOptional l = Some b
    /\ validate (newArgs tokens c) = Ok (Some (errAfterOptional b))
    /\ RunOpts_validate name (newArgs tokens c) = ([], Return (Some (errAfterOptional b))).
Proof.
  intros Hc Hbad.
  destruct (firstRequiredAfterOptional l) as [b|] eqn:E.
  - exists b. pose proof (validate_arguments l tokens c Hc) as Hv.
    rewrite E in Hv. split; [reflexivity|]. split; [exact Hv|].
    unfold RunOpts_validate. rewrite Hv. reflexivity.
  - exfalso. apply wellFormed_first in E. apply wellFormed_spec in E. auto.
Qed.

(** C4: for a well-formed sequence of arguments with [k] required ones,
    validation of fewer than [k] tokens fails with the error
    [k arguments required, but only n provided], [n] being the number of
    tokens, and validation of [k] or more tokens succeeds. *)
Theorem validate_required_count (l : list Argument) (tokens : list string) (c : Cmd) :
  cmd_Args c = map Some l ->
  ~ requiredAfterOptional l ->
  let k := required l in
  let n := List.length tokens in
  (n < k -> validate (newArgs tokens c)
            = Ok (Some (NewError (fmt_d k ++ " arguments required, but only "
                                  ++ fmt_d n ++ " provided"))))
  /\ (k <= n -> validate (newArgs tokens c) = Ok None).
Proof.
  intros Hc Hwf k n.
  pose proof (validate_arguments l tokens c Hc) as Hv.
  apply wellFormed_spec, wellFormed_first in Hwf. rewrite Hwf in Hv.
  fold k n in Hv. split; intros H.
  - apply Nat.ltb_lt in H. rewrite H in Hv. exact Hv.
  - apply Nat.ltb_ge in H. rewrite H in Hv. exact Hv.
Qed.

End ArgumentProofs.

(** ** Lookup of an argument by name *)

Section LookupProofs.
Context {L : GoLib}.

Lemma argumentPos_declared (l : list Argument) (name : string) (ii : nat) :
  In name (map arg_Name l) ->
  exists p, declaredAt l name p
            /\ argumentPos_loop (map Some l) ii name = Ok (ii + p, None).
Proof.
  revert ii. induction l as [|a rest IH]; intros ii Hin; [destruct Hin|].
  simpl. destruct (String.eqb (arg_Name a) name) eqn:E.
  - apply String.eqb_eq in E. exists 0. split.
    + split; [exists a; auto|]. intros q b Hq. lia.
    + now rewrite Nat.add_0_r.
  - apply String.eqb_neq in E. destruct Hin as [Hin|Hin]; [contradiction|].
    destruct (IH (S ii) Hin) as (p & ((x & Hx & Hname) & Hfirst) & Hpos).
    exists (S p). split.
    + split; [exists x; auto|].
      intros [|q] b Hq Hb; simpl in Hb.
      * congruence.
      * apply (Hfirst q b); [lia|exact Hb].
    + rewrite Hpos. f_equal. f_equal. lia.
Qed.


Lemma StringAt_spec (tokens : list string) (c : Cmd) (p : nat) :
  (forall t, nth_error tokens p = Some t -> StringAt (newArgs tokens c) p = t)
  /\ (List.length tokens <= p -> StringAt (newArgs tokens c) p = "").
Proof.
  unfold StringAt. simpl. split.
  - intros t Ht.
    assert (Hlt : p < List.length tokens) by (apply nth_error_Some; congruence).
    apply Nat.leb_gt in Hlt. rewrite Hlt. now apply nth_error_nth.
  - intros Hle. apply Nat.leb_le in Hle. now rewrite Hle.
Qed.

(** C6: for a name declared in the sequence of arguments of the command,
    [String] returns the token at the position where the name is declared,
    or the empty string when there are no more tokens than that position;
    [Int] panics exactly when that token is missing or [strconv.Atoi]
    rejects it, and returns the parsed value otherwise.  [strconv.Atoi]
    rejects the empty string. *)
Theorem lookup_declared_name
  (l : list Argument) (tokens : list string) (c : Cmd) (name : string) :
  cmd_Args c = map Some l ->
  In name (map arg_Name l) ->
  (exists e, Atoi "" = inr e) ->
  exists p,
    declaredAt l name p
    /\ (forall t, nth_error tokens p = Some t -> String_ (newArgs tokens c) name = Ok t)
    /\ (List.length tokens <= p -> String_ (newArgs tokens c) name = Ok "")
    /\ ((exists v, Int (newArgs tokens c) name = Panic v)
        <-> (List.length tokens <= p
             \/ exists t e, nth_error tokens p = Some t /\ Atoi t = inr e))
    /\ (forall t z, nth_error tokens p = Some t -> Atoi t = inl z ->
                    Int (newArgs tokens c) name = Ok z).
Proof.
  intros Hc Hin (e0 & He0).
  destruct (argumentPos_declared l name 0 Hin) as (p & Hdecl & Hpos).
  exists p. split; [exact Hdecl|].
  assert (HS : String_ (newArgs tokens c) name = Ok (StringAt (newArgs tokens c) p)).
  { unfold String_, argumentPos. simpl. rewrite Hc, Hpos. reflexivity. }
  destruct (StringAt_spec tokens c p) as (Hsome & Hnone).
  split; [intros t Ht; rewrite HS, (Hsome t Ht); reflexivity|].
  split; [intros Hle; rewrite HS, (Hnone Hle); reflexivity|].
  unfold Int. rewrite HS. simpl.
  destruct (nth_error tokens p) as [t|] eqn:Et.
  - rewrite (Hsome t eq_refl).
    assert (Hlt : p < List.length tokens) by (apply nth_error_Some; congruence).
    split.
    + destruct (Atoi t) as [z|e] eqn:Ea.
      * split; [intros (v & Hv); discriminate|].
        intros [Hle|(t' & e & [= <-] & He)]; [lia|congruence].
      * split; [|intros _; eexists; reflexivity].
        intros _. right. exists t, e. auto.
    + intros t' z [= <-] Hz. now rewrite Hz.
  - assert (Hle : List.length tokens <= p) by (now apply nth_error_None).
    rewrite (Hnone Hle), He0. split.
    + split; [intros _; now left|intros _; eexists; reflexivity].
    + intros t z Ht. discriminate.
Qed.


End LookupProofs.

(** ** Flag names *)

Lemma slice_from_length (ii : nat) (s : string) :
  String.length (slice_from ii s) = String.length s - ii.
Proof.
  revert s. induction ii as [|ii IH]; intros s; simpl; [lia|].
  destruct s; simpl; [reflexivity|apply IH].
Qed.

Lemma slice_from_add (a b : nat) (s : string) :
  slice_from a (slice_from b s) = slice_from (b + a) s.
Proof.
  revert s. induction b as [|b IH]; intros s; simpl; [reflexivity|].
  destruct s; [now destruct a|apply IH].
Qed.

(** A decoding step on a non-empty string consumes at least one byte. *)
Lemma DecodeRuneInString_size (s : string) :
  s <> "" -> 1 <= snd (DecodeRuneInString s).
Proof.
  intros Hs. unfold DecodeRuneInString.
  destruct s as [|a s]; [congruence|]. cbn [String.length Nat.ltb Nat.leb].
  destruct (byte_at (String a s) 0 <? 128)%N; [simpl; lia|].
  destruct (lead_info (byte_at (String a s) 0)) as [[[sz lo] hi]|]; [|simpl; lia].
  repeat match goal with
         | |- context [if ?b then _ else _] => destruct b
         end; simpl; lia.
Qed.

(** *** UTF-8: decoding undoes encoding

    The bit operations are turned into arithmetic: shifts into
    multiplications and divisions by powers of two, masks into remainders,
    and a bitwise or of two numbers without a common bit into their sum. *)

Lemma land_pow2_low (a b k : N) : (b < 2 ^ k)%N -> N.land (a * 2 ^ k) b = 0%N.
Proof.
  intros Hb. apply N.bits_inj_0. intros n. rewrite N.land_spec.
  destruct (N.lt_ge_cases n k) as [Hn|Hn].
  - rewrite N.mul_pow2_bits_low by exact Hn. reflexivity.
  - destruct (N.eq_dec b 0) as [->|Hb0].
    + rewrite N.bits_0. apply andb_false_r.
    + rewrite (N.bits_above_log2 b n), andb_false_r; [reflexivity|].
      apply N.lt_le_trans with k; [|exact Hn].
      apply N.log2_lt_pow2; [lia|exact Hb].
Qed.

Lemma lor_pow2_add (a b k : N) : (b < 2 ^ k)%N -> N.lor (a * 2 ^ k) b = (a * 2 ^ k + b)%N.
Proof.
  intros Hb. pose proof (land_pow2_low a b k Hb) as H0.
  rewrite <- N.lxor_lor by exact H0. symmetry. now apply N.add_nocarry_lxor.
Qed.

Lemma land_mod (a k : N) : N.land a (2 ^ k - 1) = (a mod 2 ^ k)%N.
Proof. rewrite <- N.land_ones. f_equal. rewrite N.ones_equiv. lia. Qed.

(** Linear arithmetic with division and remainder by constants. *)
Ltac arith := unfold rune in *; zify; Z.to_euclidean_division_equations; lia.

(** Settles the comparisons of the goal that arithmetic decides. *)
Ltac decide_tests :=
  repeat match goal with
  | |- context [(?a <? ?b)%N] =>
      first [ rewrite (proj2 (N.ltb_lt a b)) by arith
            | rewrite (proj2 (N.ltb_ge a b)) by arith ]
  | |- context [(?a <=? ?b)%N] =>
      first [ rewrite (proj2 (N.leb_le a b)) by arith
            | rewrite (proj2 (N.leb_gt a b)) by arith ]
  | |- context [(?a =? ?b)%N] =>
      first [ rewrite (proj2 (N.eqb_eq a b)) by arith
            | rewrite (proj2 (N.eqb_neq a b)) by arith ]
  end.

Lemma lor2 (a b : N) : (b < 64)%N -> N.lor (a * 2 ^ 6) b = (a * 64 + b)%N.
Proof. intros H. now rewrite lor_pow2_add. Qed.

Lemma lor3 (a b c : N) :
  (b < 64)%N -> (c < 64)%N ->
  N.lor (N.lor (a * 2 ^ 12) (b * 2 ^ 6)) c = (a * 4096 + b * 64 + c)%N.
Proof.
  intros Hb Hc.
  rewrite (lor_pow2_add a (b * 2 ^ 6) 12)
    by (change (2 ^ 6)%N with 64%N; change (2 ^ 12)%N with 4096%N; lia).
  replace (a * 2 ^ 12 + b * 2 ^ 6)%N with ((a * 64 + b) * 2 ^ 6)%N
    by (change (2 ^ 6)%N with 64%N; change (2 ^ 12)%N with 4096%N; lia).
  rewrite lor2 by exact Hc. lia.
Qed.

Lemma lor4 (a b c d : N) :
  (b < 64)%N -> (c < 64)%N -> (d < 64)%N ->
  N.lor (N.lor (N.lor (a * 2 ^ 18) (b * 2 ^ 12)) (c * 2 ^ 6)) d
  = (a * 262144 + b * 4096 + c * 64 + d)%N.
Proof.
  intros Hb Hc Hd.
  rewrite (lor_pow2_add a (b * 2 ^ 12) 18)
    by (change (2 ^ 12)%N with 4096%N; change (2 ^ 18)%N with 262144%N; lia).
  replace (a * 2 ^ 18 + b * 2 ^ 12)%N with ((a * 64 + b) * 2 ^ 12)%N
    by (change (2 ^ 12)%N with 4096%N; change (2 ^ 18)%N with 262144%N; lia).
  rewrite lor3 by assumption. lia.
Qed.

Lemma land7 (a : N) : N.land a 7 = (a mod 8)%N.
Proof. exact (land_mod a 3). Qed.

Lemma land15 (a : N) : N.land a 15 = (a mod 16)%N.
Proof. exact (land_mod a 4). Qed.

Lemma land31 (a : N) : N.land a 31 = (a mod 32)%N.
Proof. exact (land_mod a 5). Qed.

Lemma land63 (a : N) : N.land a 63 = (a mod 64)%N.
Proof. exact (land_mod a 6). Qed.

Lemma shiftr6 (a : N) : N.shiftr a 6 = (a / 64)%N.
Proof. exact (N.shiftr_div_pow2 a 6). Qed.

Lemma shiftr12 (a : N) : N.shiftr a 12 = (a / 4096)%N.
Proof. exact (N.shiftr_div_pow2 a 12). Qed.

Lemma shiftr18 (a : N) : N.shiftr a 18 = (a / 262144)%N.
Proof. exact (N.shiftr_div_pow2 a 18). Qed.

Lemma lor128 (x : N) : (x < 64)%N -> N.lor 128 x = (128 + x)%N.
Proof. intros H. exact (lor_pow2_add 2 x 6 H). Qed.

Lemma lor192 (x : N) : (x < 64)%N -> N.lor 192 x = (192 + x)%N.
Proof. intros H. exact (lor_pow2_add 3 x 6 H). Qed.

Lemma lor224 (x : N) : (x < 16)%N -> N.lor 224 x = (224 + x)%N.
Proof. intros H. exact (lor_pow2_add 14 x 4 H). Qed.

Lemma lor240 (x : N) : (x < 8)%N -> N.lor 240 x = (240 + x)%N.
Proof. intros H. exact (lor_pow2_add 30 x 3 H). Qed.

(** The bytes of an encoding, in arithmetic. *)
Ltac to_arith :=
  rewrite ?shiftr6, ?shiftr12, ?shiftr18, ?land7, ?land15, ?land31, ?land63;
  rewrite ?lor128, ?lor192, ?lor224, ?lor240 by arith.

(** Runs [DecodeRuneInString] on the bytes of an encoding and compares
    the rune it yields with the one encoded. *)
Ltac run_decode :=
  cbn [byte_string map string_of_list_ascii append];
  unfold DecodeRuneInString;
  cbn [String.length Nat.ltb Nat.leb byte_at String.get];
  repeat (rewrite N_ascii_embedding by arith);
  unfold lead_info, in_range;
  repeat (progress (decide_tests; cbn [andb orb negb Nat.ltb Nat.leb]));
  f_equal;
  rewrite ?N.shiftl_mul_pow2, ?land7, ?land15, ?land31, ?land63;
  first [ rewrite lor4 by arith | rewrite lor3 by arith | rewrite lor2 by arith | idtac ];
  arith.

(** Selects the branch of [encodeRune] the bounds on the rune point to. *)
Ltac encode_case :=
  unfold encodeRune, in_range; decide_tests; cbn [andb orb negb]; to_arith.

Lemma decode_encode_1 (r : N) (rest : string) :
  (r < 128)%N -> DecodeRuneInString (encodeRune r ++ rest) = (r, 1).
Proof. intros Hr. encode_case. run_decode. Qed.

Lemma decode_encode_2 (r : N) (rest : string) :
  (128 <= r < 2048)%N -> DecodeRuneInString (encodeRune r ++ rest) = (r, 2).
Proof. intros Hr. encode_case. run_decode. Qed.

Lemma decode_encode_3 (r : N) (rest : string) :
  (2048 <= r < 55296 \/ 57344 <= r < 65536)%N ->
  DecodeRuneInString (encodeRune r ++ rest) = (r, 3).
Proof.
  intros Hr.
  assert (Hcase : (r < 4096 \/ 4096 <= r < 53248 \/ 53248 <= r < 55296 \/ 57344 <= r)%N)
    by lia.
  destruct Hcase as [H|[H|[H|H]]]; encode_case; run_decode.
Qed.

Lemma decode_encode_4 (r : N) (rest : string) :
  (65536 <= r <= 1114111)%N ->
  DecodeRuneInString (encodeRune r ++ rest) = (r, 4).
Proof.
  intros Hr.
  assert (Hcase : (r < 262144 \/ 262144 <= r < 1048576 \/ 1048576 <= r)%N) by lia.
  destruct Hcase as [H|[H|H]]; encode_case; run_decode.
Qed.

Lemma encodeRune_length (r : N) :
  validRune r = true ->
  String.length (encodeRune r)
  = if (r <? 128)%N then 1 else if (r <? 2048)%N then 2
    else if (r <? 65536)%N then 3 else 4.
Proof.
  unfold validRune, encodeRune, in_range. intros Hv.
  destruct (r <? 128)%N; [reflexivity|].
  destruct (r <? 2048)%N; [reflexivity|].
  destruct (r <? 55296)%N eqn:E1; cbn [orb] in Hv.
  - apply N.ltb_lt in E1.
    rewrite (proj2 (N.leb_gt 55296 r)) by lia. cbn [andb orb].
    rewrite (proj2 (N.ltb_ge 1114111 r)) by lia.
    rewrite (proj2 (N.ltb_lt r 65536)) by lia. reflexivity.
  - apply andb_true_iff in Hv. destruct Hv as (H1 & H2).
    apply N.leb_le in H1, H2.
    rewrite (proj2 (N.leb_gt r 57343)) by lia. rewrite andb_false_r. cbn [orb].
    rewrite (proj2 (N.ltb_ge 1114111 r)) by lia.
    destruct (r <? 65536)%N; reflexivity.
Qed.

(** Decoding the encoding of a Unicode scalar value, whatever follows
    it, yields the value and the number of bytes of its encoding. *)
Lemma decode_encode (r : N) (rest : string) :
  validRune r = true ->
  DecodeRuneInString (encodeRune r ++ rest) = (r, String.length (encodeRune r)).
Proof.
  intros Hv. rewrite (encodeRune_length r Hv).
  unfold validRune in Hv.
  destruct (r <? 128)%N eqn:E1.
  { apply N.ltb_lt in E1. now apply decode_encode_1. }
  apply N.ltb_ge in E1.
  destruct (r <? 2048)%N eqn:E2.
  { apply N.ltb_lt in E2. apply decode_encode_2. lia. }
  apply N.ltb_ge in E2.
  apply orb_true_iff in Hv.
  destruct (r <? 65536)%N eqn:E3.
  - apply N.ltb_lt in E3. apply decode_encode_3.
    destruct Hv as [Hv|Hv].
    + apply N.ltb_lt in Hv. lia.
    + apply andb_true_iff in Hv. destruct Hv as (H1 & H2). apply N.leb_le in H1. lia.
  - apply N.ltb_ge in E3. apply decode_encode_4.
    destruct Hv as [Hv|Hv].
    + apply N.ltb_lt in Hv. lia.
    + apply andb_true_iff in Hv. destruct Hv as (H1 & H2). apply N.leb_le in H2. lia.
Qed.

Lemma append_length (s t : string) :
  String.length (s ++ t) = String.length s + String.length t.
Proof. induction s as [|a s IH]; simpl; [reflexivity|now rewrite IH]. Qed.

Lemma slice_from_append (s t : string) : slice_from (String.length s) (s ++ t) = t.
Proof. induction s as [|a s IH]; simpl; [now destruct t|exact IH]. Qed.

Section FlagNameProofs.
Context {L : GoLib}.

(** With fuel for every byte the decoding uses the string up: more fuel
    changes nothing. *)
Lemma runes_of_fuel_enough (fuel : nat) (s : string) :
  String.length s <= fuel -> runes_of_fuel fuel s = runes_of s.
Proof.
  unfold runes_of. remember (String.length s) as n eqn:Hn.
  revert s fuel Hn. induction n as [n IH] using lt_wf_ind. intros s fuel Hn Hle.
  destruct s as [|a s]; [simpl in Hn; subst; now destruct fuel|].
  destruct fuel as [|fuel]; [simpl in Hn; lia|].
  destruct n as [|n]; [simpl in Hn; lia|].
  cbn [runes_of_fuel].
  pose proof (DecodeRuneInString_size (String a s)) as Hsize.
  destruct (DecodeRuneInString (String a s)) as [r size]. simpl in Hsize.
  assert (1 <= size) by (apply Hsize; discriminate).
  pose proof (slice_from_length size (String a s)) as Hlen.
  f_equal.
  rewrite (IH (String.length (slice_from size (String a s)))) with (fuel := fuel);
    [|lia|reflexivity|lia].
  rewrite (IH (String.length (slice_from size (String a s)))) with (fuel := n);
    [reflexivity|lia|reflexivity|lia].
Qed.

(** The runes of a string of ASCII bytes are its bytes. *)
Lemma runes_of_fuel_ascii (s : string) (fuel : nat) :
  String.length s <= fuel ->
  Forall (fun a => (N_of_ascii a < 128)%N) (list_ascii_of_string s) ->
  runes_of_fuel fuel s = map N_of_ascii (list_ascii_of_string s).
Proof.
  revert fuel. induction s as [|a s IH]; intros fuel Hlen Hall.
  - now destruct fuel.
  - destruct fuel as [|fuel]; [simpl in Hlen; lia|].
    inversion Hall as [|x xs Ha Hs]; subst.
    cbn [runes_of_fuel list_ascii_of_string map].
    unfold DecodeRuneInString. cbn [String.length Nat.ltb Nat.leb].
    unfold byte_at. cbn [String.get].
    apply N.ltb_lt in Ha. rewrite Ha. cbn [slice_from].
    rewrite IH; [reflexivity|simpl in Hlen; lia|assumption].
Qed.

Lemma runes_of_ascii (s : string) :
  Forall (fun a => (N_of_ascii a < 128)%N) (list_ascii_of_string s) ->
  runes_of s = map N_of_ascii (list_ascii_of_string s).
Proof. intros H. now apply runes_of_fuel_ascii. Qed.

(** The runes of the UTF-8 encoding of a sequence of scalar values are
    these values. *)
Lemma runes_of_fuel_string_of_runes (rs : list rune) (fuel : nat) :
  Forall (fun r => validRune r = true) rs ->
  String.length (string_of_runes rs) <= fuel ->
  runes_of_fuel fuel (string_of_runes rs) = rs.
Proof.
  intros Hall. revert fuel. induction Hall as [|r rs Hr _ IH]; intros fuel Hlen.
  - now destruct fuel.
  - cbn [string_of_runes] in *. rewrite append_length in Hlen.
    pose proof (encodeRune_length r Hr) as Hk.
    assert (Hpos : 1 <= String.length (encodeRune r)).
    { rewrite Hk. destruct (r <? 128)%N; [lia|]. destruct (r <? 2048)%N; [lia|].
      destruct (r <? 65536)%N; lia. }
    destruct fuel as [|fuel]; [lia|]. cbn [runes_of_fuel].
    destruct (encodeRune r ++ string_of_runes rs) as [|a s] eqn:Es.
    + apply (f_equal String.length) in Es. rewrite append_length in Es.
      simpl in Es. lia.
    + rewrite <- Es, decode_encode by exact Hr.
      rewrite slice_from_append, IH by lia. reflexivity.
Qed.

Lemma runes_of_string_of_runes (rs : list rune) :
  Forall (fun r => validRune r = true) rs ->
  runes_of (string_of_runes rs) = rs.
Proof. intros H. now apply runes_of_fuel_string_of_runes. Qed.

(** The loop of [defaultFieldName] appends to [runes] the hyphenation of
    the runes left to decode, [i] being the number of runes decoded so
    far. *)
Lemma defaultFieldName_loop_spec (name : string) (fuel ii i : nat) (runes : list rune) :
  (i = 0 <-> runes = []) ->
  defaultFieldName_loop fuel name ii runes
  = (runes ++ hyphenate_at i (runes_of_fuel fuel (slice_from ii name)))%list.
Proof.
  revert ii i runes. induction fuel as [|fuel IH]; intros ii i runes Hi.
  - simpl. now rewrite app_nil_r.
  - cbn [defaultFieldName_loop runes_of_fuel].
    pose proof (slice_from_length ii name) as Hlen.
    destruct (ii <? String.length name) eqn:E.
    + apply Nat.ltb_lt in E.
      destruct (slice_from ii name) as [|a rest] eqn:Es; [simpl in Hlen; lia|].
      destruct (DecodeRuneInString (String a rest)) as [c size].
      rewrite <- Es, slice_from_add.
      assert (Hfirst : (0 <? List.length runes) = negb (i =? 0)).
      { destruct runes as [|r runes]; simpl.
        - now rewrite (proj2 Hi eq_refl).
        - destruct i; [|reflexivity]. destruct Hi as [Hi _].
          discriminate (Hi eq_refl). }
      cbn [hyphenate_at]. unfold hyphenateRune.
      destruct (IsUpper c); rewrite ?Hfirst.
      * destruct (i =? 0); cbn [negb].
        -- rewrite (IH _ (S i)); [now rewrite <- app_assoc|].
           split; [discriminate|intros H; now destruct runes].
        -- rewrite (IH _ (S i)); [now rewrite <- !app_assoc|].
           split; [discriminate|intros H; now destruct runes].
      * rewrite (IH _ (S i)); [now rewrite <- app_assoc|].
        split; [discriminate|intros H; now destruct runes].
    + apply Nat.ltb_ge in E.
      destruct (slice_from ii name) as [|a rest]; [|simpl in Hlen; lia].
      simpl. now rewrite app_nil_r.
Qed.

Lemma defaultFieldName_derived (name : string) :
  defaultFieldName name = derivedName name.
Proof.
  unfold defaultFieldName, derivedName, hyphenate, runes_of.
  rewrite (defaultFieldName_loop_spec name (String.length name) 0 0 []);
    [reflexivity|tauto].
Qed.

(** The loop of [defaultFieldName] is given enough fuel: with more it
    computes the same runes. *)
Lemma defaultFieldName_loop_enough (name : string) (fuel : nat) :
  String.length name <= fuel ->
  defaultFieldName_loop fuel name 0 [] = hyphenate (runes_of name).
Proof.
  intros Hle. rewrite (defaultFieldName_loop_spec name fuel 0 0 []); [|tauto].
  cbn [slice_from app]. now rewrite runes_of_fuel_enough.
Qed.

Lemma fieldFlagName_specFlagName (field : StructField) :
  fieldFlagName field = specFlagName field.
Proof.
  unfold fieldFlagName, specFlagName. rewrite defaultFieldName_derived.
  now destruct (String.eqb (sf_Tag_name field) "").
Qed.

Lemma visitStruct_collectNames (typ : string) (fields : list StructField)
  (seen : list string) :
  Forall (fun f => sf_exported f = true /\ specFlagName f <> "") fields ->
  visitStruct_fields collectNames typ fields seen
  = Ok ((seen ++ map specFlagName fields)%list, None).
Proof.
  intros H. revert seen. induction H as [|f rest (Hexp & Hname) _ IH]; intros seen.
  - simpl. now rewrite app_nil_r.
  - cbn [visitStruct_fields]. rewrite Hexp, fieldFlagName_specFlagName. cbn [negb].
    apply String.eqb_neq in Hname. rewrite Hname.
    unfold collectNames at 1. cbn [rbind]. rewrite IH.
    now rewrite <- app_assoc.
Qed.

(** C7: the name derived from a field identifier is the identifier with
    each uppercase rune lowercased and preceded by a hyphen unless it is
    the first rune, the runes being those of its UTF-8 decoding, which for
    the encoding of a sequence of scalar values are these values (the loop
    that computes the name ends within its fuel); the
    flag name of a field is its name tag when that is not empty and the
    derived name otherwise; these are the names the visitor of
    [visitStruct] receives, in declaration order. *)
Theorem flag_name_derivation :
  (forall name, defaultFieldName name = string_of_runes (hyphenate (runes_of name)))
  /\ (forall rs,
        Forall (fun r => validRune r = true) rs ->
        defaultFieldName (string_of_runes rs) = string_of_runes (hyphenate rs))
  /\ (forall name fuel,
        String.length name <= fuel ->
        defaultFieldName_loop fuel name 0 [] = hyphenate (runes_of name))
  /\ (forall field,
        (sf_Tag_name field = "" -> fieldFlagName field = derivedName (sf_Name field))
        /\ (sf_Tag_name field <> "" -> fieldFlagName field = sf_Tag_name field))
  /\ (forall typ fields,
        Forall (fun f => sf_exported f = true /\ specFlagName f <> "") fields ->
        visitStruct collectNames (PtrStruct typ fields) []
        = Ok (map specFlagName fields, None)).
Proof.
  split; [exact defaultFieldName_derived|].
  split; [intros rs Hrs; rewrite defaultFieldName_derived; unfold derivedName;
          now rewrite runes_of_string_of_runes|].
  split; [exact defaultFieldName_loop_enough|]. split.
  - intros field. rewrite fieldFlagName_specFlagName. unfold specFlagName. split.
    + intros ->. reflexivity.
    + intros Hn. apply String.eqb_neq in Hn. now rewrite Hn.
  - intros typ fields H. simpl. now rewrite visitStruct_collectNames.
Qed.

End FlagNameProofs.

(** ** Strings *)

Lemma append_nil_r (s : string) : s ++ "" = s.
Proof. induction s as [|a s IH]; simpl; [reflexivity|now rewrite IH]. Qed.

Lemma append_assoc (s t u : string) : (s ++ t) ++ u = s ++ t ++ u.
Proof. induction s as [|a s IH]; simpl; [reflexivity|now rewrite IH]. Qed.

Lemma contains_suffix (pre s : string) : contains (pre ++ s) s.
Proof. exists pre, "". now rewrite append_nil_r. Qed.

Lemma contains_refl (s : string) : contains s s.
Proof. exists "", "". simpl. now rewrite append_nil_r. Qed.

Lemma contains_append (pre t s : string) : contains t s -> contains (pre ++ t) s.
Proof.
  intros (p & q & ->). exists (pre ++ p), q. now rewrite append_assoc.
Qed.

(** ** Panic recovery and dispatch *)

Section DispatchProofs.
Context {L : GoLib}.
Variable env : Env.

(** The stack walk of [getPanic] ends: once the fuel exceeds the number
    of frames left, more fuel changes nothing. *)
Lemma getPanic_loop_enough (fuel skip : nat) :
  List.length (env_stack env) - skip < fuel ->
  getPanic_loop env fuel skip
  = getPanic_loop env (S (List.length (env_stack env) - skip)) skip.
Proof.
  remember (List.length (env_stack env) - skip) as n eqn:Hn.
  revert fuel skip Hn. induction n as [n IH] using lt_wf_ind. intros fuel skip Hn Hlt.
  destruct fuel as [|fuel]; [lia|]. cbn [getPanic_loop].
  set (calls := firstn 10 (skipn skip (env_stack env))).
  assert (Hc : List.length calls = Nat.min 10 n).
  { unfold calls. rewrite length_firstn, length_skipn. now subst n. }
  destruct (List.length calls =? 0) eqn:E; [reflexivity|].
  apply Nat.eqb_neq in E.
  destruct (getPanic_scan calls skip (List.length calls)); [reflexivity|].
  assert (Hn' : List.length (env_stack env) - (skip + List.length calls)
                = n - List.length calls) by lia.
  rewrite (IH (n - List.length calls)) with (fuel := fuel); [|lia|lia|lia].
  rewrite (IH (n - List.length calls)) with (fuel := n); [reflexivity|lia|lia|lia].
Qed.

Lemma getPanic_scan_found (calls : list Frame) (skip n : nat) (r : Z * Z * N * bool) :
  getPanic_scan calls skip n = Some r ->
  snd r = true /\ existsb isPanicFunc calls = true.
Proof.
  induction n as [|ii IH]; [discriminate|]. cbn [getPanic_scan].
  destruct (nth_error calls ii) as [f|] eqn:Ef; [|exact IH].
  destruct (fr_func f) as [name|] eqn:En; [|exact IH].
  destruct (isPanicFrame name) eqn:Ep; [|exact IH].
  intros [= <-]. split; [reflexivity|].
  apply existsb_exists. exists f. split; [eapply nth_error_In; eauto|].
  unfold isPanicFunc. now rewrite En.
Qed.

Lemma getPanic_scan_none (calls : list Frame) (skip n : nat) :
  getPanic_scan calls skip n = None ->
  forall ii f, ii < n -> nth_error calls ii = Some f -> isPanicFunc f = false.
Proof.
  induction n as [|n IH]; intros H ii f Hlt Hf; [lia|].
  cbn [getPanic_scan] in H. unfold isPanicFunc.
  destruct (Nat.eq_dec ii n) as [->|Hne].
  - rewrite Hf in H. destruct (fr_func f) as [name|]; [|reflexivity].
    destruct (isPanicFrame name); [discriminate|reflexivity].
  - assert (Hrest : getPanic_scan calls skip n = None).
    { destruct (nth_error calls n) as [g|]; [|exact H].
      destruct (fr_func g) as [name|]; [|exact H].
      destruct (isPanicFrame name); [discriminate|exact H]. }
    apply (IH Hrest ii f); [lia|exact Hf].
Qed.

Lemma existsb_none (calls : list Frame) :
  (forall ii f, ii < List.length calls -> nth_error calls ii = Some f ->
                isPanicFunc f = false) ->
  existsb isPanicFunc calls = false.
Proof.
  intros H. destruct (existsb isPanicFunc calls) eqn:E; [|reflexivity].
  apply existsb_exists in E. destruct E as (f & Hin & Hf).
  apply In_nth_error in Hin. destruct Hin as (ii & Hii).
  rewrite (H ii f) in Hf; [discriminate| |exact Hii].
  apply nth_error_Some. congruence.
Qed.

(** [getPanic] finds a frame exactly when the stack holds a frame of a
    panic function of the runtime. *)
Lemma getPanic_loop_found (fuel skip : nat) :
  List.length (env_stack env) - skip < fuel ->
  snd (getPanic_loop env fuel skip) = existsb isPanicFunc (skipn skip (env_stack env)).
Proof.
  revert skip. induction fuel as [|fuel IH]; intros skip Hlt; [lia|].
  cbn [getPanic_loop].
  set (rest := skipn skip (env_stack env)).
  assert (Hrest : List.length rest = List.length (env_stack env) - skip)
    by apply length_skipn.
  destruct (List.length (firstn 10 rest) =? 0) eqn:E.
  - apply Nat.eqb_eq in E. rewrite length_firstn in E.
    destruct rest; [reflexivity|simpl in E; lia].
  - apply Nat.eqb_neq in E.
    assert (Hsplit : existsb isPanicFunc rest
                     = existsb isPanicFunc (firstn 10 rest)
                       || existsb isPanicFunc (skipn 10 rest))
      by (now rewrite <- existsb_app, firstn_skipn).
    rewrite Hsplit.
    destruct (getPanic_scan (firstn 10 rest) skip (List.length (firstn 10 rest)))
      as [r|] eqn:Es.
    + destruct (getPanic_scan_found _ _ _ _ Es) as (Hok & Hex).
      now rewrite Hok, Hex.
    + rewrite (existsb_none _ (getPanic_scan_none _ _ _ Es)). cbn [orb].
      rewrite IH.
      * unfold rest. rewrite skipn_skipn, length_firstn, length_skipn.
        destruct (Nat.le_gt_cases 10 (List.length (env_stack env) - skip)) as [Hge|Hlt'].
        -- rewrite Nat.min_l by exact Hge. f_equal. f_equal. lia.
        -- rewrite Nat.min_r by lia. rewrite !skipn_all2 by lia. reflexivity.
      * rewrite length_firstn in *. lia.
Qed.

Lemma getPanic_found :
  snd (getPanic env) = existsb isPanicFunc (env_stack env).
Proof. unfold getPanic. rewrite getPanic_loop_found; [reflexivity|lia]. Qed.

Lemma recoverRun_panic (c : Cmd) (r : PanicValue) (err : option error) :
  recoverRun env c (Some r) err
  = (Some (NewError (panicMessage env c r)), [Stderr (panicMessage env c r ++ nl)]).
Proof.
  unfold recoverRun, panicMessage, panicLocation.
  destruct (getPanic env) as [[[skip stackSkip] pc] ok].
  destruct ok; [|reflexivity].
  destruct (Caller env skip) as [[[pc' file] line] ok].
  destruct ok; reflexivity.
Qed.

Lemma deferred_panic (c : Cmd) (out : list Event) (v : PanicValue) :
  deferred env c (out, Panicked v)
  = ((out ++ [Stderr (panicMessage env c v ++ nl)])%list,
     Return (Some (NewError (panicMessage env c v)))).
Proof. unfold deferred. now rewrite recoverRun_panic. Qed.

Lemma deferred_return (c : Cmd) (out : list Event) (err : option error) :
  deferred env c (out, Return err) = (out, Return err).
Proof. unfold deferred, recoverRun. now rewrite app_nil_r. Qed.


Lemma bind_next {A B} (out : list Event) (a : A) (k : A -> M B) :
  bind (out, Next a) k = (let '(out', s) := k a in ((out ++ out')%list, s)).
Proof. reflexivity. Qed.

Lemma bind_panicked {A B} (out : list Event) (v : PanicValue) (k : A -> M B) :
  bind (out, Panicked v) k = (out, Panicked v).
Proof. reflexivity. Qed.

(** [RunOpts] for a run that resolves a command. *)
Lemma RunOpts_resolved (args : option (list string)) (opts : option Options)
  (commands : list Cmd) (out : list Event) (name : string) (cmdArgs : list string)
  (c : Cmd) (gopts : option OptionsValue) :
  RunOpts_resolve env args opts commands = (out, Next (name, cmdArgs, c, gopts)) ->
  RunOpts env args opts commands
  = finish (let '(out', s) :=
              deferred env c (
                '(fn, cmdArguments, optsVal) <-
                  RunOpts_prepare env opts gopts name cmdArgs c ;;
                RunOpts_invoke name fn cmdArguments optsVal) in
            ((out ++ out')%list, s)).
Proof. intros H. unfold RunOpts. rewrite H. reflexivity. Qed.

(** A run that panics after the [defer] returns the error made by
    [recoverRun]. *)
Lemma RunOpts_recovers (args : option (list string)) (opts : option Options)
  (commands : list Cmd) (out out' : list Event) (name : string)
  (cmdArgs : list string) (c : Cmd) (gopts : option OptionsValue) (v : PanicValue) :
  RunOpts_resolve env args opts commands = (out, Next (name, cmdArgs, c, gopts)) ->
  ('(fn, cmdArguments, optsVal) <- RunOpts_prepare env opts gopts name cmdArgs c ;;
   RunOpts_invoke name fn cmdArguments optsVal) = (out', Panicked v) ->
  RunOpts env args opts commands
  = ((out ++ out' ++ [Stderr (panicMessage env c v ++ nl)])%list,
     Ok (Some (NewError (panicMessage env c v)))).
Proof.
  intros Hres Hbody. rewrite (RunOpts_resolved _ _ _ _ _ _ _ _ Hres), Hbody.
  rewrite deferred_panic. reflexivity.
Qed.

(** The first steps of [RunOpts_prepare] for a handler whose results are
    not valid. *)
Lemma prepare_invalid_return (opts : option Options) (gopts : option OptionsValue)
  (name : string) (cmdArgs : list string) (c : Cmd) (fn : FuncValue) (e : error) :
  cmd_Func c = Fn fn ->
  validateCmdFuncReturn fn = Some e ->
  RunOpts_prepare env opts gopts name cmdArgs c = ([], Panicked (invalidHandler name e)).
Proof. intros Hf Hr. unfold RunOpts_prepare. rewrite Hf. simpl. rewrite Hr. reflexivity. Qed.

(** The steps of [RunOpts_prepare] for a handler whose parameters are not
    valid, for a command without options and for one whose flags parse. *)
Lemma prepare_invalid_input (opts : option Options) (gopts : option OptionsValue)
  (name : string) (cmdArgs : list string) (c : Cmd) (fn : FuncValue) (e : error) :
  cmd_Func c = Fn fn ->
  validateCmdFuncReturn fn = None ->
  cmd_Options c = None ->
  validateCmdFuncInput fn None = Some e ->
  RunOpts_prepare env opts gopts name cmdArgs c = ([], Panicked (invalidHandler name e)).
Proof.
  intros Hf Hr Ho Hi. unfold RunOpts_prepare. rewrite Hf. simpl. rewrite Hr, Ho. simpl.
  rewrite Hi. reflexivity.
Qed.

Lemma prepare_invalid_options (opts : option Options) (gopts : option OptionsValue)
  (name : string) (cmdArgs rest : list string) (c : Cmd) (fn : FuncValue) (e : error)
  (v : OptionsValue) (flags : FlagSet) (assigned : list (string * string)) :
  cmd_Func c = Fn fn ->
  validateCmdFuncReturn fn = None ->
  cmd_Options c = Some v ->
  setupOptionsFlags env name v = Ok (Some flags, None) ->
  flag_Parse flags cmdArgs = Parsed assigned rest ->
  validateCmdFuncInput fn (Some (setFlags assigned v)) = Some e ->
  RunOpts_prepare env opts gopts name cmdArgs c = ([], Panicked (invalidHandler name e)).
Proof.
  intros Hf Hr Ho Hs Hp Hi. unfold RunOpts_prepare. rewrite Hf. simpl.
  rewrite Hr, Ho. simpl. rewrite Hs. simpl. rewrite Hp. simpl. rewrite Hi. reflexivity.
Qed.

(** C1: for a resolved command whose handler fails the check of its
    results or of its parameters, [RunOpts] raises the panic
    [invalid handler for command ...], which names the function and the
    expected shape; the panic is raised after [recoverRun] has been
    deferred, so [RunOpts] does not abort: it prints and returns the error
    [panic running command ...] as an ordinary error value, where the
    claim has the mismatch never surface as one. *)
Theorem signature_mismatch_returned
  (argv : option (list string)) (opts : option Options) (commands : list Cmd)
  (out : list Event) (name : string) (cmdArgs : list string) (c : Cmd)
  (gopts : option OptionsValue) (fn : FuncValue) (e : error) :
  RunOpts_resolve env argv opts commands = (out, Next (name, cmdArgs, c, gopts)) ->
  cmd_Func c = Fn fn ->
  (validateCmdFuncReturn fn = Some e
   \/ (validateCmdFuncReturn fn = None /\ cmd_Options c = None
       /\ validateCmdFuncInput fn None = Some e)
   \/ (validateCmdFuncReturn fn = None
       /\ exists v flags assigned rest,
            cmd_Options c = Some v
            /\ setupOptionsFlags env name v = Ok (Some flags, None)
            /\ flag_Parse flags cmdArgs = Parsed assigned rest
            /\ validateCmdFuncInput fn (Some (setFlags assigned v)) = Some e)) ->
  RunOpts env argv opts commands
  = ((out ++ [Stderr (panicMessage env c (invalidHandler name e) ++ nl)])%list,
     Ok (Some (NewError (panicMessage env c (invalidHandler name e))))).
Proof.
  intros Hres Hf Hbad.
  assert (Hprep : RunOpts_prepare env opts gopts name cmdArgs c
                  = ([], Panicked (invalidHandler name e))).
  { destruct Hbad
      as [Hr|[(Hr & Ho & Hi)|(Hr & v & flags & assigned & rest & Ho & Hs & Hp & Hi)]].
    - now apply prepare_invalid_return with (fn := fn).
    - now apply prepare_invalid_input with (fn := fn).
    - now apply prepare_invalid_options
        with (fn := fn) (v := v) (flags := flags) (assigned := assigned) (rest := rest). }
  rewrite (RunOpts_recovers _ _ _ out [] name cmdArgs c gopts
             (invalidHandler name e) Hres).
  - reflexivity.
  - rewrite Hprep. reflexivity.
Qed.

(** C5: when the call of the handler panics, [RunOpts] returns, and what
    it returns is an error with the message
    [panic running command <name> at <file>:<line>: <value>] when the
    recovery determines a source location and
    [panic running command <name>: <value>] when it does not; the message
    contains the panic value, and the message followed by a newline is
    written to the standard error. *)
Theorem handler_panic_recovered
  (argv : option (list string)) (opts : option Options) (commands : list Cmd)
  (out1 out2 : list Event) (name : string) (cmdArgs : list string) (c : Cmd)
  (gopts : option OptionsValue) (fn : FuncValue) (a : Args)
  (optsVal : option OptionsValue) (v : PanicValue) :
  RunOpts_resolve env argv opts commands = (out1, Next (name, cmdArgs, c, gopts)) ->
  RunOpts_prepare env opts gopts name cmdArgs c = (out2, Next (fn, a, optsVal)) ->
  Call fn (numFnArgs optsVal) (args a) optsVal = Panics v ->
  exists msg,
    RunOpts env argv opts commands
    = ((out1 ++ out2 ++ [Stderr (msg ++ nl)])%list, Ok (Some (NewError msg)))
    /\ msg = match panicLocation env with
             | Some (file, line) =>
                 "panic running command " ++ cmd_Name c ++ " at " ++ file ++ ":"
                 ++ fmt_dZ line ++ ": " ++ fmt_v v
             | None => "panic running command " ++ cmd_Name c ++ ": " ++ fmt_v v
             end
    /\ contains msg (fmt_v v).
Proof.
  intros Hres Hprep Hcall. exists (panicMessage env c v). split; [|split].
  - rewrite (RunOpts_recovers _ _ _ out1 out2 name cmdArgs c gopts v Hres);
      [reflexivity|].
    rewrite Hprep, bind_next. unfold RunOpts_invoke.
    rewrite Hcall. simpl. now rewrite app_nil_r.
  - reflexivity.
  - unfold panicMessage. destruct (panicLocation env) as [[file line]|];
      repeat apply contains_append; apply contains_refl.
Qed.

End DispatchProofs.

(** ** The theorems at concrete inputs *)

Lemma validate_NoArgs_witness :
  validate (L := exampleLib) (newArgs [] noArguments) = Panic nilDeref
  /\ validate (L := exampleLib) (newArgs ["now"] noArguments) = Ok (Some ErrUnusedArguments).
Proof.
  split.
  - exact (validate_NoArgs (L := exampleLib) noArguments [] eq_refl).
  - exact (validate_NoArgs (L := exampleLib) noArguments ["now"] eq_refl).
Defined.

(** The dispatcher on a command without arguments that is given none:
    the panic of [validate] is recovered and comes back as an error. *)
Example RunOpts_NoArgs_no_tokens :
  RunOpts (L := exampleLib) (exampleEnv "command.(*Args).validate" "arguments.go" 47)
          (Some ["status"]) None [noArguments]
  = ([Stderr ("panic running command status at arguments.go:47: "
              ++ "runtime error: invalid memory address or nil pointer dereference" ++ nl)],
     Ok (Some (NewError ("panic running command status at arguments.go:47: "
                         ++ "runtime error: invalid memory address or nil pointer dereference")))).
Proof. reflexivity. Qed.

Lemma optionalFirst_malformed :
  requiredAfterOptional [argument "title" true; argument "name" false].
Proof.
  exists 0, 1, (argument "title" true), (argument "name" false).
  repeat split; auto.
Defined.

(** C3, as stated, fails: on a sequence with a required argument after an
    optional one validation returns an error value, and so does the
    dispatcher; neither panics. *)
Lemma required_after_optional_not_fatal :
  requiredAfterOptional [argument "title" true; argument "name" false]
  /\ validate (L := exampleLib) (newArgs ["Ada"] optionalFirst) = Ok (Some optionalFirstError)
  /\ (forall v, validate (L := exampleLib) (newArgs ["Ada"] optionalFirst) <> Panic v)
  /\ RunOpts (L := exampleLib) blindEnv (Some ["greet"; "Ada"]) None [optionalFirst]
     = ([], Ok (Some optionalFirstError)).
Proof.
  split; [exact optionalFirst_malformed|].
  split; [reflexivity|]. split; [discriminate|reflexivity].
Qed.

Lemma validate_required_after_optional_witness :
  exists b,
    firstRequiredAfterOptional [argument "title" true; argument "name" false] = Some b
    /\ validate (L := exampleLib) (newArgs ["Ada"] optionalFirst)
       = Ok (Some (errAfterOptional (L := exampleLib) b))
    /\ RunOpts_validate (L := exampleLib) "greet" (newArgs ["Ada"] optionalFirst)
       = ([], Return (Some (errAfterOptional (L := exampleLib) b))).
Proof.
  exact (validate_required_after_optional (L := exampleLib)
           [argument "title" true; argument "name" false] ["Ada"] optionalFirst "greet"
           eq_refl optionalFirst_malformed).
Defined.

(** A command with one required and one optional argument. *)
Lemma nameThenTitle_wellFormed :
  ~ requiredAfterOptional [argument "name" false; argument "title" true].
Proof. apply wellFormed_spec. reflexivity. Qed.

Lemma validate_required_count_witness :
  validate (L := exampleLib)
    (newArgs [] (command "greet" [Some (argument "name" false); Some (argument "title" true)]
                         goodHandler None))
  = Ok (Some (NewError "1 arguments required, but only 0 provided"))
  /\ validate (L := exampleLib)
       (newArgs ["Ada"; "Countess"]
                (command "greet" [Some (argument "name" false); Some (argument "title" true)]
                         goodHandler None))
     = Ok None.
Proof.
  split.
  - refine (proj1 (validate_required_count (L := exampleLib)
                     [argument "name" false; argument "title" true] []
                     (command "greet"
                        [Some (argument "name" false); Some (argument "title" true)]
                        goodHandler None) eq_refl nameThenTitle_wellFormed) _).
    vm_compute. lia.
  - refine (proj2 (validate_required_count (L := exampleLib)
                     [argument "name" false; argument "title" true] ["Ada"; "Countess"]
                     (command "greet"
                        [Some (argument "name" false); Some (argument "title" true)]
                        goodHandler None) eq_refl nameThenTitle_wellFormed) _).
    vm_compute. lia.
Defined.

Lemma lookup_declared_name_witness :
  exists p,
    declaredAt [argument "name" false; argument "age" true] "age" p
    /\ (forall t, nth_error ["Ada"; "36"] p = Some t ->
          String_ (L := exampleLib)
            (newArgs ["Ada"; "36"]
               (command "greet" [Some (argument "name" false); Some (argument "age" true)]
                        goodHandler None)) "age" = Ok t)
    /\ (List.length ["Ada"; "36"] <= p ->
          String_ (L := exampleLib)
            (newArgs ["Ada"; "36"]
               (command "greet" [Some (argument "name" false); Some (argument "age" true)]
                        goodHandler None)) "age" = Ok "")
    /\ ((exists v,
           Int (L := exampleLib)
             (newArgs ["Ada"; "36"]
                (command "greet" [Some (argument "name" false); Some (argument "age" true)]
                         goodHandler None)) "age" = Panic v)
        <-> (List.length ["Ada"; "36"] <= p
             \/ exists t e, nth_error ["Ada"; "36"] p = Some t
                            /\ Atoi (GoLib := exampleLib) t = inr e))
    /\ (forall t z, nth_error ["Ada"; "36"] p = Some t ->
          Atoi (GoLib := exampleLib) t = inl z ->
          Int (L := exampleLib)
            (newArgs ["Ada"; "36"]
               (command "greet" [Some (argument "name" false); Some (argument "age" true)]
                        goodHandler None)) "age" = Ok z).
Proof.
  apply (lookup_declared_name (L := exampleLib)
           [argument "name" false; argument "age" true] ["Ada"; "36"]
           (command "greet" [Some (argument "name" false); Some (argument "age" true)]
                    goodHandler None) "age" eq_refl).
  - simpl. auto.
  - eexists. reflexivity.
Defined.


Lemma signature_mismatch_returned_witness :
  RunOpts (L := exampleLib) rejectEnv (Some ["run"]) None [command "run" [] noArgsParam None]
  = ([Stderr ("panic running command run at command.go:257: "
              ++ "invalid handler for command run: "
              ++ "function main.run must accept *command.Args as its first argument" ++ nl)],
     Ok (Some (NewError ("panic running command run at command.go:257: "
                         ++ "invalid handler for command run: "
                         ++ "function main.run must accept *command.Args as its first argument")))).
Proof.
  refine (signature_mismatch_returned (L := exampleLib) rejectEnv
            (Some ["run"]) None [command "run" [] noArgsParam None]
            [] "run" [] (command "run" [] noArgsParam None) None
            {| fn_name := "main.run"; fn_In := []; fn_Out := [errType]; fn_body := succeed |}
            (NewError "function main.run must accept *command.Args as its first argument")
            eq_refl eq_refl _).
  right. left. repeat split; reflexivity.
Defined.

(** The two other mismatches, through the whole of [RunOpts]: a second
    parameter that is not of the type of the options, and a result that
    is not an error. *)
Example RunOpts_wrong_options :
  RunOpts (L := exampleLib) rejectEnv (Some ["run"]) None
          [command "run" [] wrongOptions (Some loudOptions)]
  = ([Stderr ("panic running command run at command.go:257: "
              ++ "invalid handler for command run: "
              ++ "function main.run must accept *main.Options as its second argument" ++ nl)],
     Ok (Some (NewError ("panic running command run at command.go:257: "
                         ++ "invalid handler for command run: "
                         ++ "function main.run must accept *main.Options as its second argument")))).
Proof. reflexivity. Qed.

Example RunOpts_wrong_result :
  RunOpts (L := exampleLib) blindEnv (Some ["run"]) None [command "run" [] wrongResult None]
  = ([Stderr ("panic running command run: invalid handler for command run: "
              ++ "function main.run must return a value of type error, not int" ++ nl)],
     Ok (Some (NewError ("panic running command run: invalid handler for command run: "
                         ++ "function main.run must return a value of type error, not int")))).
Proof. reflexivity. Qed.

Lemma handler_panic_recovered_witness :
  exists msg,
    RunOpts (L := exampleLib) boomEnv (Some ["boom"; "now"]) None [boomCmd]
    = ([Stderr (msg ++ nl)], Ok (Some (NewError msg)))
    /\ msg = "panic running command boom at main.go:7: boom"
    /\ contains msg "boom".
Proof.
  exact (handler_panic_recovered (L := exampleLib) boomEnv
           (Some ["boom"; "now"]) None [boomCmd] [] [] "boom" ["now"] boomCmd None
           {| fn_name := "main.boom"; fn_In := [argsType]; fn_Out := [];
              fn_body := fun _ _ => Panics (PVString "boom") |}
           (newArgs ["now"] boomCmd) None (PVString "boom")
           eq_refl eq_refl eq_refl).
Defined.

(** Without a frame to point at, the message has no location. *)
Example RunOpts_panic_without_location :
  RunOpts (L := exampleLib) blindEnv (Some ["boom"]) None [boomCmd]
  = ([Stderr ("panic running command boom: boom" ++ nl)],
     Ok (Some (NewError "panic running command boom: boom"))).
Proof. reflexivity. Qed.

(** The location is the frame that called the runtime's panic function. *)
Example panicLocation_boom : panicLocation boomEnv = Some ("main.go", 7%Z).
Proof. reflexivity. Qed.

(** Flag names of some field identifiers. *)
Example defaultFieldName_examples :
  defaultFieldName (L := exampleLib) "Loud" = "loud"
  /\ defaultFieldName (L := exampleLib) "MaxDepth" = "max-depth"
  /\ defaultFieldName (L := exampleLib) "dryRun" = "dry-run"
  /\ defaultFieldName (L := exampleLib) "URL" = "u-r-l"
  /\ fieldFlagName (L := exampleLib)
       {| sf_Name := "Value"; sf_Tag_name := "v"; sf_Tag_help := "Some arbitrary value";
          sf_Type := TNamed "int"; sf_Kind := KInt; sf_exported := true;
          sf_isFlagValue := false; sf_value := "42" |} = "v".
Proof. repeat split. Qed.

(** The end-to-end example of the specification: [greet --loud Ada]
    calls the handler with the token [Ada] and the option set; [greet]
    alone lacks its required argument. *)
Example RunOpts_greet :
  RunOpts_prepare (L := exampleLib) blindEnv None None "greet" ["--loud"; "Ada"] greetCmd
  = ([], Next ({| fn_name := "main.greet";
                  fn_In := [argsType; TPtr (TNamed "main.Options")];
                  fn_Out := [errType]; fn_body := succeed |},
               newArgs ["Ada"] greetCmd,
               Some (PtrStruct "main.Options"
                       [{| sf_Name := "Loud"; sf_Tag_name := ""; sf_Tag_help := "speak up";
                           sf_Type := TNamed "bool"; sf_Kind := KBool; sf_exported := true;
                           sf_isFlagValue := false; sf_value := "true" |}])))
  /\ String_ (L := exampleLib) (newArgs ["Ada"] greetCmd) "name" = Ok "Ada"
  /\ RunOpts (L := exampleLib) blindEnv (Some ["greet"; "--loud"; "Ada"]) None [greetCmd]
     = ([], Ok None)
  /\ RunOpts (L := exampleLib) blindEnv (Some ["greet"]) None [greetCmd]
     = ([], Ok (Some (NewError "1 arguments required, but only 0 provided")))
  /\ snd (RunOpts (L := exampleLib) blindEnv (Some ["unknowncmd"]) None [greetCmd])
     = Ok (Some (UnknownCommandError "unknowncmd"))
  /\ snd (RunOpts (L := exampleLib) blindEnv (Some []) None [greetCmd])
     = Ok (Some ErrNoCommand).
Proof. repeat split. Qed.

(** * Further properties of the code *)

(** ** The dispatcher after the command is resolved *)

Lemma GoType_eqb_eq (a b : GoType) : GoType_eqb a b = true <-> a = b.
Proof.
  revert b. induction a as [| |x|a IH]; intros [| |y|b]; simpl;
    try (split; [discriminate|discriminate]); try tauto.
  - rewrite String.eqb_eq. split; congruence.
  - rewrite IH. split; congruence.
Qed.

Section DispatchMore.
Context {L : GoLib}.
Variable env : Env.


(** X2: what the handler returns is what [RunOpts] returns.  An error
    returned by a handler that declares a result is also printed, as
    [error running command <name>: <message>]; a handler without results
    makes [RunOpts] return nil. *)
Theorem handler_result_returned
  (argv : option (list string)) (opts : option Options) (commands : list Cmd)
  (out1 out2 : list Event) (name : string) (cmdArgs : list string) (c : Cmd)
  (gopts : option OptionsValue) (fn : FuncValue) (a : Args)
  (optsVal : option OptionsValue) (res : option error) :
  RunOpts_resolve env argv opts commands = (out1, Next (name, cmdArgs, c, gopts)) ->
  RunOpts_prepare env opts gopts name cmdArgs c = (out2, Next (fn, a, optsVal)) ->
  Call fn (numFnArgs optsVal) (args a) optsVal = Returns res ->
  RunOpts env argv opts commands
  = match fn_Out fn, res with
    | _ :: _, Some err =>
        ((out1 ++ out2
          ++ [Stderr ("error running command " ++ name ++ ": " ++ Error err ++ nl)])%list,
         Ok (Some err))
    | _, _ => ((out1 ++ out2)%list, Ok None)
    end.
Proof.
  intros Hres Hprep Hcall.
  rewrite (RunOpts_resolved env _ _ _ _ _ _ _ _ Hres), Hprep, bind_next.
  unfold RunOpts_invoke. rewrite Hcall. cbn [perform ret bind app].
  destruct (fn_Out fn) as [|t outs]; cbn [List.length Nat.ltb Nat.leb].
  - unfold return_. rewrite deferred_return. cbn [finish]. now rewrite app_nil_r.
  - destruct res as [err|]; unfold return_, write, bind; cbn [app];
      rewrite deferred_return; cbn [finish]; now rewrite ?app_nil_r.
Qed.

End DispatchMore.

(** ** Command lookup and help *)

(** X3: in a list of commands followed by more commands, lookup returns
    what it finds in the first list and turns to the second only when the
    first has no command of the name: the commands a [CommandProvider]
    adds, which [RunOpts] appends, never take the place of a command of
    the caller. *)
Theorem commandByName_append (commands more : list Cmd) (name : string) :
  commandByName (commands ++ more) name
  = match commandByName commands name with
    | Some c => Some c
    | None => commandByName more name
    end.
Proof.
  induction commands as [|v rest IH]; simpl; [reflexivity|].
  now destruct (String.eqb (cmd_Name v) name).
Qed.

Section HelpProofs.
Context {L : GoLib}.
Variable env : Env.

Lemma printHelp_nil (commands : list Cmd) :
  snd (printHelp env [] commands) = Next (Some ErrNoCommand).
Proof. reflexivity. Qed.

(** X4: [printHelp] never returns nil.  When it returns, the error is
    [ErrNoCommand] exactly for an empty token list, and otherwise either
    [ErrHelp] or the [UnknownCommandError] of a non-empty token that names
    no command: the first token, or the token after [help]. *)
Theorem printHelp_error (tokens : list string) (commands : list Cmd)
  (out : list Event) (err : option error) :
  printHelp env tokens commands = (out, Next err) ->
  (tokens = [] /\ err = Some ErrNoCommand)
  \/ (tokens <> [] /\ err = Some ErrHelp)
  \/ (exists u,
        u <> "" /\ commandByName commands u = None
        /\ (nth_error tokens 0 = Some u
            \/ (nth_error tokens 0 = Some "help" /\ nth_error tokens 1 = Some u))
        /\ err = Some (UnknownCommandError u)).
Proof.
  destruct tokens as [|a0 rest].
  - intros H. left. split; [reflexivity|].
    pose proof (printHelp_nil commands) as Hn. rewrite H in Hn. simpl in Hn. congruence.
  - unfold printHelp. cbv zeta.
    destruct (String.eqb a0 "help") eqn:Eh; cbn [negb andb].
    + apply String.eqb_eq in Eh. subst a0.
      destruct rest as [|a1 rest].
      * cbn. intros [= _ <-]. right. left. split; [discriminate|reflexivity].
      * destruct (commandByName commands a1) as [c|] eqn:Ec.
        -- intros H. right. left. split; [discriminate|].
           unfold bind in H. destruct (printCommandHelp env c) as [o [[]|e|v]];
             cbn in H; congruence.
        -- destruct (String.eqb a1 "") eqn:E1; cbn [negb].
           ++ cbn. intros [= _ <-]. right. left. split; [discriminate|reflexivity].
           ++ apply String.eqb_neq in E1. cbn. intros [= _ <-].
              right. right. exists a1. repeat split; auto.
    + destruct (commandByName commands a0) as [c|] eqn:Ec; cbn [isNil].
      * destruct rest; cbn; intros [= _ <-];
          right; left; (split; [discriminate|reflexivity]).
      * destruct (String.eqb a0 "") eqn:E0; cbn [negb].
        -- destruct rest; cbn; intros [= _ <-];
             right; left; (split; [discriminate|reflexivity]).
        -- apply String.eqb_neq in E0.
           destruct rest; cbn; intros [= _ <-];
             right; right; exists a0; repeat split; auto.
Qed.

End HelpProofs.

Section OutcomeProofs.
Context {L : GoLib}.
Variable env : Env.

(** [RunOpts] up to the lookup of the command, without [Options]. *)
Lemma RunOpts_resolve_plain (argv : option (list string)) (commands : list Cmd) :
  env_COMMAND_DUMP_HELP env = "" ->
  RunOpts_resolve env argv None commands
  = match (match argv with None => env_os_Args env | Some a => a end) with
    | [] => err <- printHelp env [] commands ;; return_ err
    | name :: cmdArgs =>
        if String.eqb name "help" then
          err <- printHelp env (name :: cmdArgs) commands ;; return_ err
        else
          match commandByName commands name with
          | None => err <- printHelp env (name :: cmdArgs) commands ;; return_ err
          | Some c => ret (name, cmdArgs, c, None)
          end
    end.
Proof.
  intros Hdump. unfold RunOpts_resolve. rewrite Hdump. cbn [String.eqb negb].
  unfold parseGlobalOptions, additionalCommands. cbn [ret bind app].
  rewrite app_nil_r.
  destruct (match argv with None => env_os_Args env | Some a => a end)
    as [|name cmdArgs].
  - destruct (printHelp env [] commands) as [o [e|e|v]]; reflexivity.
  - destruct (String.eqb name "help").
    + destruct (printHelp env (name :: cmdArgs) commands) as [o [e|e|v]]; reflexivity.
    + destruct (commandByName commands name); [reflexivity|].
      destruct (printHelp env (name :: cmdArgs) commands) as [o [e|e|v]]; reflexivity.
Qed.

(** X5: without [Options], and when no dump is asked for, [RunOpts] (and
    so [Run], which reads the arguments of the process) returns
    [ErrNoCommand] for no token, [ErrHelp] for the single token [help]
    whatever the commands are, and the [UnknownCommandError] of the token
    for a first token, or for a token after [help], that is not empty and
    names no command. *)
Theorem RunOpts_without_command (commands : list Cmd) :
  env_COMMAND_DUMP_HELP env = "" ->
  snd (RunOpts env (Some []) None commands) = Ok (Some ErrNoCommand)
  /\ (env_os_Args env = [] -> snd (Run env commands) = Ok (Some ErrNoCommand))
  /\ snd (RunOpts env (Some ["help"]) None commands) = Ok (Some ErrHelp)
  /\ (forall name rest,
        name <> "help" -> name <> "" -> commandByName commands name = None ->
        snd (RunOpts env (Some (name :: rest)) None commands)
        = Ok (Some (UnknownCommandError name)))
  /\ (forall name rest,
        name <> "" -> commandByName commands name = None ->
        snd (RunOpts env (Some ("help" :: name :: rest)) None commands)
        = Ok (Some (UnknownCommandError name))).
Proof.
  intros Hdump. repeat split.
  - unfold RunOpts. rewrite (RunOpts_resolve_plain _ _ Hdump). reflexivity.
  - intros Hargs. unfold Run, RunOpts.
    rewrite (RunOpts_resolve_plain _ _ Hdump), Hargs. reflexivity.
  - unfold RunOpts. rewrite (RunOpts_resolve_plain _ _ Hdump). reflexivity.
  - intros name rest Hh He Hc. unfold RunOpts.
    rewrite (RunOpts_resolve_plain _ _ Hdump).
    apply String.eqb_neq in Hh, He. rewrite Hh, Hc.
    unfold printHelp. rewrite Hh, Hc. cbn [negb andb isNil]. rewrite He.
    destruct rest; reflexivity.
  - intros name rest He Hc. unfold RunOpts.
    rewrite (RunOpts_resolve_plain _ _ Hdump). cbn [String.eqb Ascii.eqb Bool.eqb].
    apply String.eqb_neq in He.
    unfold printHelp. cbn [String.eqb Ascii.eqb Bool.eqb negb andb].
    rewrite Hc, He. reflexivity.
Qed.

(** X6: the empty token is not reported as an unknown command: when no
    command has the empty name, a run whose first token is empty shows
    the listing and returns [ErrHelp]. *)
Theorem RunOpts_empty_token (commands : list Cmd) (rest : list string) :
  env_COMMAND_DUMP_HELP env = "" ->
  commandByName commands "" = None ->
  RunOpts env (Some ("" :: rest)) None commands
  = ([StderrTable (map (fun v => (cmd_Name v, cmd_Help v)) commands
                   ++ [("help", "Print this help")])%list;
      Stderr (nl ++ "To view additional help for each command use help <command_name>"
              ++ nl)],
     Ok (Some ErrHelp)).
Proof.
  intros Hdump Hc. unfold RunOpts.
  rewrite (RunOpts_resolve_plain _ _ Hdump). cbn [String.eqb]. rewrite Hc.
  unfold printHelp. cbn [String.eqb negb andb]. rewrite Hc.
  destruct rest; reflexivity.
Qed.

End OutcomeProofs.

Section ModeProofs.
Context {L : GoLib}.
Variable env : Env.

Lemma dumpHelp_commands_plain (commands : list Cmd) (acc : list CommandHelp) :
  Forall (fun c => cmd_Options c = None) commands ->
  dumpHelp_commands commands acc
  = Ok ((acc ++ map plainCommandHelp commands)%list, None).
Proof.
  intros H. revert acc. induction H as [|c rest Hc _ IH]; intros acc; simpl.
  - now rewrite app_nil_r.
  - unfold commandHelp. rewrite Hc. simpl. rewrite IH.
    now rewrite <- app_assoc.
Qed.

(** X7: when the environment variable [COMMAND_DUMP_HELP] is set, a run
    without [Options] over commands without options writes the JSON
    document of the program name and of every command, in order, returns
    nil and dispatches nothing, whatever its arguments are. *)
Theorem RunOpts_dump (argv : option (list string)) (commands : list Cmd) :
  env_COMMAND_DUMP_HELP env <> "" ->
  Forall (fun c => cmd_Options c = None) commands ->
  RunOpts env argv None commands
  = ([StdoutJSON {| help_Name := env_arg0 env; help_Flags := [];
                    help_Commands := map plainCommandHelp commands |}],
     Ok None).
Proof.
  intros Hdump Hplain. apply String.eqb_neq in Hdump.
  unfold RunOpts, RunOpts_resolve. rewrite Hdump. cbn [negb].
  unfold dumpHelp. cbn [ret bind app lift].
  rewrite (dumpHelp_commands_plain commands [] Hplain). reflexivity.
Qed.

(** X8: of the errors of the validation of the arguments, [RunOpts]
    prints only [ErrUnusedArguments], as
    [command <name> does not accept any arguments]; it returns the error
    of too few tokens without printing anything, and goes on when the
    tokens are enough. *)
Theorem RunOpts_validate_output (name : string) (tokens : list string) (c : Cmd) :
  (cmd_Args c = NoArgs -> tokens <> [] ->
   RunOpts_validate name (newArgs tokens c)
   = ([Stderr ("command " ++ name ++ " does not accept any arguments" ++ nl)],
      Return (Some ErrUnusedArguments)))
  /\ (forall l,
        cmd_Args c = map Some l -> ~ requiredAfterOptional l ->
        (List.length tokens < required l ->
         RunOpts_validate name (newArgs tokens c)
         = ([], Return (Some (errInsufficient (required l) (List.length tokens)))))
        /\ (required l <= List.length tokens ->
            RunOpts_validate name (newArgs tokens c) = ([], Next tt))).
Proof.
  split.
  - intros Hc Ht. unfold RunOpts_validate, validate. simpl. rewrite Hc.
    destruct tokens; [congruence|reflexivity].
  - intros l Hc Hwf.
    pose proof (validate_arguments l tokens c Hc) as Hv.
    apply wellFormed_spec, wellFormed_first in Hwf. rewrite Hwf in Hv.
    unfold RunOpts_validate. rewrite Hv. split; intros H.
    + apply Nat.ltb_lt in H. rewrite H. reflexivity.
    + apply Nat.ltb_ge in H. rewrite H. reflexivity.
Qed.


(** X10: what goes wrong before the command is resolved is not
    recovered: [RunOpts] panics when the global options cannot be bound
    to flags, and when [BeforeFunc] panics. *)
Theorem RunOpts_panics_before_resolution
  (argv : option (list string)) (o : Options) (commands : list Cmd) :
  env_COMMAND_DUMP_HELP env = "" ->
  (forall v flags e,
     opt_Options o = Some v ->
     setupOptionsFlags env "" v = Ok (flags, Some e) ->
     RunOpts env argv (Some o) commands = ([], Panic (PVError e)))
  /\ (forall f v,
        opt_Options o = None -> opt_BeforeFunc o = Some f -> f None = Panics v ->
        RunOpts env argv (Some o) commands = ([], Panic v)).
Proof.
  intros Hdump. split.
  - intros v flags e Ho Hs. unfold RunOpts, RunOpts_resolve. rewrite Hdump.
    cbn [String.eqb negb]. unfold parseGlobalOptions. rewrite Ho, Hs. reflexivity.
  - intros f v Ho Hb Hf. unfold RunOpts, RunOpts_resolve. rewrite Hdump.
    cbn [String.eqb negb]. unfold parseGlobalOptions. rewrite Ho, Hb.
    cbn [ret bind app]. rewrite Hf. reflexivity.
Qed.

(** X11: the help of a command whose [Args] is [NoArgs] and whose [Usage]
    is not empty cannot be shown: the usage line is printed without
    looking at [hasArgs], and its loop over the arguments dereferences the
    nil pointer of [NoArgs].  The panic is raised in [printHelp], before
    anything is deferred, and leaves [RunOpts]. *)
Theorem help_NoArgs_with_usage_panics (c : Cmd) (commands : list Cmd) (rest : list string) :
  env_COMMAND_DUMP_HELP env = "" ->
  cmd_Args c = NoArgs ->
  cmd_Usage c <> "" ->
  commandByName commands (cmd_Name c) = Some c ->
  printCommandHelp env c
  = ([Stderr (cmd_Name c ++ ": " ++ cmd_Help c ++ nl);
      Stderr ("usage: " ++ env_arg0 env ++ " " ++ cmd_Name c);
      Stderr (" " ++ cmd_Usage c)],
     Panicked nilDeref)
  /\ snd (RunOpts env (Some ("help" :: cmd_Name c :: rest)) None commands)
     = Panic nilDeref.
Proof.
  intros Hdump Ha Hu Hc. apply String.eqb_neq in Hu.
  assert (Hp : printCommandHelp env c
               = ([Stderr (cmd_Name c ++ ": " ++ cmd_Help c ++ nl);
                   Stderr ("usage: " ++ env_arg0 env ++ " " ++ cmd_Name c);
                   Stderr (" " ++ cmd_Usage c)],
                  Panicked nilDeref)).
  { unfold printCommandHelp. rewrite Hu, Ha. reflexivity. }
  split; [exact Hp|].
  unfold RunOpts. rewrite (RunOpts_resolve_plain env _ _ Hdump).
  cbn [String.eqb Ascii.eqb Bool.eqb].
  unfold printHelp. cbn [String.eqb Ascii.eqb Bool.eqb negb andb].
  rewrite Hc, Hp. reflexivity.
Qed.

End ModeProofs.

(** ** Binding a struct to flags *)

Section BindingProofs.
Context {L : GoLib}.
Variable env : Env.

Lemma bindable_spec (f : StructField) :
  bindable f = true ->
  sf_exported f = true /\ String.eqb (fieldFlagName f) "" = false
  /\ forall flags,
       setupVisitor (fieldFlagName f) (fieldFlagHelp f) f flags
       = register flags (flagDefOf f).
Proof.
  unfold bindable. intros H.
  apply andb_true_iff in H. destruct H as (H & Hty).
  apply andb_true_iff in H. destruct H as (Hexp & Hname).
  apply negb_true_iff in Hname. repeat split; auto.
  intros flags. unfold setupVisitor, flagDefOf.
  destruct (sf_isFlagValue f); [reflexivity|]. cbn [orb] in Hty.
  destruct (sf_Kind f); cbn [kindBinding] in *; try discriminate;
    rewrite Hty; reflexivity.
Qed.

Lemma visitStruct_fields_binds (setName typ : string) (fields : list StructField)
  (done : list StructField) :
  Forall (fun f => bindable f = true) fields ->
  flagsAccepted setName (done ++ fields) ->
  visitStruct_fields setupVisitor typ fields
    {| fs_name := setName; fs_flags := map flagDefOf done |}
  = Ok ({| fs_name := setName; fs_flags := map flagDefOf (done ++ fields) |}, None).
Proof.
  intros Hall. revert done. induction Hall as [|f rest Hf _ IH]; intros done Hacc.
  - simpl. now rewrite app_nil_r.
  - destruct (bindable_spec f Hf) as (Hexp & Hname & Hvis).
    cbn [visitStruct_fields]. rewrite Hexp, Hname, Hvis. cbn [negb].
    unfold register. rewrite (Hacc done f rest eq_refl). cbn [rbind fs_name fs_flags].
    replace (map flagDefOf done ++ [flagDefOf f])%list
      with (map flagDefOf (done ++ [f])) by now rewrite map_app.
    rewrite IH.
    + now rewrite <- app_assoc.
    + now rewrite <- app_assoc.
Qed.

(** X12: for a pointer to a struct whose fields can all be bound, and
    whose flags the flag package accepts, [setupOptionsFlags] succeeds and
    defines one flag per field, in declaration order: its name is the
    flag name of the field, its help the help tag, and its default the
    value the field holds. *)
Theorem setupOptionsFlags_binds (name typ : string) (fields : list StructField) :
  Forall (fun f => bindable f = true) fields ->
  flagsAccepted (flagSetName env name) fields ->
  setupOptionsFlags env name (PtrStruct typ fields)
  = Ok (Some {| fs_name := flagSetName env name; fs_flags := map flagDefOf fields |},
        None).
Proof.
  intros Hall Hacc. unfold setupOptionsFlags. cbn [visitStruct].
  assert (Hn : (if negb (String.eqb name "")
                then env_arg0 env ++ " " ++ name ++ " subcommand"
                else env_arg0 env) = flagSetName env name).
  { unfold flagSetName. now destruct (String.eqb name ""). }
  rewrite Hn.
  pose proof (visitStruct_fields_binds (flagSetName env name) typ fields [] Hall Hacc)
    as Hv.
  cbn [map app] in Hv. rewrite Hv. reflexivity.
Qed.

(** X13: binding stops at the first field that cannot be bound.  After
    fields that are bound, a field that is neither a [flag.Value] nor of a
    supported kind makes [setupOptionsFlags] return the error
    [field <name> has invalid option type <type>], and a field that is not
    exported makes it panic. *)
Theorem setupOptionsFlags_stops (name typ : string)
  (pre post : list StructField) (f : StructField) :
  Forall (fun f => bindable f = true) pre ->
  flagsAccepted (flagSetName env name) pre ->
  (sf_exported f = true -> fieldFlagName f <> "" -> sf_isFlagValue f = false ->
   sf_Kind f = KOther ->
   setupOptionsFlags env name (PtrStruct typ (pre ++ f :: post))
   = Ok (Some {| fs_name := flagSetName env name; fs_flags := map flagDefOf pre |},
         Some (NewError ("field " ++ sf_Name f ++ " has invalid option type "
                         ++ type_String (sf_Type f)))))
  /\ (sf_exported f = false ->
      setupOptionsFlags env name (PtrStruct typ (pre ++ f :: post))
      = Panic (PVString
          "reflect.Value.Interface: cannot return value obtained from unexported field or method")).
Proof.
  intros Hall Hacc.
  assert (Hn : (if negb (String.eqb name "")
                then env_arg0 env ++ " " ++ name ++ " subcommand"
                else env_arg0 env) = flagSetName env name).
  { unfold flagSetName. now destruct (String.eqb name ""). }
  assert (Hpre : forall (done : list StructField),
            flagsAccepted (flagSetName env name) (done ++ pre) ->
            visitStruct_fields setupVisitor typ (pre ++ f :: post)
              {| fs_name := flagSetName env name; fs_flags := map flagDefOf done |}
            = visitStruct_fields setupVisitor typ (f :: post)
                {| fs_name := flagSetName env name;
                   fs_flags := map flagDefOf (done ++ pre) |}).
  { clear Hacc. induction Hall as [|g rest Hg _ IH]; intros done Hacc.
    - simpl. now rewrite app_nil_r.
    - destruct (bindable_spec g Hg) as (Hexp & Hname & Hvis).
      cbn [visitStruct_fields app]. rewrite Hexp, Hname, Hvis. cbn [negb].
      unfold register. rewrite (Hacc done g rest eq_refl). cbn [rbind fs_name fs_flags].
      replace (map flagDefOf done ++ [flagDefOf g])%list
        with (map flagDefOf (done ++ [g])) by now rewrite map_app.
      rewrite IH; now rewrite <- app_assoc. }
  specialize (Hpre [] Hacc). cbn [map app] in Hpre.
  split.
  - intros Hexp Hname Hfv Hk. apply String.eqb_neq in Hname.
    unfold setupOptionsFlags. cbn [visitStruct]. rewrite Hn, Hpre.
    cbn [visitStruct_fields]. rewrite Hexp, Hname. cbn [negb].
    unfold setupVisitor. rewrite Hfv, Hk. reflexivity.
  - intros Hexp. unfold setupOptionsFlags. cbn [visitStruct]. rewrite Hn, Hpre.
    cbn [visitStruct_fields]. rewrite Hexp. reflexivity.
Qed.

Lemma setupVisitor_ok (name help : string) (f : StructField) (flags flags' : FlagSet) :
  setupVisitor name help f flags = Ok (flags', None) ->
  (sf_isFlagValue f = true \/ sf_Kind f <> KOther)
  /\ exists d, fs_flags flags' = (fs_flags flags ++ [d])%list
               /\ flagDefTriple d = (name, help, sf_value f).
Proof.
  unfold setupVisitor.
  assert (Hreg : forall kind,
            register flags {| fd_name := name; fd_help := help; fd_kind := kind;
                              fd_default := sf_value f |} = Ok (flags', None) ->
            exists d, fs_flags flags' = (fs_flags flags ++ [d])%list
                      /\ flagDefTriple d = (name, help, sf_value f)).
  { intros kind. unfold register. destruct (flag_Var flags _); [discriminate|].
    intros [= <-]. eexists. split; reflexivity. }
  destruct (sf_isFlagValue f).
  - intros H. split; [now left|]. eapply Hreg; eauto.
  - destruct (sf_Kind f);
      try (match goal with
           | |- context [GoType_eqb ?a ?b] => destruct (GoType_eqb a b)
           end; [|discriminate];
           intros H; split; [right; discriminate|eapply Hreg; eauto]).
    discriminate.
Qed.

Lemma flagsVisitor_ok (name help : string) (f : StructField) (acc : list Flag) :
  sf_isFlagValue f = true \/ sf_Kind f <> KOther ->
  exists x, flagsVisitor name help f acc = Ok ((acc ++ [x])%list, None)
            /\ flagTriple x = (name, help, sf_value f).
Proof.
  intros H. unfold flagsVisitor. destruct (sf_isFlagValue f).
  - eexists. split; reflexivity.
  - destruct H as [H|H]; [discriminate|].
    destruct (sf_Kind f); try congruence; eexists; split; reflexivity.
Qed.

Lemma visit_setup_then_help (typ : string) (fields : list StructField)
  (flags flags' : FlagSet) (acc : list Flag) :
  visitStruct_fields setupVisitor typ fields flags = Ok (flags', None) ->
  map flagTriple acc = map flagDefTriple (fs_flags flags) ->
  exists acc',
    visitStruct_fields flagsVisitor typ fields acc = Ok (acc', None)
    /\ map flagTriple acc' = map flagDefTriple (fs_flags flags').
Proof.
  revert flags acc. induction fields as [|f rest IH]; intros flags acc Hs Hacc.
  - simpl in Hs. injection Hs as <-. exists acc. split; [reflexivity|exact Hacc].
  - cbn [visitStruct_fields] in *.
    destruct (sf_exported f); cbn [negb] in *; [|discriminate].
    destruct (String.eqb (fieldFlagName f) ""); [discriminate|].
    destruct (setupVisitor (fieldFlagName f) (fieldFlagHelp f) f flags)
      as [[flags1 [e|]]|v] eqn:Ev; cbn [rbind] in Hs; try discriminate.
    destruct (setupVisitor_ok _ _ _ _ _ Ev) as (Hkind & d & Hd & Htriple).
    destruct (flagsVisitor_ok (fieldFlagName f) (fieldFlagHelp f) f acc Hkind)
      as (x & Hx & Hxt).
    rewrite Hx. cbn [rbind]. apply (IH flags1); [exact Hs|].
    rewrite Hd, !map_app, Hacc. cbn [map]. now rewrite Hxt, Htriple.
Qed.

(** X14: whenever [setupOptionsFlags] binds a struct to flags, the dump of
    its flags by [flagsHelp] succeeds too, and lists flags of the same
    names, help texts and defaults, in the same order. *)
Theorem flagsHelp_agrees (name typ : string) (fields : list StructField) (flags : FlagSet) :
  setupOptionsFlags env name (PtrStruct typ fields) = Ok (Some flags, None) ->
  exists dumped,
    flagsHelp (PtrStruct typ fields) = Ok (dumped, None)
    /\ map flagTriple dumped = map flagDefTriple (fs_flags flags).
Proof.
  unfold setupOptionsFlags, flagsHelp. cbn [visitStruct].
  destruct (visitStruct_fields setupVisitor typ fields _) as [[flags1 err]|v] eqn:Ev;
    cbn [rbind]; [|discriminate].
  destruct err as [e|].
  - destruct e; intros H; try discriminate;
      destruct (negb (String.eqb name "")); discriminate.
  - intros [= <-].
    destruct (visit_setup_then_help typ fields _ flags1 [] Ev eq_refl)
      as (acc' & Hv & Ht).
    rewrite Hv. cbn [rbind]. exists acc'. split; [reflexivity|exact Ht].
Qed.

End BindingProofs.

(** ** The stack walk of the recovery *)

Section RecoveryProofs.
Context {L : GoLib}.
Variable env : Env.

Lemma getPanic_scan_last (calls : list Frame) (skip n : nat) (r : Z * Z * N * bool) :
  getPanic_scan calls skip n = Some r ->
  exists ii f name,
    ii < n /\ nth_error calls ii = Some f /\ fr_func f = Some name
    /\ isPanicFrame name = true
    /\ r = panicResult (skip + ii) name (fr_pc f)
    /\ forall j g, ii < j < n -> nth_error calls j = Some g -> isPanicFunc g = false.
Proof.
  induction n as [|n IH]; [discriminate|]. cbn [getPanic_scan].
  assert (Hnext : getPanic_scan calls skip n = Some r ->
                  (forall g, nth_error calls n = Some g -> isPanicFunc g = false) ->
                  exists ii f name,
                    ii < S n /\ nth_error calls ii = Some f /\ fr_func f = Some name
                    /\ isPanicFrame name = true
                    /\ r = panicResult (skip + ii) name (fr_pc f)
                    /\ forall j g, ii < j < S n -> nth_error calls j = Some g ->
                                   isPanicFunc g = false).
  { intros H Hn. destruct (IH H) as (ii & f & name & Hlt & Hf & Hname & Hp & Hr & Hlast).
    exists ii, f, name. repeat split; auto. intros j g Hj Hg.
    destruct (Nat.eq_dec j n) as [->|Hne]; [now apply Hn|].
    apply (Hlast j g); [lia|exact Hg]. }
  destruct (nth_error calls n) as [f|] eqn:Ef; [|intros H; apply Hnext; [exact H|discriminate]].
  destruct (fr_func f) as [name|] eqn:En.
  - destruct (isPanicFrame name) eqn:Ep.
    + intros [= <-]. exists n, f, name. repeat split; auto; [|intros; lia].
      unfold panicResult. rewrite Nat2Z.inj_add. reflexivity.
    + intros H. apply Hnext; [exact H|]. intros g [= <-].
      unfold isPanicFunc. now rewrite En.
  - intros H. apply Hnext; [exact H|]. intros g [= <-].
    unfold isPanicFunc. now rewrite En.
Qed.

Lemma nth_error_block (stack : list Frame) (skip j : nat) :
  j < 10 ->
  nth_error (firstn 10 (skipn skip stack)) j = nth_error stack (skip + j).
Proof.
  intros Hj. rewrite nth_error_firstn.
  destruct (j <? 10) eqn:E; [|apply Nat.ltb_ge in E; lia].
  now rewrite nth_error_skipn.
Qed.

Lemma getPanic_loop_frame (fuel k : nat) (a b : Z) (pc : N) :
  (forall j f, j < 10 * k -> nth_error (env_stack env) j = Some f ->
               isPanicFunc f = false) ->
  getPanic_loop env fuel (10 * k) = (a, b, pc, true) ->
  exists i f name,
    nth_error (env_stack env) i = Some f /\ fr_func f = Some name
    /\ isPanicFrame name = true
    /\ (a, b, pc, true) = panicResult i name (fr_pc f)
    /\ lastPanicOfFirstBlock (env_stack env) i.
Proof.
  revert k. induction fuel as [|fuel IH]; intros k Hbefore; [discriminate|].
  cbn [getPanic_loop].
  set (calls := firstn 10 (skipn (10 * k) (env_stack env))).
  assert (Hc : List.length calls <= 10) by (unfold calls; rewrite length_firstn; lia).
  destruct (List.length calls =? 0) eqn:E0; [discriminate|].
  destruct (getPanic_scan calls (10 * k) (List.length calls)) as [r|] eqn:Es.
  - intros ->.
    destruct (getPanic_scan_last _ _ _ _ Es)
      as (ii & f & name & Hlt & Hf & Hname & Hp & Hr & Hlast).
    unfold calls in Hf. rewrite nth_error_block in Hf by lia.
    exists (10 * k + ii), f, name. repeat split; auto.
    exists k. split; [lia|]. intros j g Hj Hg Hpg.
    destruct (Nat.lt_ge_cases j (10 * k)) as [Hlo|Hlo].
    { rewrite (Hbefore j g Hlo Hg) in Hpg. discriminate. }
    split; [exact Hlo|].
    destruct (Nat.le_gt_cases j (10 * k + ii)) as [Hhi|Hhi]; [exact Hhi|].
    assert (Hg' : nth_error calls (j - 10 * k) = Some g).
    { unfold calls. rewrite nth_error_block by lia.
      now replace (10 * k + (j - 10 * k)) with j by lia. }
    assert (Hjc : j - 10 * k < List.length calls).
    { apply nth_error_Some. congruence. }
    rewrite (Hlast (j - 10 * k) g) in Hpg; [discriminate|lia|exact Hg'].
  - intros H.
    pose proof (getPanic_scan_none _ _ _ Es) as Hnone.
    destruct (Nat.eq_dec (List.length calls) 10) as [Hfull|Hshort].
    + rewrite Hfull in H. replace (10 * k + 10) with (10 * S k) in H by lia.
      apply (IH (S k)); [|exact H].
      intros j f Hj Hf.
      destruct (Nat.lt_ge_cases j (10 * k)) as [Hlo|Hlo]; [now apply (Hbefore j f)|].
      apply (Hnone (j - 10 * k) f); [lia|].
      unfold calls. rewrite nth_error_block by lia.
      now replace (10 * k + (j - 10 * k)) with j by lia.
    + exfalso. destruct fuel as [|fuel]; [discriminate|].
      cbn [getPanic_loop] in H.
      assert (Hrest : List.length (skipn (10 * k) (env_stack env)) < 10).
      { unfold calls in Hc, Hshort. rewrite length_firstn in Hc, Hshort. lia. }
      rewrite length_skipn in Hrest.
      assert (Hempty : skipn (10 * k + List.length calls) (env_stack env) = []).
      { apply skipn_all2. unfold calls. rewrite length_firstn, length_skipn. lia. }
      rewrite Hempty in H. discriminate.
Qed.

(** X15: when [getPanic] reports a frame, that frame is a frame of the
    stack whose function is a panic function of the runtime; the first
    result is its index minus one, the second is that number for
    [runtime.panic], two less for [runtime.sigpanic] and one less for any
    other function, the third is its program counter.  The frame is the
    last panic frame within the first block of ten frames that holds one.
    When [getPanic] reports none, the stack holds no such frame and the
    other results are zero. *)
Theorem getPanic_frame (a b : Z) (pc : N) (ok : bool) :
  getPanic env = (a, b, pc, ok) ->
  if ok then
    exists i f name,
      nth_error (env_stack env) i = Some f /\ fr_func f = Some name
      /\ isPanicFrame name = true
      /\ (a, b, pc, ok) = panicResult i name (fr_pc f)
      /\ lastPanicOfFirstBlock (env_stack env) i
  else
    (a, b, pc) = (0%Z, 0%Z, 0%N) /\ existsb isPanicFunc (env_stack env) = false.
Proof.
  intros H. destruct ok.
  - unfold getPanic in H.
    apply (getPanic_loop_frame (S (List.length (env_stack env))) 0); [intros; lia|exact H].
  - split.
    + unfold getPanic in H. revert H.
      generalize (S (List.length (env_stack env))), 0.
      intros fuel. induction fuel as [|fuel IH]; intros skip; cbn [getPanic_loop].
      * now intros [= <- <- <-].
      * destruct (_ =? 0); [now intros [= <- <- <-]|].
        destruct (getPanic_scan _ _ _) as [r|] eqn:Es; [|apply IH].
        destruct (getPanic_scan_found _ _ _ _ Es) as (Hok & _).
        intros ->. discriminate.
    + rewrite <- getPanic_found, H. reflexivity.
Qed.


End RecoveryProofs.

(** ** More on flag names *)

Section NameProofs.
Context {L : GoLib}.

Lemma encodeRune_nonempty (r : rune) : encodeRune r <> "".
Proof.
  unfold encodeRune.
  repeat match goal with
         | |- context [if ?b then _ else _] => destruct b
         end; discriminate.
Qed.

Lemma string_of_runes_nonempty (rs : list rune) :
  rs <> [] -> string_of_runes rs <> "".
Proof.
  destruct rs as [|r rs]; [congruence|]. intros _. cbn [string_of_runes].
  pose proof (encodeRune_nonempty r) as Hr.
  destruct (encodeRune r); [congruence|discriminate].
Qed.

Lemma hyphenate_at_nonempty (i : nat) (rs : list rune) :
  rs <> [] -> hyphenate_at i rs <> [].
Proof.
  destruct rs as [|r rs]; [congruence|]. intros _. cbn [hyphenate_at].
  unfold hyphenateRune. destruct (IsUpper r); [|discriminate].
  destruct (i =? 0); discriminate.
Qed.

Lemma runes_of_nonempty (s : string) : s <> "" -> runes_of s <> [].
Proof.
  destruct s as [|a s]; [congruence|]. intros _. unfold runes_of.
  cbn [String.length runes_of_fuel].
  destruct (DecodeRuneInString (String a s)). discriminate.
Qed.

Lemma fieldFlagName_nonempty (f : StructField) :
  sf_Name f <> "" -> fieldFlagName f <> "".
Proof.
  intros Hn. unfold fieldFlagName.
  destruct (String.eqb (sf_Tag_name f) "") eqn:E; cbn [negb].
  - rewrite defaultFieldName_derived. unfold derivedName, hyphenate.
    now apply string_of_runes_nonempty, hyphenate_at_nonempty, runes_of_nonempty.
  - now apply String.eqb_neq in E.
Qed.

Lemma hyphenate_at_lowercase (i : nat) (rs : list rune) :
  Forall (fun r => IsUpper r = false) rs -> hyphenate_at i rs = rs.
Proof.
  intros H. revert i. induction H as [|r rs Hr _ IH]; intros i; [reflexivity|].
  cbn [hyphenate_at]. unfold hyphenateRune. rewrite Hr, IH. reflexivity.
Qed.

(** X17: a field with an identifier has a flag name: the name derived
    from a non-empty identifier is not empty.  So for a struct of such
    fields [visitStruct] never returns its error
    [no name provided for field ...]: an error it returns for these
    fields is one its visitor returned for one of them. *)
Theorem visitStruct_error_from_visitor :
  (forall name, name <> "" -> defaultFieldName name <> "")
  /\ (forall f, sf_Name f <> "" -> fieldFlagName f <> "")
  /\ (forall (S' : Type)
             (visitor : string -> string -> StructField -> S' -> Result (S' * option error))
             (typ : string) (fields : list StructField) (st st' : S') (e : error),
        Forall (fun f => sf_Name f <> "") fields ->
        visitStruct visitor (PtrStruct typ fields) st = Ok (st', Some e) ->
        exists f st0,
          In f fields
          /\ visitor (fieldFlagName f) (fieldFlagHelp f) f st0 = Ok (st', Some e)).
Proof.
  split; [|split].
  - intros name Hn. rewrite defaultFieldName_derived. unfold derivedName, hyphenate.
    now apply string_of_runes_nonempty, hyphenate_at_nonempty, runes_of_nonempty.
  - exact fieldFlagName_nonempty.
  - intros S' visitor typ fields st st' e Hall. cbn [visitStruct].
    revert st. induction Hall as [|f rest Hf _ IH]; intros st; [discriminate|].
    cbn [visitStruct_fields].
    destruct (sf_exported f); cbn [negb]; [|discriminate].
    pose proof (fieldFlagName_nonempty f Hf) as Hname.
    apply String.eqb_neq in Hname. rewrite Hname.
    destruct (visitor (fieldFlagName f) (fieldFlagHelp f) f st)
      as [[st1 [e1|]]|v] eqn:Ev; cbn [rbind]; [| |discriminate].
    + intros [= <- <-]. exists f, st. split; [now left|exact Ev].
    + intros H. destruct (IH st1 H) as (g & st0 & Hin & Hg).
      exists g, st0. split; [now right|exact Hg].
Qed.

(** X18: the name derived from an identifier without uppercase runes is
    the identifier itself, for an identifier that is the UTF-8 encoding of
    scalar values. *)
Theorem defaultFieldName_lowercase (rs : list rune) :
  Forall (fun r => validRune r = true) rs ->
  Forall (fun r => IsUpper r = false) rs ->
  defaultFieldName (string_of_runes rs) = string_of_runes rs.
Proof.
  intros Hvalid Hlower. rewrite defaultFieldName_derived. unfold derivedName, hyphenate.
  rewrite runes_of_string_of_runes by exact Hvalid.
  now rewrite hyphenate_at_lowercase.
Qed.

End NameProofs.

(** ** More on the arguments *)

Section ArgumentsMore.
Context {L : GoLib}.

Lemma wellFormed_required_position (l : list Argument) (p : nat) (a : Argument) :
  firstRequiredAfterOptional l = None ->
  nth_error l p = Some a -> arg_Optional a = false ->
  p < required l.
Proof.
  revert p. induction l as [|b rest IH]; intros p Hwf Hp Ha; [now destruct p|].
  rewrite required_cons. cbn [firstRequiredAfterOptional] in Hwf.
  destruct (arg_Optional b) eqn:Eb.
  - exfalso. destruct p as [|p]; cbn [nth_error] in Hp.
    + injection Hp as ->. congruence.
    + apply nth_error_In in Hp.
      pose proof (find_none _ _ Hwf a Hp) as Hreq.
      unfold isRequired in Hreq. rewrite Ha in Hreq. discriminate.
  - destruct p as [|p]; [lia|]. cbn [nth_error] in Hp.
    specialize (IH p Hwf Hp Ha). lia.
Qed.

(** X19: once [validate] has accepted the tokens, every required argument
    has one: [String] with the name of a required argument returns the
    token at the position where the name is declared, not the empty string
    of a missing token. *)
Theorem required_argument_has_token
  (l : list Argument) (tokens : list string) (c : Cmd) (p : nat) (a : Argument) :
  cmd_Args c = map Some l ->
  validate (newArgs tokens c) = Ok None ->
  nth_error l p = Some a ->
  arg_Optional a = false ->
  exists q t,
    declaredAt l (arg_Name a) q
    /\ nth_error tokens q = Some t
    /\ String_ (newArgs tokens c) (arg_Name a) = Ok t.
Proof.
  intros Hc Hv Hp Ha.
  rewrite (validate_arguments l tokens c Hc) in Hv.
  destruct (firstRequiredAfterOptional l) as [b|] eqn:Ewf; [discriminate|].
  destruct (List.length tokens <? required l) eqn:Elen; [discriminate|].
  apply Nat.ltb_ge in Elen.
  pose proof (wellFormed_required_position l p a Ewf Hp Ha) as Hpos.
  assert (Hin : In (arg_Name a) (map arg_Name l)).
  { apply in_map. eapply nth_error_In; eauto. }
  destruct (argumentPos_declared l (arg_Name a) 0 Hin) as (q & Hdecl & Hq).
  assert (Hqp : q <= p).
  { destruct (Nat.le_gt_cases q p) as [H|H]; [exact H|].
    destruct Hdecl as (_ & Hfirst). now destruct (Hfirst p a H Hp). }
  destruct (nth_error tokens q) as [t|] eqn:Et.
  - exists q, t. split; [exact Hdecl|]. split; [exact Et|].
    unfold String_, argumentPos. cbn [cmd newArgs]. rewrite Hc, Hq. cbn [rbind Nat.add].
    now rewrite (proj1 (StringAt_spec tokens c q) t Et).
  - apply nth_error_None in Et. lia.
Qed.

Lemma DeepEqual_NoArgs (l : list (option Argument)) :
  DeepEqual l NoArgs = true <-> l = NoArgs.
Proof.
  unfold NoArgs. destruct l as [|[a|] [|b l]]; cbn; split; congruence.
Qed.

Lemma validate_loop_nil_optional (pre : list Argument) (rest : list (option Argument))
  (req : nat) :
  validate_loop (map Some pre ++ None :: rest) true req
  = match find isRequired pre with
    | Some b => Ok (Some (errAfterOptional b), req)
    | None => Panic nilDeref
    end.
Proof.
  induction pre as [|a pre IH]; [reflexivity|]. cbn [map app validate_loop find].
  unfold isRequired at 1. destruct (arg_Optional a); cbn [negb]; [exact IH|reflexivity].
Qed.

Lemma validate_loop_nil (pre : list Argument) (rest : list (option Argument)) (req : nat) :
  exists req',
    validate_loop (map Some pre ++ None :: rest) false req
    = match firstRequiredAfterOptional pre with
      | Some b => Ok (Some (errAfterOptional b), req')
      | None => Panic nilDeref
      end.
Proof.
  revert req. induction pre as [|a pre IH]; intros req.
  - exists req. reflexivity.
  - cbn [map app validate_loop firstRequiredAfterOptional].
    destruct (arg_Optional a).
    + exists req. apply validate_loop_nil_optional.
    + apply IH.
Qed.

(** X20: [validate] dereferences every pointer of [Args] it reaches.  For
    a sequence that holds a nil pointer, and is not treated as [NoArgs]
    with leftover tokens, it panics with a nil dereference, unless a
    required argument after an optional one stands before the nil pointer,
    in which case it returns the error for that argument. *)
Theorem validate_nil_pointer
  (pre : list Argument) (rest : list (option Argument)) (tokens : list string) (c : Cmd) :
  cmd_Args c = (map Some pre ++ None :: rest)%list ->
  cmd_Args c <> NoArgs \/ tokens = [] ->
  validate (newArgs tokens c)
  = match firstRequiredAfterOptional pre with
    | Some b => Ok (Some (errAfterOptional b))
    | None => Panic nilDeref
    end.
Proof.
  intros Hc Hno. unfold validate. cbn [cmd args newArgs].
  assert (Hfirst : DeepEqual (cmd_Args c) NoArgs && (0 <? List.length tokens) = false).
  { destruct Hno as [Hne| ->]; [|apply andb_false_r].
    destruct (DeepEqual (cmd_Args c) NoArgs) eqn:E; [|reflexivity].
    apply DeepEqual_NoArgs in E. contradiction. }
  rewrite Hfirst, Hc.
  destruct (validate_loop_nil pre rest 0) as (req' & ->).
  destruct (firstRequiredAfterOptional pre); reflexivity.
Qed.

(** X21: the lookup of a name by [String] and [Int] dereferences the
    pointers of [Args] up to the declaration of the name: with a nil
    pointer before any argument of that name, both panic with a nil
    dereference, whether the name is declared later or not. *)
Theorem String_nil_before_name
  (pre : list Argument) (rest : list (option Argument)) (tokens : list string) (c : Cmd)
  (name : string) :
  cmd_Args c = (map Some pre ++ None :: rest)%list ->
  Forall (fun a => arg_Name a <> name) pre ->
  String_ (newArgs tokens c) name = Panic nilDeref
  /\ Int (newArgs tokens c) name = Panic nilDeref.
Proof.
  intros Hc Hpre.
  assert (Hpos : forall ii, argumentPos_loop (map Some pre ++ None :: rest) ii name
                            = Panic nilDeref).
  { clear Hc. induction Hpre as [|a pre Ha _ IH]; intros ii; [reflexivity|].
    cbn [map app argumentPos_loop]. apply String.eqb_neq in Ha. rewrite Ha. apply IH. }
  assert (HS : String_ (newArgs tokens c) name = Panic nilDeref).
  { unfold String_, argumentPos. cbn [cmd newArgs]. rewrite Hc, Hpos. reflexivity. }
  split; [exact HS|]. unfold Int. rewrite HS. reflexivity.
Qed.

End ArgumentsMore.

(** ** Hooks, flags and help *)

Section HookProofs.
Context {L : GoLib}.
Variable env : Env.

(** X22: an error returned by [BeforeFunc] is returned by [RunOpts] at
    once: nothing is printed, no help is shown and no command is looked
    up, whatever the tokens and the commands are. *)
Theorem BeforeFunc_error_returned
  (argv : option (list string)) (o : Options) (commands : list Cmd)
  (f : option OptionsValue -> CallOutcome) (e : error) :
  env_COMMAND_DUMP_HELP env = "" ->
  opt_Options o = None ->
  opt_BeforeFunc o = Some f ->
  f None = Returns (Some e) ->
  RunOpts env argv (Some o) commands = ([], Ok (Some e)).
Proof.
  intros Hdump Ho Hb Hf. unfold RunOpts, RunOpts_resolve. rewrite Hdump.
  cbn [String.eqb negb]. unfold parseGlobalOptions. rewrite Ho, Hb.
  cbn [ret bind app]. rewrite Hf. reflexivity.
Qed.

Lemma prepare_until_hook (o : Options) (gopts : option OptionsValue) (name : string)
  (cmdArgs : list string) (c : Cmd) (fn : FuncValue)
  (f : Cmd -> option OptionsValue -> CallOutcome) :
  cmd_Func c = Fn fn ->
  validateCmdFuncReturn fn = None ->
  cmd_Options c = None ->
  validateCmdFuncInput fn None = None ->
  opt_Func o = Some f ->
  RunOpts_prepare env (Some o) gopts name cmdArgs c
  = (err <- perform (f c gopts) ;;
     match err with
     | Some e => return_ (Some e)
     | None => ret tt
     end) ;;;
    RunOpts_validate name (newArgs cmdArgs c) ;;;
    ret (fn, newArgs cmdArgs c, None).
Proof.
  intros Hf Hr Ho Hi Hh. unfold RunOpts_prepare. rewrite Hf, Ho, Hh.
  cbn [ret bind app]. rewrite Hr. cbn [ret bind app]. rewrite Hi.
  cbn [ret bind app].
  destruct (bind (bind (perform (f c gopts)) _) _) as [out [a|err|v]]; reflexivity.
Qed.

(** X23: [Options.Func] is called for the resolved command once its
    handler has passed the signature checks.  An error it returns is
    returned by [RunOpts] without printing anything, before the arguments
    are validated and without calling the handler; a panic it raises is
    recovered like a panic of the handler. *)
Theorem Func_hook_outcome
  (argv : option (list string)) (o : Options) (commands : list Cmd) (out : list Event)
  (name : string) (cmdArgs : list string) (c : Cmd) (gopts : option OptionsValue)
  (fn : FuncValue) (f : Cmd -> option OptionsValue -> CallOutcome) :
  RunOpts_resolve env argv (Some o) commands = (out, Next (name, cmdArgs, c, gopts)) ->
  cmd_Func c = Fn fn ->
  validateCmdFuncReturn fn = None ->
  cmd_Options c = None ->
  validateCmdFuncInput fn None = None ->
  opt_Func o = Some f ->
  (forall e, f c gopts = Returns (Some e) ->
             RunOpts env argv (Some o) commands = (out, Ok (Some e)))
  /\ (forall v, f c gopts = Panics v ->
                RunOpts env argv (Some o) commands
                = ((out ++ [Stderr (panicMessage env c v ++ nl)])%list,
                   Ok (Some (NewError (panicMessage env c v))))).
Proof.
  intros Hres Hf Hr Ho Hi Hh.
  pose proof (prepare_until_hook o gopts name cmdArgs c fn f Hf Hr Ho Hi Hh) as Hprep.
  split.
  - intros e He. rewrite (RunOpts_resolved env _ _ _ _ _ _ _ _ Hres), Hprep, He.
    cbn [perform ret return_ bind app]. rewrite deferred_return. cbn [finish].
    now rewrite app_nil_r.
  - intros v Hv.
    rewrite (RunOpts_recovers env _ _ _ out [] name cmdArgs c gopts v Hres);
      [reflexivity|].
    rewrite Hprep, Hv. reflexivity.
Qed.


Lemma printUsageArgs_some (l : list Argument) :
  printUsageArgs (map Some l) = (map usageToken l, Next tt).
Proof.
  induction l as [|v l IH]; [reflexivity|].
  cbn [map printUsageArgs]. rewrite IH. reflexivity.
Qed.

Lemma printArgsHelp_some (l : list Argument) :
  printArgsHelp (map Some l) = (map argumentLine l, Next tt).
Proof.
  induction l as [|v l IH]; [reflexivity|].
  cbn [map printArgsHelp]. rewrite IH. reflexivity.
Qed.

Lemma hasArgs_some (c : Cmd) (l : list Argument) :
  cmd_Args c = map Some l ->
  hasArgs c = match l with [] => false | _ :: _ => true end.
Proof.
  intros Hc. unfold hasArgs. rewrite Hc, DeepEqual_map_Some.
  destruct l; reflexivity.
Qed.

(** X25: the help of a command without options whose [Args] holds no nil
    pointer is printed without a panic.  It is the line of the name and
    the short help; a usage line when [Usage] is not empty or there are
    arguments, with every argument in order and the optional ones in
    brackets; the long help when it is not empty; and, when there are
    arguments, one line per argument with its help.  Asked for by
    [help <name>], it makes [RunOpts] return [ErrHelp]. *)
Theorem printCommandHelp_output (c : Cmd) (l : list Argument) :
  cmd_Args c = map Some l ->
  cmd_Options c = None ->
  printCommandHelp env c = (commandHelpText env c l, Next tt)
  /\ (forall commands rest,
        env_COMMAND_DUMP_HELP env = "" ->
        commandByName commands (cmd_Name c) = Some c ->
        RunOpts env (Some ("help" :: cmd_Name c :: rest)) None commands
        = (commandHelpText env c l, Ok (Some ErrHelp))).
Proof.
  intros Hc Ho.
  assert (Hp : printCommandHelp env c = (commandHelpText env c l, Next tt)).
  { unfold printCommandHelp, commandHelpText.
    rewrite Ho, (hasArgs_some c l Hc), Hc, printUsageArgs_some, printArgsHelp_some.
    destruct (negb (String.eqb (cmd_Usage c) "")), (negb (String.eqb (cmd_LongHelp c) ""));
      destruct l as [|v l]; cbn [when orb ret write bind app map];
      rewrite ?app_nil_r; try reflexivity;
      repeat (rewrite <- ?app_assoc; cbn [app]); reflexivity. }
  split; [exact Hp|].
  intros commands rest Hdump Hfound. unfold RunOpts.
  rewrite (RunOpts_resolve_plain env _ _ Hdump).
  cbn [String.eqb Ascii.eqb Bool.eqb].
  unfold printHelp. cbn [String.eqb Ascii.eqb Bool.eqb negb andb].
  rewrite Hfound, Hp. cbn [ret return_ bind app finish].
  now rewrite !app_nil_r.
Qed.

End HookProofs.

(** ** The documentation tool *)

(** Turns the tests of the context into arithmetic. *)
Ltac test_facts :=
  repeat match goal with
  | H : (_ && _)%bool = true |- _ => apply andb_true_iff in H; destruct H
  | H : negb _ = false |- _ => apply negb_false_iff in H
  | H : negb _ = true |- _ => apply negb_true_iff in H
  | H : (_ <=? _)%N = true |- _ => apply N.leb_le in H
  | H : (_ <=? _)%N = false |- _ => apply N.leb_gt in H
  | H : (_ <? _)%N = true |- _ => apply N.ltb_lt in H
  | H : (_ <? _)%N = false |- _ => apply N.ltb_ge in H
  | H : (_ =? _)%N = true |- _ => apply N.eqb_eq in H
  | H : (_ =? _)%N = false |- _ => apply N.eqb_neq in H
  end.

Lemma shiftl_mul (a k : N) : N.shiftl a k = (a * 2 ^ k)%N.
Proof. apply N.shiftl_mul_pow2. Qed.

(** A byte of a multi-byte sequence starts no ASCII rune: the decoder
    yields a rune past the ASCII range, and the bytes it consumes are all
    past that range. *)
Lemma DecodeRuneInString_high (s : string) :
  (128 <= byte_at s 0)%N ->
  (128 <= fst (DecodeRuneInString s))%N
  /\ 1 <= snd (DecodeRuneInString s)
  /\ forall i, i < snd (DecodeRuneInString s) -> (128 <= byte_at s i)%N.
Proof.
  intros H0. unfold DecodeRuneInString.
  destruct s as [|a s]; [cbn in H0; lia|].
  cbn [String.length Nat.ltb Nat.leb].
  destruct (byte_at (String a s) 0 <? 128)%N eqn:E0; [apply N.ltb_lt in E0; lia|].
  assert (Hone : (128 <= RuneError)%N /\ 1 <= 1
                 /\ forall i, i < 1 -> (128 <= byte_at (String a s) i)%N).
  { split; [unfold RuneError; lia|]. split; [lia|].
    intros i Hi. now replace i with 0 by lia. }
  set (s0 := byte_at (String a s) 0) in *.
  set (s1 := byte_at (String a s) 1) in *.
  set (s2 := byte_at (String a s) 2) in *.
  set (s3 := byte_at (String a s) 3) in *.
  assert (Hbytes : forall n i,
            i < n -> n <= 4 ->
            (1 < n -> (128 <= s1)%N) -> (2 < n -> (128 <= s2)%N) ->
            (3 < n -> (128 <= s3)%N) ->
            (128 <= byte_at (String a s) i)%N).
  { intros n i Hi Hn H1 H2 H3.
    destruct i as [|[|[|[|i]]]]; [exact H0|apply H1|apply H2|apply H3|]; lia. }
  unfold lead_info, in_range.
  repeat match goal with
         | |- context [if ?b then _ else _] => destruct b eqn:?; cbn [negb Nat.leb]
         end;
    try exact Hone; test_facts; cbn [fst snd];
    (split; [|split; [lia|intros i Hi; eapply Hbytes; [exact Hi|lia|lia..]]]);
    rewrite !shiftl_mul, ?land7, ?land15, ?land31, ?land63;
    first [ rewrite lor4 by arith | rewrite lor3 by arith | rewrite lor2 by arith ];
    arith.
Qed.

Lemma DecodeRuneInString_low (a : ascii) (s : string) :
  (N_of_ascii a < 128)%N ->
  DecodeRuneInString (String a s) = (N_of_ascii a, 1).
Proof.
  intros Ha. unfold DecodeRuneInString. cbn [String.length Nat.ltb Nat.leb].
  unfold byte_at. cbn [String.get]. apply N.ltb_lt in Ha. now rewrite Ha.
Qed.

Lemma substring_0_0 (s : string) : substring 0 0 s = "".
Proof. now destruct s. Qed.

Lemma substring_n_0 (n : nat) (s : string) : substring n 0 s = "".
Proof.
  revert s. induction n as [|n IH]; intros s; [apply substring_0_0|].
  destruct s; [reflexivity|apply IH].
Qed.

Lemma substring_slice_from (n m : nat) (s : string) :
  substring n m s = substring 0 m (slice_from n s).
Proof.
  revert s. induction n as [|n IH]; intros s; [reflexivity|].
  destruct s as [|a s]; [now destruct m|apply IH].
Qed.

Lemma substring_add (n m : nat) (s : string) :
  substring 0 (n + m) s = substring 0 n s ++ substring 0 m (slice_from n s).
Proof.
  revert s. induction n as [|n IH]; intros s.
  - cbn [Nat.add slice_from]. now rewrite substring_0_0.
  - destruct s as [|a s]; [now destruct m|].
    cbn [Nat.add substring slice_from append]. now rewrite IH.
Qed.

Lemma substring_all (s : string) : substring 0 (String.length s) s = s.
Proof. induction s as [|a s IH]; [reflexivity|]. cbn. now rewrite IH. Qed.

Lemma prefix_slice_from (n : nat) (s : string) :
  substring 0 n s ++ slice_from n s = s.
Proof.
  revert s. induction n as [|n IH]; intros s.
  - now rewrite substring_0_0.
  - destruct s as [|a s]; [reflexivity|]. cbn. now rewrite IH.
Qed.

Lemma slice_empty (s : string) (ii : nat) : slice s ii ii = "".
Proof. unfold slice. rewrite Nat.sub_diag. apply substring_n_0. Qed.

Lemma slice_extend (s : string) (start ii k : nat) :
  start <= ii ->
  slice s start (ii + k) = slice s start ii ++ substring 0 k (slice_from ii s).
Proof.
  intros Hle. unfold slice.
  rewrite (substring_slice_from start (ii + k - start)),
          (substring_slice_from start (ii - start)).
  replace (ii + k - start) with ((ii - start) + k) by lia.
  rewrite substring_add, slice_from_add.
  now replace (start + (ii - start)) with ii by lia.
Qed.

Lemma needsEscape_ascii (c : N) : needsEscape c = true -> (c < 128)%N.
Proof.
  unfold needsEscape. cbn [existsb].
  repeat match goal with
         | |- context [(c =? ?k)%N] => destruct (N.eqb_spec c k); [subst; reflexivity|]
         end.
  discriminate.
Qed.

Lemma indentation_high (w : nat) (nw : bool) (c : N) :
  (128 <= c)%N -> indentation w nw c = (w, true) /\ needsEscape c = false.
Proof.
  intros Hc. split.
  - unfold indentation.
    destruct (N.eqb_spec c 32); [lia|]. destruct (N.eqb_spec c 10); [lia|]. reflexivity.
  - destruct (needsEscape c) eqn:E; [|reflexivity].
    apply needsEscape_ascii in E. lia.
Qed.

Lemma escapeBytes_high (n : nat) (s : string) (w : nat) (nw : bool) :
  1 <= n ->
  (forall i, i < n -> (128 <= byte_at s i)%N) ->
  escapeBytes w nw s = substring 0 n s ++ escapeBytes w true (slice_from n s).
Proof.
  revert s w nw. induction n as [|n IH]; intros s w nw Hn Hhigh; [lia|].
  destruct s as [|a s]; [specialize (Hhigh 0 Hn); cbn in Hhigh; lia|].
  assert (Ha : (128 <= N_of_ascii a)%N) by exact (Hhigh 0 Hn).
  destruct (indentation_high w nw _ Ha) as (Hi & He).
  cbn [escapeBytes substring slice_from]. rewrite Hi, He, andb_false_r.
  cbn [append]. f_equal.
  destruct n as [|n].
  - now rewrite substring_0_0.
  - apply IH; [lia|]. intros i Hlt. exact (Hhigh (S i) ltac:(lia)).
Qed.

(** One round of the loop, on the bytes left to read. *)
Lemma escapeBytes_step (todo : string) (w : nat) (nw : bool) :
  todo <> "" ->
  escapeBytes w nw todo
  = let '(c, size) := DecodeRuneInString todo in
    let '(w1, nw1) := indentation w nw c in
    (if (w1 <? 4) && needsEscape c then backslash ++ encodeRune c
     else substring 0 size todo)
    ++ escapeBytes w1 nw1 (slice_from size todo).
Proof.
  destruct todo as [|a rest]; [congruence|]. intros _.
  destruct (N.lt_ge_cases (N_of_ascii a) 128) as [Hlow|Hhigh].
  - rewrite (DecodeRuneInString_low a rest Hlow). cbn [escapeBytes slice_from].
    destruct (indentation w nw (N_of_ascii a)) as [w1 nw1].
    assert (Henc : encodeRune (N_of_ascii a) = String a "").
    { unfold encodeRune. apply N.ltb_lt in Hlow. rewrite Hlow.
      unfold byte_string. cbn [map string_of_list_ascii].
      now rewrite ascii_N_embedding. }
    rewrite Henc. cbn [substring]. now rewrite substring_0_0.
  - pose proof (DecodeRuneInString_high (String a rest) Hhigh) as (Hc & Hsize & Hbytes).
    destruct (DecodeRuneInString (String a rest)) as [c size]. cbn [fst snd] in *.
    destruct (indentation_high w nw c Hc) as (-> & ->). rewrite andb_false_r.
    now apply escapeBytes_high.
Qed.

Lemma markdownEscape_loop_spec (s : string) (fuel ii start w : nat) (nw : bool)
  (buf : string) :
  start <= ii <= String.length s ->
  String.length s - ii <= fuel ->
  let '(start', buf') := markdownEscape_loop fuel s ii start w nw buf in
  (start' = start -> buf' = buf)
  /\ start <= start'
  /\ buf' ++ slice s start' (String.length s)
     = buf ++ slice s start ii ++ escapeBytes w nw (slice_from ii s).
Proof.
  revert ii start w nw buf. induction fuel as [|fuel IH]; intros ii start w nw buf Hii Hfuel.
  - cbn [markdownEscape_loop]. split; [auto|]. split; [lia|].
    assert (ii = String.length s) as -> by lia.
    pose proof (slice_from_length (String.length s) s) as Hlen.
    rewrite Nat.sub_diag in Hlen.
    destruct (slice_from (String.length s) s); [|discriminate].
    cbn [escapeBytes]. now rewrite append_nil_r.
  - cbn [markdownEscape_loop].
    destruct (ii <? String.length s) eqn:E.
    + apply Nat.ltb_lt in E.
      pose proof (slice_from_length ii s) as Hlen.
      assert (Htodo : slice_from ii s <> "").
      { intros H. rewrite H in Hlen. cbn in Hlen. lia. }
      rewrite (escapeBytes_step (slice_from ii s) w nw Htodo).
      pose proof (DecodeRuneInString_size (slice_from ii s) Htodo) as Hsize.
      assert (Hmax : snd (DecodeRuneInString (slice_from ii s))
                     <= String.length (slice_from ii s)).
      { unfold DecodeRuneInString.
        destruct (String.length (slice_from ii s)) as [|n] eqn:En; [lia|].
        cbn [Nat.ltb Nat.leb].
        repeat match goal with
               | |- context [if ?b then _ else _] => destruct b eqn:?
               | |- context [match ?o with Some _ => _ | None => _ end] =>
                   destruct o as [[[? ?] ?]|] eqn:?
               end; cbn [snd]; try lia.
        all: unfold lead_info in *;
          repeat match goal with
                 | H : (if ?b then _ else _) = Some _ |- _ =>
                     destruct b; [injection H as <- <- <-|]
                 end; try discriminate; cbn in *;
          repeat match goal with
                 | H : (_ <=? _) = _ |- _ => first [apply Nat.leb_le in H|apply Nat.leb_gt in H]
                 | H : (_ <? _) = _ |- _ => first [apply Nat.ltb_lt in H|apply Nat.ltb_ge in H]
                 end; lia. }
      destruct (DecodeRuneInString (slice_from ii s)) as [c size]. cbn [snd] in *.
      destruct (indentation w nw c) as [w1 nw1].
      rewrite slice_from_add.
      destruct ((w1 <? 4) && needsEscape c).
      * specialize (IH (ii + size) (ii + size) w1 nw1
                       (buf ++ slice s start ii ++ backslash ++ encodeRune c)
                       ltac:(lia) ltac:(lia)).
        destruct (markdownEscape_loop fuel s (ii + size) (ii + size) w1 nw1 _)
          as [start' buf'].
        destruct IH as (_ & Hle & Heq).
        split; [intros; lia|]. split; [lia|].
        rewrite Heq, slice_empty. cbn [append].
        now rewrite !append_assoc.
      * specialize (IH (ii + size) start w1 nw1 buf ltac:(lia) ltac:(lia)).
        destruct (markdownEscape_loop fuel s (ii + size) start w1 nw1 buf)
          as [start' buf'].
        destruct IH as (Hsame & Hle & Heq).
        split; [exact Hsame|]. split; [exact Hle|].
        rewrite Heq, slice_extend by lia. now rewrite !append_assoc.
    + apply Nat.ltb_ge in E. split; [auto|]. split; [lia|].
      assert (ii = String.length s) as -> by lia.
      pose proof (slice_from_length (String.length s) s) as Hlen.
      rewrite Nat.sub_diag in Hlen.
      destruct (slice_from (String.length s) s); [|discriminate].
      cbn [escapeBytes]. now rewrite append_nil_r.
Qed.

(** With fuel for every byte, the loop of [markdownEscape] computes the
    byte-wise escaping. *)
Lemma markdownEscape_fuel (s : string) (fuel : nat) :
  String.length s <= fuel ->
  (let '(start, buf) := markdownEscape_loop fuel s 0 0 0 false "" in
   if start =? 0 then s else buf ++ slice s start (String.length s))
  = escapeBytes 0 false s.
Proof.
  intros Hfuel.
  pose proof (markdownEscape_loop_spec s fuel 0 0 0 false ""
                ltac:(lia) ltac:(lia)) as H.
  destruct (markdownEscape_loop fuel s 0 0 0 false "") as [start buf].
  destruct H as (Hsame & _ & Heq).
  rewrite slice_empty in Heq. cbn [append slice_from] in Heq.
  destruct (start =? 0) eqn:E.
  - apply Nat.eqb_eq in E. subst start. rewrite (Hsame eq_refl) in Heq.
    cbn [append] in Heq. unfold slice in Heq.
    now rewrite Nat.sub_0_r, substring_all in Heq.
  - exact Heq.
Qed.

Lemma markdownEscape_escapeBytes (s : string) :
  markdownEscape s = escapeBytes 0 false s.
Proof. exact (markdownEscape_fuel s (String.length s) (le_n _)). Qed.

(** X26: [markdownEscape] reads its argument rune by rune, and yet what
    it returns is determined byte by byte, for every string, well-formed
    UTF-8 or not: each byte among the escaped characters gets a backslash
    before it, unless its line starts with four or more spaces, and every
    other byte is copied.  Its loop ends within as many rounds as the
    string has bytes: more fuel gives the same result. *)
Theorem markdownEscape_bytewise (s : string) :
  markdownEscape s = escapeBytes 0 false s
  /\ forall fuel,
       String.length s <= fuel ->
       (let '(start, buf) := markdownEscape_loop fuel s 0 0 0 false "" in
        if start =? 0 then s else buf ++ slice s start (String.length s))
       = markdownEscape s.
Proof.
  split; [apply markdownEscape_escapeBytes|].
  intros fuel Hfuel. rewrite markdownEscape_escapeBytes.
  now apply markdownEscape_fuel.
Qed.

Lemma escapeBytes_plain (s : string) (w : nat) (nw : bool) :
  Forall (fun a => needsEscape (N_of_ascii a) = false) (list_ascii_of_string s) ->
  escapeBytes w nw s = s.
Proof.
  revert w nw. induction s as [|a s IH]; intros w nw H; [reflexivity|].
  cbn [list_ascii_of_string] in H. inversion H as [|x xs Ha Hs]; subst.
  cbn [escapeBytes]. destruct (indentation w nw (N_of_ascii a)) as [w1 nw1].
  rewrite Ha, andb_false_r, IH by exact Hs. reflexivity.
Qed.

Lemma escapeBytes_indented (s : string) (w : nat) (nw : bool) :
  4 <= w ->
  Forall (fun a => a <> newline) (list_ascii_of_string s) ->
  escapeBytes w nw s = s.
Proof.
  revert w nw. induction s as [|a s IH]; intros w nw Hw H; [reflexivity|].
  cbn [list_ascii_of_string] in H. inversion H as [|x xs Ha Hs]; subst.
  cbn [escapeBytes].
  assert (Hnl : (N_of_ascii a =? 10)%N = false).
  { apply N.eqb_neq. intros Heq. apply Ha.
    rewrite <- (ascii_N_embedding a), Heq. reflexivity. }
  unfold indentation. rewrite Hnl.
  destruct ((N_of_ascii a =? 32)%N && negb nw).
  - replace (S w <? 4) with false by (symmetry; apply Nat.ltb_ge; lia).
    cbn [andb append]. now rewrite IH by (auto; lia).
  - replace (w <? 4) with false by (symmetry; apply Nat.ltb_ge; lia).
    cbn [andb append]. now rewrite IH by (auto; lia).
Qed.

Lemma escapeBytes_spaces (k w : nat) (t : string) :
  escapeBytes w false (Repeat " " k ++ t) = Repeat " " k ++ escapeBytes (w + k) false t.
Proof.
  revert w. induction k as [|k IH]; intros w.
  - cbn [Repeat append]. now rewrite Nat.add_0_r.
  - cbn [Repeat append escapeBytes].
    change (N_of_ascii " ") with 32%N.
    change (indentation w false 32%N) with (S w, false).
    change (needsEscape 32%N) with false.
    cbv beta iota. rewrite andb_false_r. cbn [append]. rewrite IH.
    now replace (S w + k) with (w + S k) by lia.
Qed.

(** X27: what [markdownEscape] leaves alone.  A text without any of the
    escaped characters is returned as it is, and so is a single line that
    starts with four or more spaces, whatever characters follow them. *)
Theorem markdownEscape_unchanged :
  (forall s,
     Forall (fun a => needsEscape (N_of_ascii a) = false) (list_ascii_of_string s) ->
     markdownEscape s = s)
  /\ (forall k t,
        4 <= k ->
        Forall (fun a => a <> newline) (list_ascii_of_string t) ->
        markdownEscape (Repeat " " k ++ t) = Repeat " " k ++ t).
Proof.
  split.
  - intros s H. rewrite markdownEscape_escapeBytes. now apply escapeBytes_plain.
  - intros k t Hk Ht. rewrite markdownEscape_escapeBytes, escapeBytes_spaces.
    now rewrite escapeBytes_indented by (auto; lia).
Qed.

Lemma splitLines_nonempty (s : string) : splitLines s <> [].
Proof.
  destruct s as [|a s]; [discriminate|]. cbn [splitLines].
  destruct (Ascii.eqb a newline); [discriminate|].
  destruct (splitLines s); discriminate.
Qed.

Lemma splitLines_Repeat (k : nat) (t : string) :
  splitLines (Repeat " " k ++ t)
  = match splitLines t with
    | l :: ls => (Repeat " " k ++ l) :: ls
    | [] => [Repeat " " k]
    end.
Proof.
  pose proof (splitLines_nonempty t) as Hne.
  induction k as [|k IH]; cbn [Repeat append].
  - destruct (splitLines t); [congruence|reflexivity].
  - cbn [splitLines]. change (Ascii.eqb " " newline) with false. cbv beta iota.
    rewrite IH. destruct (splitLines t); [congruence|reflexivity].
Qed.

Lemma append_cancel (p s t : string) : p ++ s = p ++ t -> s = t.
Proof.
  induction p as [|a p IH]; cbn [append]; [auto|].
  intros [= H]. auto.
Qed.

Lemma splitLines_Replace (k : nat) (s : string) :
  splitLines (Repeat " " k ++ Replace s newline (nl ++ Repeat " " k))
  = map (append (Repeat " " k)) (splitLines s).
Proof.
  induction s as [|a s IH].
  - cbn [Replace splitLines map]. rewrite splitLines_Repeat. reflexivity.
  - cbn [Replace splitLines]. unfold nl in *. cbn [append] in *.
    set (R := Replace s newline (String (ascii_of_nat 10) (Repeat " " k))) in *.
    destruct (Ascii.eqb a newline) eqn:E.
    + rewrite splitLines_Repeat. cbn [append splitLines].
      change (Ascii.eqb (ascii_of_nat 10) newline) with true. cbv beta iota.
      rewrite IH. reflexivity.
    + rewrite splitLines_Repeat in *. cbn [append splitLines]. rewrite E.
      pose proof (splitLines_nonempty R) as Hne.
      destruct (splitLines R) as [|l ls]; [congruence|].
      destruct (splitLines s) as [|l' ls']; [discriminate|].
      cbn [map] in *. injection IH as Hl Hls. subst ls.
      apply append_cancel in Hl. now subst l'.
Qed.

(** X28: for a positive number of spaces [mardownEscapeMultiline] indents
    every line of the escaped text by that many spaces, adding and
    removing no line; for zero or a negative number it returns the escaped
    text. *)
Theorem mardownEscapeMultiline_lines (s : string) (spaces : Z) :
  ((0 < spaces)%Z ->
   splitLines (mardownEscapeMultiline s spaces)
   = map (append (Repeat " " (Z.to_nat spaces))) (splitLines (markdownEscape s)))
  /\ ((spaces <= 0)%Z -> mardownEscapeMultiline s spaces = markdownEscape s).
Proof.
  unfold mardownEscapeMultiline. split; intros H.
  - apply Z.ltb_lt in H. rewrite H. apply splitLines_Replace.
  - apply Z.ltb_ge in H. now rewrite H.
Qed.

(** ** The earlier signature checks *)

Lemma GoType_eqb_refl (a : GoType) : GoType_eqb a a = true.
Proof. now apply GoType_eqb_eq. Qed.

Lemma GoType_eqb_neq (a b : GoType) : GoType_eqb a b = false <-> a <> b.
Proof.
  split.
  - intros H ->. rewrite GoType_eqb_refl in H. discriminate.
  - intros H. destruct (GoType_eqb a b) eqn:E; [|reflexivity].
    apply GoType_eqb_eq in E. contradiction.
Qed.

Lemma skipn_nth (A : Type) (l : list A) (n : nat) (d : A) :
  n < List.length l -> skipn n l = nth n l d :: skipn (S n) l.
Proof.
  revert n. induction l as [|x l IH]; intros n Hn; [simpl in Hn; lia|].
  destruct n as [|n]; [reflexivity|]. cbn [skipn nth].
  rewrite IH by (simpl in Hn; lia). reflexivity.
Qed.

(** The mandatory parameters are accepted exactly when they are the
    parameters of the function from index [n] on. *)
Lemma validateArguments_mandatory (val : FuncValue) (m : list GoType) (n : nat) :
  (firstn (List.length m) (skipn n (fn_In val)) = m ->
   Legacy.validateArguments val n m true = (n + List.length m, None))
  /\ (firstn (List.length m) (skipn n (fn_In val)) <> m ->
      exists e, Legacy.validateArguments val n m true = (0, Some e)).
Proof.
  revert n. induction m as [|v m IH]; intros n.
  - cbn. split; [intros _; f_equal; lia|congruence].
  - cbn [Legacy.validateArguments List.length negb].
    destruct (List.length (fn_In val) <=? n) eqn:E.
    + apply Nat.leb_le in E. rewrite skipn_all2 by exact E. cbn [firstn].
      split; [discriminate|]. intros _. eexists. reflexivity.
    + apply Nat.leb_gt in E. rewrite (skipn_nth _ _ _ v E). cbn [firstn].
      destruct (GoType_eqb (nth n (fn_In val) v) v) eqn:Ev; cbn [negb].
      * apply GoType_eqb_eq in Ev. rewrite Ev.
        destruct (IH (S n)) as (Hok & Hbad). split.
        -- intros [= H]. rewrite (Hok H). f_equal. lia.
        -- intros H. apply Hbad. congruence.
      * apply GoType_eqb_neq in Ev. split; [congruence|].
        intros _. eexists. reflexivity.
Qed.

Lemma firstn_all_eq (A : Type) (l m : list A) :
  List.length l = List.length m -> firstn (List.length m) l = m -> l = m.
Proof. intros Hlen H. rewrite <- Hlen, firstn_all in H. exact H. Qed.

Lemma GoType_eq_dec (a b : GoType) : {a = b} + {a <> b}.
Proof.
  destruct (GoType_eqb a b) eqn:E.
  - left. now apply GoType_eqb_eq.
  - right. now apply GoType_eqb_neq.
Qed.

(** The check of the mandatory types from index [n] on passes and
    leaves no parameter exactly when the mandatory types are the
    parameters from [n] on. *)
Lemma mandatory_last (val : FuncValue) (m : list GoType) (n n1 : nat)
  (err : option error) :
  n <= List.length (fn_In val) ->
  Legacy.validateArguments val n m true = (n1, err) ->
  (err = None /\ n1 = List.length (fn_In val)) <-> skipn n (fn_In val) = m.
Proof.
  intros Hn Hv. destruct (validateArguments_mandatory val m n) as (Hok & Hbad).
  pose proof (length_skipn n (fn_In val)) as Hlen.
  destruct (list_eq_dec GoType_eq_dec (firstn (List.length m) (skipn n (fn_In val))) m)
    as [Heq|Hne].
  - rewrite (Hok Heq) in Hv. injection Hv as <- <-. split.
    + intros (_ & E). apply firstn_all_eq; [lia|exact Heq].
    + intros H. split; [reflexivity|]. rewrite H in Hlen. lia.
  - destruct (Hbad Hne) as (e & He). rewrite He in Hv. injection Hv as <- <-. split.
    + intros (H & _). discriminate.
    + intros H. exfalso. apply Hne. rewrite H. apply firstn_all.
Qed.

(** X29: the handlers the earlier check accepts, for a first parameter
    type [a] that is optional and mandatory types [m] (the type of the
    options, if any).  A function is accepted exactly when its parameters
    are [a] followed by [m], or just [m]; but the check matches [a]
    greedily, so a function whose parameters are [m] is refused when [m]
    starts with [a]. *)
Theorem Legacy_handler_parameters (val : FuncValue) (a : GoType) (m : list GoType) :
  Legacy.validateFuncInput val [a] m true = None
  <-> (fn_In val = a :: m \/ (fn_In val = m /\ hd_error m <> Some a)).
Proof.
  assert (Hopt : exists n0,
            Legacy.validateArguments val 0 [a] false = (n0, None)
            /\ n0 <= List.length (fn_In val)
            /\ ((n0 = 1 /\ exists ins, fn_In val = a :: ins)
                \/ (n0 = 0 /\ hd_error (fn_In val) <> Some a))).
  { cbn [Legacy.validateArguments negb].
    destruct (fn_In val) as [|x ins].
    - exists 0. cbn. split; [reflexivity|]. split; [lia|]. right. split; [lia|discriminate].
    - cbn [List.length Nat.leb nth].
      destruct (GoType_eqb x a) eqn:Ex; cbn [negb].
      + apply GoType_eqb_eq in Ex. subst x. exists 1. split; [reflexivity|].
        split; [lia|]. left. split; [reflexivity|]. now exists ins.
      + apply GoType_eqb_neq in Ex. exists 0. split; [reflexivity|].
        split; [lia|]. right. split; [reflexivity|]. cbn. congruence. }
  destruct Hopt as (n0 & Hv0 & Hle & Hcase).
  unfold Legacy.validateFuncInput. cbn [Legacy.validateFuncInput_loop].
  rewrite Hv0.
  destruct (Legacy.validateArguments val n0 m true) as [n1 err] eqn:Hv1.
  pose proof (mandatory_last val m n0 n1 err Hle Hv1) as Hlast.
  assert (Hres : (match err with
                  | Some e => Some e
                  | None =>
                      if negb (n1 =? List.length (fn_In val)) then
                        Some (NewError ("function " ++ fn_name val ++ " has "
                                        ++ fmt_d (List.length (fn_In val) - n1)
                                        ++ " unused arguments of types "
                                        ++ Legacy.Join
                                             (map type_String (skipn n1 (fn_In val))) ", "))
                      else None
                  end) = None <-> skipn n0 (fn_In val) = m).
  { rewrite <- Hlast. destruct err as [e|].
    - split; [discriminate|]. intros (H & _). discriminate.
    - destruct (n1 =? List.length (fn_In val)) eqn:E; cbn [negb].
      + apply Nat.eqb_eq in E. tauto.
      + apply Nat.eqb_neq in E. split; [discriminate|]. intros (_ & H). contradiction. }
  destruct err as [e|]; cbv beta iota; rewrite Hres; clear Hres Hlast Hv1;
    (destruct Hcase as [(-> & ins & Hins)|(-> & Hhd)];
     [ rewrite Hins; cbn [skipn]; split;
       [ intros <-; now left
       | intros [[= H]|(H & Hm)]; [exact H|rewrite <- H in Hm; now destruct Hm] ]
     | cbn [skipn]; split;
       [ intros H; right; split; [exact H|now rewrite <- H]
       | intros [H|(H & _)]; [rewrite H in Hhd; now destruct Hhd|exact H] ] ]).
Qed.

Lemma validateArguments_bound (val : FuncValue) (args : list GoType) (mandatory : bool)
  (n : nat) :
  fst (Legacy.validateArguments val n args mandatory) <= n + List.length args.
Proof.
  revert n. induction args as [|v args IH]; intros n; [cbn; lia|].
  cbn [Legacy.validateArguments List.length].
  destruct (List.length (fn_In val) <=? n).
  - destruct (negb mandatory); cbn; lia.
  - destruct (negb (GoType_eqb (nth n (fn_In val) v) v)).
    + destruct (negb mandatory); [|cbn; lia].
      specialize (IH n). lia.
    + specialize (IH (S n)). lia.
Qed.

(** X30: the hooks the earlier check accepts, for mandatory types [m]
    (the type of the global options, if any) and an optional last
    parameter type [o]: exactly the functions whose parameters are [m], or
    [m] followed by [o].  Whatever the lists of types and their order, a
    function with more parameters than there are types is refused: unlike
    the check that replaced it, this one leaves no parameter unused. *)
Theorem Legacy_hook_parameters (val : FuncValue) :
  (forall o m,
     Legacy.validateFuncInput val [o] m false = None
     <-> (fn_In val = m \/ fn_In val = (m ++ [o])%list))
  /\ (forall optional mandatory optionalFirst,
        List.length optional + List.length mandatory < List.length (fn_In val) ->
        Legacy.validateFuncInput val optional mandatory optionalFirst <> None).
Proof.
  split.
  - intros o m. unfold Legacy.validateFuncInput. cbn [Legacy.validateFuncInput_loop].
    destruct (validateArguments_mandatory val m 0) as (Hok & Hbad).
    cbn [skipn Nat.add] in Hok, Hbad.
    destruct (list_eq_dec GoType_eq_dec (firstn (List.length m) (fn_In val)) m)
      as [Heq|Hne].
    + rewrite (Hok Heq). cbn [Legacy.validateArguments negb].
      pose proof (firstn_skipn (List.length m) (fn_In val)) as Hsplit.
      rewrite Heq in Hsplit.
      assert (Hlen : List.length (fn_In val)
                     = List.length m + List.length (skipn (List.length m) (fn_In val))).
      { rewrite <- Hsplit at 1. apply length_app. }
      destruct (List.length (fn_In val) <=? List.length m) eqn:E.
      * apply Nat.leb_le in E.
        assert (Hrest : skipn (List.length m) (fn_In val) = [])
          by (apply skipn_all2; exact E).
        rewrite Hrest, app_nil_r in Hsplit.
        replace (List.length m =? List.length (fn_In val)) with true
          by (symmetry; apply Nat.eqb_eq; now rewrite <- Hsplit).
        cbn [negb]. split; [intros _; now left|reflexivity].
      * apply Nat.leb_gt in E.
        rewrite (skipn_nth _ _ _ o E) in Hsplit, Hlen. cbn [List.length] in Hlen.
        destruct (GoType_eqb (nth (List.length m) (fn_In val) o) o) eqn:Eo; cbn [negb].
        -- apply GoType_eqb_eq in Eo. rewrite Eo in Hsplit.
           destruct (S (List.length m) =? List.length (fn_In val)) eqn:En; cbn [negb].
           ++ apply Nat.eqb_eq in En. split; [intros _|reflexivity]. right.
              destruct (skipn (S (List.length m)) (fn_In val)); [|simpl in Hlen; lia].
              now rewrite <- Hsplit.
           ++ apply Nat.eqb_neq in En. split; [discriminate|].
              intros [H|H]; rewrite H in En; [rewrite H in E; lia|].
              rewrite length_app in En. simpl in En. lia.
        -- apply GoType_eqb_neq in Eo.
           replace (List.length m =? List.length (fn_In val)) with false
             by (symmetry; apply Nat.eqb_neq; lia).
           cbn [negb]. split; [discriminate|].
           intros [H|H]; [rewrite H in E; lia|].
           exfalso. apply Eo. rewrite H. rewrite app_nth2 by lia.
           now rewrite Nat.sub_diag.
    + destruct (Hbad Hne) as (e & ->). split; [discriminate|].
      intros [H|H]; exfalso; apply Hne; rewrite H.
      * apply firstn_all.
      * rewrite firstn_app, firstn_all, Nat.sub_diag. cbn. apply app_nil_r.
  - intros optional mandatory optionalFirst Hlen. unfold Legacy.validateFuncInput.
    assert (Hloop : forall first second b1 b2,
              List.length first + List.length second < List.length (fn_In val) ->
              (let '(n, err) :=
                 Legacy.validateFuncInput_loop val [(first, b1); (second, b2)] 0 in
               match err with
               | Some e => Some e
               | None =>
                   if negb (n =? List.length (fn_In val)) then
                     Some (NewError ("function " ++ fn_name val ++ " has "
                                     ++ fmt_d (List.length (fn_In val) - n)
                                     ++ " unused arguments of types "
                                     ++ Legacy.Join (map type_String (skipn n (fn_In val)))
                                                    ", "))
                   else None
               end) <> None).
    { intros first second b1 b2 Hl. cbn [Legacy.validateFuncInput_loop].
      pose proof (validateArguments_bound val first b1 0) as H1.
      destruct (Legacy.validateArguments val 0 first b1) as [n1 [e|]]; [discriminate|].
      cbn [fst] in H1.
      pose proof (validateArguments_bound val second b2 n1) as H2.
      destruct (Legacy.validateArguments val n1 second b2) as [n2 [e|]]; [discriminate|].
      cbn [fst] in H2.
      replace (n2 =? List.length (fn_In val)) with false
        by (symmetry; apply Nat.eqb_neq; lia).
      discriminate. }
    destruct optionalFirst; apply Hloop; lia.
Qed.

(** ** The further properties at concrete inputs *)


Lemma handler_result_returned_witness :
  RunOpts (L := exampleLib) blindEnv (Some ["fail"]) None [failCmd]
  = ([Stderr ("error running command fail: no luck" ++ nl)],
     Ok (Some (NewError "no luck"))).
Proof.
  exact (handler_result_returned (L := exampleLib) blindEnv (Some ["fail"]) None [failCmd]
           [] [] "fail" [] failCmd None _ (newArgs [] failCmd) None
           (Some (NewError "no luck")) eq_refl eq_refl eq_refl).
Defined.

Lemma printHelp_error_witness :
  (["nope"] = [] /\ Some (UnknownCommandError "nope") = Some ErrNoCommand)
  \/ (["nope"] <> [] /\ Some (UnknownCommandError "nope") = Some ErrHelp)
  \/ (exists u,
        u <> "" /\ commandByName [boomCmd] u = None
        /\ (nth_error ["nope"] 0 = Some u
            \/ (nth_error ["nope"] 0 = Some "help" /\ nth_error ["nope"] 1 = Some u))
        /\ Some (UnknownCommandError "nope") = Some (UnknownCommandError u)).
Proof.
  exact (printHelp_error (L := exampleLib) blindEnv ["nope"] [boomCmd] _
           (Some (UnknownCommandError "nope")) eq_refl).
Defined.

Lemma RunOpts_without_command_witness :
  snd (RunOpts (L := exampleLib) blindEnv (Some []) None [boomCmd]) = Ok (Some ErrNoCommand)
  /\ snd (RunOpts (L := exampleLib) blindEnv (Some ["help"]) None [boomCmd])
     = Ok (Some ErrHelp).
Proof.
  pose proof (RunOpts_without_command (L := exampleLib) blindEnv [boomCmd] eq_refl)
    as (H1 & _ & H3 & _).
  exact (conj H1 H3).
Defined.

Lemma RunOpts_empty_token_witness :
  snd (RunOpts (L := exampleLib) blindEnv (Some [""; "boom"]) None [boomCmd])
  = Ok (Some ErrHelp).
Proof.
  exact (f_equal snd
           (RunOpts_empty_token (L := exampleLib) blindEnv [boomCmd] ["boom"]
              eq_refl eq_refl)).
Defined.

Lemma RunOpts_dump_witness :
  RunOpts (L := exampleLib) dumpEnv (Some ["boom"]) None [boomCmd]
  = ([StdoutJSON {| help_Name := "prog"; help_Flags := [];
                    help_Commands := [plainCommandHelp boomCmd] |}],
     Ok None).
Proof.
  refine (RunOpts_dump (L := exampleLib) dumpEnv (Some ["boom"]) [boomCmd] _ _).
  - discriminate.
  - repeat constructor.
Defined.

Lemma RunOpts_panics_before_resolution_witness :
  RunOpts (L := exampleLib) blindEnv (Some ["boom"]) (Some panickingBefore) [boomCmd]
  = ([], Panic (PVString "before")).
Proof.
  exact (proj2 (RunOpts_panics_before_resolution (L := exampleLib) blindEnv (Some ["boom"])
                  panickingBefore [boomCmd] eq_refl)
               _ (PVString "before") eq_refl eq_refl eq_refl).
Defined.

Lemma help_NoArgs_with_usage_panics_witness :
  snd (RunOpts (L := exampleLib) blindEnv (Some ["help"; "status"]) None [statusCmd])
  = Panic nilDeref.
Proof.
  refine (proj2 (help_NoArgs_with_usage_panics (L := exampleLib) blindEnv statusCmd
                   [statusCmd] [] eq_refl eq_refl _ eq_refl)).
  discriminate.
Defined.

Lemma setupOptionsFlags_binds_witness :
  setupOptionsFlags (L := exampleLib) blindEnv "greet" (PtrStruct "main.Options" [loudField])
  = Ok (Some {| fs_name := "prog greet subcommand";
                fs_flags := [{| fd_name := "loud"; fd_help := "speak up";
                                fd_kind := "BoolVar"; fd_default := "false" |}] |},
        None).
Proof.
  refine (setupOptionsFlags_binds (L := exampleLib) blindEnv "greet" "main.Options"
            [loudField] _ _).
  - repeat constructor.
  - intros pre f post H. destruct pre as [|x pre].
    + injection H as <- _. reflexivity.
    + destruct pre; discriminate.
Defined.

Lemma setupOptionsFlags_stops_witness :
  setupOptionsFlags (L := exampleLib) blindEnv "greet"
    (PtrStruct "main.Options" [tagsField; loudField])
  = Ok (Some {| fs_name := "prog greet subcommand"; fs_flags := [] |},
        Some (NewError "field Tags has invalid option type []string")).
Proof.
  refine (proj1 (setupOptionsFlags_stops (L := exampleLib) blindEnv "greet" "main.Options"
                   [] [loudField] tagsField _ _) eq_refl _ eq_refl eq_refl).
  - constructor.
  - intros pre f post H. destruct pre; discriminate.
  - vm_compute. discriminate.
Defined.

Lemma flagsHelp_agrees_witness :
  exists dumped,
    flagsHelp (L := exampleLib) (PtrStruct "main.Options" [loudField]) = Ok (dumped, None)
    /\ map flagTriple dumped = [("loud", "speak up", "false")].
Proof.
  exact (flagsHelp_agrees (L := exampleLib) blindEnv "greet" "main.Options" [loudField]
           {| fs_name := "prog greet subcommand";
              fs_flags := [{| fd_name := "loud"; fd_help := "speak up";
                              fd_kind := "BoolVar"; fd_default := "false" |}] |}
           eq_refl).
Defined.

Lemma getPanic_frame_witness :
  exists i f name,
    nth_error (env_stack boomEnv) i = Some f /\ fr_func f = Some name
    /\ isPanicFrame name = true
    /\ (2%Z, 1%Z, 0%N, true) = panicResult i name (fr_pc f)
    /\ lastPanicOfFirstBlock (env_stack boomEnv) i.
Proof.
  exact (getPanic_frame boomEnv 2%Z 1%Z 0%N true eq_refl).
Defined.

Lemma defaultFieldName_lowercase_witness :
  defaultFieldName (L := exampleLib) (string_of_runes [104; 105]%N)
  = string_of_runes [104; 105]%N.
Proof.
  refine (defaultFieldName_lowercase (L := exampleLib) [104; 105]%N _ _);
    repeat constructor.
Defined.

Lemma required_argument_has_token_witness :
  exists q t,
    declaredAt [argument "name" false] "name" q
    /\ nth_error ["Ann"] q = Some t
    /\ String_ (L := exampleLib) (newArgs ["Ann"] helloCmd) "name" = Ok t.
Proof.
  exact (required_argument_has_token (L := exampleLib) [argument "name" false] ["Ann"]
           helloCmd 0 (argument "name" false) eq_refl eq_refl eq_refl eq_refl).
Defined.

Lemma validate_nil_pointer_witness :
  validate (L := exampleLib) (newArgs ["a"] holedCmd) = Panic nilDeref.
Proof.
  refine (validate_nil_pointer (L := exampleLib) [argument "from" false] [] ["a"] holedCmd
            eq_refl (or_introl _)).
  discriminate.
Defined.

Lemma String_nil_before_name_witness :
  String_ (L := exampleLib) (newArgs ["a"; "b"] holedCmd) "to" = Panic nilDeref
  /\ Int (L := exampleLib) (newArgs ["a"; "b"] holedCmd) "to" = Panic nilDeref.
Proof.
  refine (String_nil_before_name (L := exampleLib) [argument "from" false] [] ["a"; "b"]
            holedCmd "to" eq_refl _).
  repeat constructor. discriminate.
Defined.

Lemma BeforeFunc_error_returned_witness :
  RunOpts (L := exampleLib) blindEnv (Some ["help"]) (Some refusingBefore) [boomCmd]
  = ([], Ok (Some (NewError "not ready"))).
Proof.
  exact (BeforeFunc_error_returned (L := exampleLib) blindEnv (Some ["help"]) refusingBefore
           [boomCmd] _ (NewError "not ready") eq_refl eq_refl eq_refl eq_refl).
Defined.

Lemma Func_hook_outcome_witness :
  RunOpts (L := exampleLib) blindEnv (Some ["hello"; "Ann"]) (Some refusingFunc) [helloCmd]
  = ([], Ok (Some (NewError "denied"))).
Proof.
  exact (proj1 (Func_hook_outcome (L := exampleLib) blindEnv (Some ["hello"; "Ann"])
                  refusingFunc [helloCmd] [] "hello" ["Ann"] helloCmd None _ _
                  eq_refl eq_refl eq_refl eq_refl eq_refl eq_refl)
               (NewError "denied") eq_refl).
Defined.


Lemma printCommandHelp_output_witness :
  printCommandHelp (L := exampleLib) blindEnv helloCmd
  = ([Stderr ("hello: " ++ nl); Stderr "usage: prog hello"; Stderr " name"; Stderr nl;
      Stderr (nl ++ "Arguments:" ++ nl); Stderr ("  name: " ++ nl)],
     Next tt).
Proof.
  exact (proj1 (printCommandHelp_output (L := exampleLib) blindEnv helloCmd
                  [argument "name" false] eq_refl eq_refl)).
Defined.
